(** * Manubot's command line interface ([manubot/command.py])

    A shallow embedding of the dispatcher: the sub-command schemas built
    by [parse_arguments], the logging set-up of
    [setup_logging_and_errors], the exit rule of
    [exit_if_error_handler_fired] and the orchestration in [main].

    The three libraries the file drives are modelled in modules of their
    own, each restricted to what [command.py] uses:
    - [argparse], as in CPython 3.11: actions, defaults, choices,
      required options, mutually exclusive groups, one sub-parser
      level, the [--] separator, ambiguous abbreviations, help and
      version exits;
    - [logging]: the root logger, its level and its handlers, a
      [StreamHandler] with a [{]-style formatter;
    - [errorhandler]: the [ErrorHandler] whose [fired] attribute records
      that a record of level [ERROR] or above reached it. *)

From Stdlib Require Import String Ascii List ZArith Bool Lia.
From stdpp Require Import base option list gmap strings.
Import ListNotations.
Local Open Scope string_scope.
Local Open Scope Z_scope.
Local Open Scope list_scope.

Reserved Notation "x <- r ;; k"
  (at level 100, r at next level, right associativity).
Declare Scope result_scope.
Declare Scope process_scope.

(** ** Python values stored in an [argparse.Namespace] *)

(** [VPath s] is the object [pathlib.Path(s)], named by the word it was
    built from.  A list holds values: an [append] option may store a
    list among its items. *)
#[local] Set Warnings "-register-all".
Inductive Value : Type :=
  | VNone
  | VBool (b : bool)
  | VStr (s : string)
  | VPath (p : string)
  | VList (l : list Value).

Fixpoint Value_eqb (x y : Value) : bool :=
  match x, y with
  | VNone, VNone => true
  | VBool a, VBool b => Bool.eqb a b
  | VStr a, VStr b => String.eqb a b
  | VPath a, VPath b => String.eqb a b
  | VList l, VList l' =>
      (fix all2 (l l' : list Value) : bool :=
         match l, l' with
         | [], [] => true
         | a :: r, b :: r' => Value_eqb a b && all2 r r'
         | _, _ => false
         end) l l'
  | _, _ => false
  end.

Lemma Value_eqb_spec : forall x y, Value_eqb x y = true <-> x = y.
Proof.
  fix IH 1. intros x y. destruct x, y; simpl; try (split; [discriminate|discriminate]).
  - tauto.
  - rewrite Bool.eqb_true_iff. split; congruence.
  - rewrite String.eqb_eq. split; congruence.
  - rewrite String.eqb_eq. split; congruence.
  - revert l0. induction l as [|a r IHr]; intros [|b r'];
      try (split; [discriminate|discriminate]).
    + tauto.
    + rewrite andb_true_iff, IH, IHr. split.
      * intros [-> H]. injection H as ->. reflexivity.
      * intros H. injection H as -> ->. auto.
Qed.

#[global] Instance Value_eq_dec : EqDecision Value.
Proof.
  intros x y. destruct (Value_eqb x y) eqn:E.
  - left. apply Value_eqb_spec. exact E.
  - right. intros H. apply Value_eqb_spec in H. congruence.
Defined.

(** A namespace maps attribute names to values. *)
Abbreviation Namespace := (gmap string Value).
(** * argparse *)

Module argparse.

(** A command line word as [_parse_optional] of the parser that reads
    it returns it.  [Opt o e] is the option tuple of a word that starts
    with [-]: [o] is the option string and [e] the explicit argument,
    the part after [=] or after a single-dash option's letter.  The
    option string is a declared one when the word is that string, or
    abbreviates that string and no other; for any other word it is the
    word itself up to its [=], and the parser finds either several
    options the word may abbreviate ([option_tuples]), or none.
    [Arg s] is a word that [_parse_optional] takes for an argument,
    and also the word [--] and every word after it. *)
Inductive Word : Type :=
  | Opt (option_string : string) (explicit_arg : option string)
  | Arg (s : string).

Definition render (w : Word) : string :=
  match w with
  | Opt o None => o
  | Opt o (Some e) => o +:+ "=" +:+ e
  | Arg s => s
  end.

Inductive ActionKind : Type :=
  | store
  | store_const
  | append
  | help
  | version (v : string).

(** [nargs]: [None], ['?'], ['+'], and [0] for the actions that take no
    argument. *)
Inductive NArgs : Type := N_one | N_optional | N_one_or_more | N_zero.

Inductive ArgType : Type := T_identity | T_str | T_Path.

Record Action : Type := mkAction {
  option_strings : list string;
  dest : option string;          (* [None] is [SUPPRESS] *)
  kind : ActionKind;
  nargs : NArgs;
  const : Value;
  default : option Value;        (* [None] is [SUPPRESS] *)
  type_ : ArgType;
  choices : option (list string);
  required : bool;
  mutex_group : option nat
}.

#[global] Instance ActionKind_eq_dec : EqDecision ActionKind.
Proof. solve_decision. Defined.
#[global] Instance NArgs_eq_dec : EqDecision NArgs.
Proof. solve_decision. Defined.
#[global] Instance ArgType_eq_dec : EqDecision ArgType.
Proof. solve_decision. Defined.
#[global] Instance Action_eq_dec : EqDecision Action.
Proof. solve_decision. Defined.

(** Keyword arguments of [add_argument]. *)
Inductive Kw : Type :=
  | kw_action (k : string)
  | kw_version (v : string)
  | kw_nargs (n : NArgs)
  | kw_const (v : Value)
  | kw_default (v : Value)
  | kw_type (t : ArgType)
  | kw_choices (c : list string)
  | kw_required (b : bool)
  | kw_dest (d : string)
  | kw_metavar (m : string)
  | kw_help (h : string).

(** [dest] derived from the first long option string: the leading
    dashes are stripped and every '-' becomes '_'. *)
Fixpoint lstrip_dash (s : string) : string :=
  match s with
  | String "-" r => lstrip_dash r
  | _ => s
  end.

Fixpoint dash_to_underscore (s : string) : string :=
  match s with
  | EmptyString => EmptyString
  | String c r =>
      String (if Ascii.eqb c "-" then "_"%char else c) (dash_to_underscore r)
  end.

Definition is_option_string (name : string) : bool :=
  match name with
  | String "-" _ => true
  | _ => false
  end.

Definition dest_of_name (name : string) : string :=
  if is_option_string name then dash_to_underscore (lstrip_dash name) else name.

(** The action class chosen by [action=...] fixes [nargs], [const] and
    the default [default]. *)
Definition base_action (name : string) (k : string) : Action :=
  let opts := if is_option_string name then [name] else [] in
  let d := Some (dest_of_name name) in
  let req := negb (is_option_string name) in
  if String.eqb k "store_const" then
    mkAction opts d store_const N_zero VNone (Some VNone) T_identity None false None
  else if String.eqb k "store_true" then
    mkAction opts d store_const N_zero (VBool true) (Some (VBool false)) T_identity None false None
  else if String.eqb k "store_false" then
    mkAction opts d store_const N_zero (VBool false) (Some (VBool true)) T_identity None false None
  else if String.eqb k "append" then
    mkAction opts d append N_one VNone (Some VNone) T_identity None false None
  else if String.eqb k "version" then
    mkAction opts None (version "") N_zero VNone None T_identity None false None
  else if String.eqb k "help" then
    mkAction opts None help N_zero VNone None T_identity None false None
  else
    mkAction opts d store N_one VNone (Some VNone) T_identity None req None.

Definition action_of_kws (kws : list Kw) : string :=
  fold_left (fun acc kw => match kw with kw_action k => k | _ => acc end) kws "store".

Definition apply_kw (a : Action) (kw : Kw) : Action :=
  match kw with
  | kw_action _ => a
  | kw_version v =>
      match kind a with
      | version _ =>
          mkAction (option_strings a) (dest a) (version v) (nargs a) (const a)
                   (default a) (type_ a) (choices a) (required a) (mutex_group a)
      | _ => a
      end
  | kw_nargs n =>
      mkAction (option_strings a) (dest a) (kind a) n (const a)
               (default a) (type_ a) (choices a)
               (* a positional with nargs='?' is not required *)
               (match option_strings a, n with
                | [], N_optional => false
                | _, _ => required a
                end)
               (mutex_group a)
  | kw_const v =>
      mkAction (option_strings a) (dest a) (kind a) (nargs a) v
               (default a) (type_ a) (choices a) (required a) (mutex_group a)
  | kw_default v =>
      mkAction (option_strings a) (dest a) (kind a) (nargs a) (const a)
               (Some v) (type_ a) (choices a) (required a) (mutex_group a)
  | kw_type t =>
      mkAction (option_strings a) (dest a) (kind a) (nargs a) (const a)
               (default a) t (choices a) (required a) (mutex_group a)
  | kw_choices c =>
      mkAction (option_strings a) (dest a) (kind a) (nargs a) (const a)
               (default a) (type_ a) (Some c) (required a) (mutex_group a)
  | kw_required b =>
      mkAction (option_strings a) (dest a) (kind a) (nargs a) (const a)
               (default a) (type_ a) (choices a) b (mutex_group a)
  | kw_dest d =>
      mkAction (option_strings a) (Some d) (kind a) (nargs a) (const a)
               (default a) (type_ a) (choices a) (required a) (mutex_group a)
  | kw_metavar _ => a
  | kw_help _ => a
  end.

Definition make_action (name : string) (kws : list Kw) : Action :=
  fold_left apply_kw kws (base_action name (action_of_kws kws)).

Definition in_group (g : nat) (a : Action) : Action :=
  mkAction (option_strings a) (dest a) (kind a) (nargs a) (const a)
           (default a) (type_ a) (choices a) (required a) (Some g).

(** A parser: its actions in declaration order and the defaults given
    with [set_defaults].  [next_group] numbers the mutually exclusive
    groups created so far. *)
Record ArgumentParser : Type := mkParser {
  actions : list Action;
  defaults : list (string * Value);
  next_group : nat
}.

(** [ArgumentParser(...)] with [add_help=True]: the help action, under
    both [-h] and [--help], comes first. *)
Definition help_action : Action :=
  mkAction ["-h"; "--help"] None help N_zero VNone None T_identity None false None.

Definition ArgumentParser_ : ArgumentParser := mkParser [help_action] [] 0.

Definition add_argument (p : ArgumentParser) (name : string) (kws : list Kw)
  : ArgumentParser :=
  mkParser (actions p ++ [make_action name kws]) (defaults p) (next_group p).

(** [add_mutually_exclusive_group] returns the group; arguments are then
    added through it.  Both steps are folded into
    [group_add_argument]. *)
Definition add_mutually_exclusive_group (p : ArgumentParser) : ArgumentParser * nat :=
  (mkParser (actions p) (defaults p) (S (next_group p)), next_group p).

Definition group_add_argument (p : ArgumentParser) (g : nat) (name : string)
    (kws : list Kw) : ArgumentParser :=
  mkParser (actions p ++ [in_group g (make_action name kws)]) (defaults p)
           (next_group p).

Definition set_defaults (p : ArgumentParser) (d : string) (v : Value)
  : ArgumentParser :=
  mkParser (actions p) (defaults p ++ [(d, v)]) (next_group p).

(** *** Parsing *)

Inductive ArgumentError : Type :=
  | ambiguous_option (word : string) (matches : list string)
  | invalid_choice (argument value : string)
  | expected_one_argument (argument : string)
  | expected_at_least_one_argument (argument : string)
  | ignored_explicit_argument (argument explicit : string)
  | not_allowed_with (argument other : string)
  | required_arguments (names : list string)
  | unrecognized_arguments (extras : list string).

(** Parsing either returns, or leaves through [SystemExit]: after
    printing the help or the version (status 0), or through
    [parser.error] (status 2). *)
Inductive Result (A : Type) : Type :=
  | ok (a : A)
  | exit_help
  | exit_version (v : string)
  | error (e : ArgumentError).
Arguments ok {A} a.
Arguments exit_help {A}.
Arguments exit_version {A} v.
Arguments error {A} e.

Definition bind {A B} (r : Result A) (f : A -> Result B) : Result B :=
  match r with
  | ok a => f a
  | exit_help => exit_help
  | exit_version v => exit_version v
  | error e => error e
  end.

Notation "x <- r ;; k" := (bind r (fun x => k)) : result_scope.
Local Open Scope result_scope.

(** [_get_action_name] *)
Definition action_name (a : Action) : string :=
  match option_strings a with
  | [] => from_option id "" (dest a)
  | opts => String.concat "/" opts
  end.

Record PState : Type := mkPState {
  ns : Namespace;
  seen_actions : list string;
  seen_non_default_actions : list string;
  positionals : list Action;
  extras : list string
}.

Definition lookup_option (p : ArgumentParser) (o : string) : option Action :=
  List.find (fun a => existsb (String.eqb o) (option_strings a)) (actions p).

(** *** Classifying the words ([_parse_optional]) *)

(** The keys of [_option_string_actions], in the order of
    declaration. *)
Definition declared_options (p : ArgumentParser) : list string :=
  concat (map option_strings (actions p)).

(** The part of a word before its first [=]. *)
Fixpoint before_equals (s : string) : string :=
  match s with
  | EmptyString => EmptyString
  | String c r => if Ascii.eqb c "=" then EmptyString else String c (before_equals r)
  end.

Definition first_two (s : string) : string :=
  match s with
  | String a (String b _) => String a (String b EmptyString)
  | _ => s
  end.

(** [_get_option_tuples]: the declared option strings that a word may
    stand for.  A word with two dashes may abbreviate the options that
    start with its part before [=]; a word with one dash stands for the
    option made of its first two characters, or abbreviates the options
    that start with the whole word. *)
Definition option_tuples (p : ArgumentParser) (word : string) : list string :=
  match word with
  | String "-" (String "-" _) =>
      List.filter (String.prefix (before_equals word)) (declared_options p)
  | String "-" (String _ _) =>
      List.filter (fun o => String.eqb o (first_two word) || String.prefix word o)
                  (declared_options p)
  | _ => []
  end.

(** What is left of [_parse_optional] once a word is an option tuple:
    a word whose option string is not declared, and that may stand for
    more than one declared option string, is an error. *)
Definition parse_optional (p : ArgumentParser) (w : Word) : Result unit :=
  match w with
  | Arg _ => ok tt
  | Opt o _ =>
      match lookup_option p o with
      | Some _ => ok tt
      | None =>
          match option_tuples p (render w) with
          | (_ :: _ :: _) as matches => error (ambiguous_option (render w) matches)
          | _ => ok tt
          end
      end
  end.

Definition is_dashes (s : string) : bool := String.eqb s "--".

Definition is_separator (w : Word) : bool :=
  match w with
  | Arg s => is_dashes s
  | Opt _ _ => false
  end.

(** The first loop of [_parse_known_args]: every word up to the first
    [--] is classified, before any action is taken. *)
Fixpoint classify (p : ArgumentParser) (ws : list Word) : Result unit :=
  match ws with
  | [] => ok tt
  | w :: r =>
      if is_separator w then ok tt
      else _ <- parse_optional p w ;; classify p r
  end.

(** *** Values *)

(** [_get_value]: apply the [type] function. *)
Definition get_value (a : Action) (s : string) : Value :=
  match type_ a with
  | T_Path => VPath s
  | _ => VStr s
  end.

(** [_check_value] *)
Definition check_value (a : Action) (s : string) : Result unit :=
  match choices a with
  | Some c =>
      if existsb (String.eqb s) c then ok tt
      else error (invalid_choice (action_name a) s)
  | None => ok tt
  end.

Fixpoint check_values (a : Action) (l : list string) : Result unit :=
  match l with
  | [] => ok tt
  | s :: r => _ <- check_value a s ;; check_values a r
  end.

(** [arg_strings.remove('--')]: the first [--] is dropped. *)
Fixpoint remove_dashes (l : list string) : list string :=
  match l with
  | [] => []
  | s :: r => if String.eqb s "--" then r else s :: remove_dashes r
  end.

(** [_get_values]: the value handed to the action, and whether it is
    the action's own default object (only an absent ['?'] argument
    yields an existing object; every other value is freshly built).
    One word left for an action that takes one gives that word
    converted; in every other case the words left give a list, so that
    [--name=--] gives the empty list. *)
Definition get_values (a : Action) (arg_strings : list string)
  : Result (Value * bool) :=
  match remove_dashes arg_strings, nargs a with
  | [], N_optional =>
      let v := match option_strings a with
               | [] => from_option id VNone (default a)
               | _ => const a
               end in
      match v with
      | VStr s => _ <- check_value a s ;; ok (get_value a s, false)
      | _ => ok (v, bool_decide (Some v = default a))
      end
  | [s], N_one | [s], N_optional =>
      _ <- check_value a s ;; ok (get_value a s, false)
  | l, _ =>
      _ <- check_values a l ;; ok (VList (map (get_value a) l), false)
  end.

(** The [__call__] of the action classes. *)
Definition call_action (a : Action) (n : Namespace) (v : Value) : Result Namespace :=
  match kind a with
  | store =>
      match dest a with
      | Some d => ok (<[d := v]> n)
      | None => ok n
      end
  | store_const =>
      match dest a with
      | Some d => ok (<[d := const a]> n)
      | None => ok n
      end
  | append =>
      match dest a with
      | Some d =>
          let items := match n !! d with
                       | Some (VList l) => l
                       | _ => []
                       end in
          ok (<[d := VList (items ++ [v])]> n)
      | None => ok n
      end
  | help => exit_help
  | version v => exit_version v
  end.

(** The other members of the action's mutually exclusive group. *)
Definition conflicts (p : ArgumentParser) (a : Action) : list string :=
  match mutex_group a with
  | None => []
  | Some g =>
      map action_name
        (List.filter (fun b => bool_decide (mutex_group b = Some g)
                          && negb (String.eqb (action_name b) (action_name a)))
                (actions p))
  end.

(** [take_action] of [_parse_known_args] *)
Definition take_action (p : ArgumentParser) (a : Action) (args : list string)
    (st : PState) : Result PState :=
  vd <- get_values a args ;;
  let '(v, is_default) := vd in
  let seen := seen_actions st ++ [action_name a] in
  if is_default then
    n <- call_action a (ns st) v ;;
    ok (mkPState n seen (seen_non_default_actions st) (positionals st) (extras st))
  else
    match List.find (fun c => existsb (String.eqb c) (seen_non_default_actions st))
                    (conflicts p a) with
    | Some c => error (not_allowed_with (action_name a) c)
    | None =>
        n <- call_action a (ns st) v ;;
        ok (mkPState n seen (seen_non_default_actions st ++ [action_name a])
                     (positionals st) (extras st))
    end.

Definition add_extras (st : PState) (l : list string) : PState :=
  mkPState (ns st) (seen_actions st) (seen_non_default_actions st)
           (positionals st) (extras st ++ l).

Definition set_positionals (st : PState) (l : list Action) : PState :=
  mkPState (ns st) (seen_actions st) (seen_non_default_actions st) l (extras st).

(** *** Matching arguments to actions *)

(** The plain words at the head of a run, up to its [--]: the words an
    option can take ([_get_nargs_pattern] of an optional has no [-]). *)
Fixpoint plain_words (run : list string) : list string * list string :=
  match run with
  | [] => ([], [])
  | s :: r =>
      if is_dashes s then ([], run)
      else let '(l, lo) := plain_words r in (s :: l, lo)
  end.

(** [_match_argument] for an option followed by [run]: the words it
    takes, and the words it leaves. *)
Definition match_argument (a : Action) (run : list string)
  : Result (list string * list string) :=
  match nargs a with
  | N_zero => ok ([], run)
  | N_one =>
      match plain_words run with
      | (s :: _, _) => ok ([s], tl run)
      | _ => error (expected_one_argument (action_name a))
      end
  | N_optional =>
      match plain_words run with
      | (s :: _, _) => ok ([s], tl run)
      | _ => ok ([], run)
      end
  | N_one_or_more =>
      match plain_words run with
      | ([], _) => error (expected_at_least_one_argument (action_name a))
      | (l, lo) => ok (l, lo)
      end
  end.

(** In a run of arguments, the first [--] is the separator, [-] in the
    pattern of the arguments, and every other word is an [A].  How
    many words of the run the pattern of a positional matches: one
    [A] for an action that takes one, at most one for ['?'], one and
    whatever follows for ['+'], none for an action that takes none,
    and in each case the [-] before it, and after it when nothing else
    follows. *)
Definition match_positional (a : Action) (run : list string) : option nat :=
  match nargs a, run with
  | N_one_or_more, [] => None
  | N_one_or_more, [s] => if is_dashes s then None else Some 1%nat
  | N_one_or_more, _ => Some (length run)
  | N_one, s :: s' :: _ =>
      if is_dashes s then Some 2%nat
      else if is_dashes s' then Some 2%nat else Some 1%nat
  | N_one, [s] => if is_dashes s then None else Some 1%nat
  | N_one, [] => None
  | N_optional, s :: s' :: _ =>
      if is_dashes s then Some 2%nat
      else if is_dashes s' then Some 2%nat else Some 1%nat
  | N_optional, [_] => Some 1%nat
  | N_optional, [] => Some 0%nat
  | N_zero, s :: _ => if is_dashes s then Some 1%nat else Some 0%nat
  | N_zero, [] => Some 0%nat
  end.

(** [consume_positionals] on a run of arguments: the parsers of this
    program declare at most one positional each, so that
    [_match_arguments_partial] has one pattern to try.  What the
    positional does not take is left over, and the caller adds it to
    the extras.  Between two options the function is called on a run
    that is not empty only; after the last option it is called on
    whatever is left. *)
Definition consume_positionals (p : ArgumentParser) (final : bool)
    (run : list string) (st : PState) : Result PState :=
  if negb final && bool_decide (run = []) then ok st
  else
    match positionals st with
    | [] => ok (add_extras st run)
    | a :: rest =>
        match match_positional a run with
        | None => ok (add_extras st run)
        | Some n =>
            st' <- take_action p a (take n run) (set_positionals st rest) ;;
            ok (add_extras st' (drop n run))
        end
    end.

(** An option word together with the arguments that follow it, up to
    the next option word. *)
Record Segment : Type := mkSegment {
  seg_option : string;
  seg_explicit : option string;
  seg_args : list string
}.

(** The leading run of arguments, then the option segments. *)
Fixpoint segments (ws : list Word) : list string * list Segment :=
  match ws with
  | [] => ([], [])
  | Arg s :: r => let '(run, segs) := segments r in (s :: run, segs)
  | Opt o e :: r => let '(run, segs) := segments r in ([], mkSegment o e run :: segs)
  end.

Definition single_dash (o : string) : bool :=
  match o with
  | String _ (String "-" _) => false
  | _ => true
  end.

(** The loop of [consume_optional] on an option with an explicit
    argument: an action that takes an argument takes the explicit one;
    a single-dash option that takes none hands the explicit argument
    over to the option named by its first character ([-xyz] is [-x -y
    -z]); anything else is an error.  The result is the list of the
    actions to take with their arguments, and the words left of the
    run. *)
Fixpoint explicit_tuples (p : ArgumentParser) (a : Action) (o : string)
    (explicit : string) (run : list string)
  : Result (list (Action * list string) * list string) :=
  match nargs a with
  | N_zero =>
      match explicit with
      | String c rest =>
          if single_dash o then
            let o' := String "-" (String c EmptyString) in
            match lookup_option p o' with
            | Some a' =>
                match rest with
                | EmptyString =>
                    taken <- match_argument a' run ;;
                    ok ([(a, []); (a', fst taken)], snd taken)
                | _ =>
                    more <- explicit_tuples p a' o' rest run ;;
                    ok ((a, []) :: fst more, snd more)
                end
            | None => error (ignored_explicit_argument (action_name a) explicit)
            end
          else error (ignored_explicit_argument (action_name a) explicit)
      | EmptyString => error (ignored_explicit_argument (action_name a) explicit)
      end
  | _ => ok ([(a, [explicit])], run)
  end.

Fixpoint take_actions (p : ArgumentParser) (l : list (Action * list string))
    (st : PState) : Result PState :=
  match l with
  | [] => ok st
  | (a, args) :: r => st' <- take_action p a args st ;; take_actions p r st'
  end.

(** [consume_optional], followed by the [consume_positionals] on what
    the option left of the arguments after it.  A word that is no
    option of the parser goes to the extras. *)
Definition consume_optional (p : ArgumentParser) (final : bool) (sg : Segment)
    (st : PState) : Result PState :=
  match lookup_option p (seg_option sg) with
  | None =>
      consume_positionals p final (seg_args sg)
        (add_extras st [render (Opt (seg_option sg) (seg_explicit sg))])
  | Some a =>
      tuples <-
        match seg_explicit sg with
        | Some e => explicit_tuples p a (seg_option sg) e (seg_args sg)
        | None =>
            taken <- match_argument a (seg_args sg) ;;
            ok ([(a, fst taken)], snd taken)
        end ;;
      st' <- take_actions p (fst tuples) st ;;
      consume_positionals p final (snd tuples) st'
  end.

Fixpoint consume_all (p : ArgumentParser) (segs : list Segment) (st : PState)
  : Result PState :=
  match segs with
  | [] => ok st
  | sg :: r =>
      st' <- consume_optional p (bool_decide (r = [])) sg st ;;
      consume_all p r st'
  end.

(** The namespace before any word is read: action defaults first, then
    the parser's [set_defaults], neither overwriting an attribute that
    is already there. *)
Definition setdefault (n : Namespace) (d : string) (v : Value) : Namespace :=
  match n !! d with
  | Some _ => n
  | None => <[d := v]> n
  end.

Definition initial_namespace (p : ArgumentParser) : Namespace :=
  let n := fold_left (fun n a =>
                        match dest a, default a with
                        | Some d, Some v => setdefault n d v
                        | _, _ => n
                        end) (actions p) ∅ in
  fold_left (fun n dv => setdefault n (fst dv) (snd dv)) (defaults p) n.

(** After the last word: every required action must have been seen, and
    a string default that is still in place goes through the [type]
    function. *)
Definition finish (p : ArgumentParser) (st : PState) : Result PState :=
  let unseen := List.filter (fun a => negb (existsb (String.eqb (action_name a))
                                               (seen_actions st))) (actions p) in
  let missing := map action_name (List.filter required unseen) in
  let n := fold_left (fun n a =>
                        match dest a, default a with
                        | Some d, Some (VStr s) =>
                            if required a then n
                            else if bool_decide (n !! d = Some (VStr s))
                            then <[d := get_value a s]> n else n
                        | _, _ => n
                        end) unseen (ns st) in
  match missing with
  | [] => ok (mkPState n (seen_actions st) (seen_non_default_actions st)
                       (positionals st) (extras st))
  | _ => error (required_arguments missing)
  end.

Definition initial_state (p : ArgumentParser) : PState :=
  mkPState (initial_namespace p) [] []
           (List.filter (fun a => bool_decide (option_strings a = [])) (actions p))
           [].

(** The second loop of [_parse_known_args]: positionals and options in
    turn. *)
Definition parse_words (p : ArgumentParser) (ws : list Word) : Result PState :=
  let '(run, segs) := segments ws in
  st1 <- consume_positionals p (bool_decide (segs = [])) run (initial_state p) ;;
  consume_all p segs st1.

(** [parse_known_args] of a parser without sub-parsers. *)
Definition parse_known_args (p : ArgumentParser) (ws : list Word)
  : Result (Namespace * list string) :=
  _ <- classify p ws ;;
  st2 <- parse_words p ws ;;
  st3 <- finish p st2 ;;
  ok (ns st3, extras st3).

(** The object returned by [add_subparsers]: the sub-parsers by name, in
    registration order, with the attributes [required] and [dest]. *)
Record SubParsers : Type := mkSubParsers {
  sub_choices : list (string * ArgumentParser);
  sub_required : bool;
  sub_dest : option string
}.

Definition add_subparsers : SubParsers := mkSubParsers [] false None.

Definition add_parser (sp : SubParsers) (name : string) (p : ArgumentParser)
  : SubParsers :=
  mkSubParsers (sub_choices sp ++ [(name, p)]) (sub_required sp) (sub_dest sp).

Definition lookup_parser (sp : SubParsers) (name : string) : option ArgumentParser :=
  snd <$> List.find (fun np => String.eqb name (fst np)) (sub_choices sp).

Definition plain_follows (ws : list Word) : bool :=
  match ws with
  | Arg _ :: _ => true
  | _ => false
  end.

(** The second loop of [_parse_known_args] in the top-level parser,
    whose only positional is the sub-parsers action, which takes one
    argument and every word after it, and whose options take no
    argument.  Option words
    before the sub-command are the top-level parser's own (an undeclared
    one is an extra); a [--] that no argument follows is an extra; the
    first argument, or the [--] before it, is looked up among the names
    of the sub-parsers; the sub-parser parses every word after it, and
    its namespace is copied over the top-level one. *)
Fixpoint parse_top (p : ArgumentParser) (sp : SubParsers) (ws : list Word)
    (st : PState) : Result (Namespace * list string) :=
  match ws with
  | [] =>
      if sub_required sp
      then error (required_arguments [from_option id "" (sub_dest sp)])
      else ok (ns st, extras st)
  | Opt o e :: r =>
      st' <- consume_optional p false (mkSegment o e []) st ;;
      parse_top p sp r st'
  | Arg name :: r =>
      if is_dashes name && negb (plain_follows r)
      then parse_top p sp r (add_extras st [name])
      else
        match lookup_parser sp name with
        | None => error (invalid_choice (from_option id "" (sub_dest sp)) name)
        | Some sub =>
            res <- parse_known_args sub r ;;
            let n := match sub_dest sp with
                     | Some d => <[d := VStr name]> (ns st)
                     | None => ns st
                     end in
            ok (fst res ∪ n, extras st ++ snd res)
        end
  end.

(** [parse_args]: the top-level parser classifies every word of the
    command line first; anything left unrecognised is an error. *)
Definition parse_args (p : ArgumentParser) (sp : SubParsers) (argv : list Word)
  : Result Namespace :=
  _ <- classify p argv ;;
  res <- parse_top p sp argv
           (mkPState (setdefault (initial_namespace p)
                        (from_option id "" (sub_dest sp)) VNone) [] [] [] []) ;;
  match snd res with
  | [] => ok (fst res)
  | l => error (unrecognized_arguments l)
  end.

End argparse.
(** * logging and errorhandler *)

Module logging.

Inductive Level : Type := DEBUG | INFO | WARNING | ERROR | CRITICAL.

#[global] Instance Level_eq_dec : EqDecision Level.
Proof. solve_decision. Defined.

Definition NOTSET : Z := 0.

Definition levelno (l : Level) : Z :=
  match l with
  | DEBUG => 10
  | INFO => 20
  | WARNING => 30
  | ERROR => 40
  | CRITICAL => 50
  end.

Definition levelname (l : Level) : string :=
  match l with
  | DEBUG => "DEBUG"
  | INFO => "INFO"
  | WARNING => "WARNING"
  | ERROR => "ERROR"
  | CRITICAL => "CRITICAL"
  end.

(** [getattr(logging, name)] for the names of the five levels; any other
    name is not looked up by this program. *)
Definition getattr_level (name : string) : option Level :=
  List.find (fun l => String.eqb name (levelname l))
            [DEBUG; INFO; WARNING; ERROR; CRITICAL].

Record LogRecord : Type := mkRecord {
  record_level : Level;
  message : string
}.

(** A [{]-style format string, cut at its fields. *)
Inductive FormatPiece : Type :=
  | literal (s : string)
  | field_levelname
  | field_message.

Definition Formatter := list FormatPiece.

Definition format (f : Formatter) (r : LogRecord) : string :=
  String.concat ""
    (map (fun piece =>
            match piece with
            | literal s => s
            | field_levelname => levelname (record_level r)
            | field_message => message r
            end) f).

Definition newline : string := String (ascii_of_nat 10) EmptyString.

(** The handlers this program installs: logging's [StreamHandler] on
    the standard error stream, and errorhandler's [ErrorHandler], a
    [logging.Handler] whose [emit] sets its attribute [fired]. *)
Inductive Handler : Type :=
  | StreamHandler (level : Z) (formatter : Formatter)
  | ErrorHandler (level : Z) (fired : bool).

Definition handler_level (h : Handler) : Z :=
  match h with
  | StreamHandler l _ => l
  | ErrorHandler l _ => l
  end.

(** What is written where. *)
Inductive Written : Type :=
  | log_output (s : string)                     (* by the stream handler *)
  | argparse_error (e : argparse.ArgumentError) (* usage and error message *)
  | argparse_help
  | argparse_version (v : string).

(** [Handler.handle] applied to a record that passed the handler's
    level: the handler after [emit], and what [emit] wrote. *)
Definition emit (h : Handler) (r : LogRecord) : Handler * list Written :=
  match h with
  | StreamHandler l f => (h, [log_output (format f r +:+ newline)])
  | ErrorHandler l _ => (ErrorHandler l true, [])
  end.

(** One step of [Logger.callHandlers]. *)
Definition handle (r : LogRecord) (h : Handler) : Handler * list Written :=
  if handler_level h <=? levelno (record_level r) then emit h r else (h, []).

End logging.

Import logging.

(** ** The process *)

Inductive Exn : Type :=
  | SystemExit (code : Z)
  | Exception (name : string).

(** What the dispatcher does, in order. *)
Inductive Event : Type :=
  | ev_add_handler (h : Handler)
  | ev_warnings_captured
  | ev_parse_args
  | ev_set_level (l : Level)
  | ev_import (identifier : string)
  | ev_call (identifier : string)
  | ev_returned (identifier : string)
  | ev_read_fired (b : bool).

(** An event as it happened: with the root logger's level and handlers
    at that moment. *)
Record Moment : Type := mkMoment {
  moment_event : Event;
  level_then : Z;
  handlers_then : list Handler
}.

(** The state main works on: the root logger (level and handlers, the
    [ErrorHandler] object among them), whether warnings are redirected
    to logging, the two output streams, and what happened so far. *)
Record Process : Type := mkProcess {
  root_level : Z;
  root_handlers : list Handler;
  warnings_captured : bool;
  stderr : list Written;
  stdout : list Written;
  moments : list Moment
}.

(** The events so far, in order. *)
Definition trace (p : Process) : list Event := map moment_event (moments p).

(** A fresh interpreter: the root logger is at [WARNING] and has no
    handler. *)
Definition initial_process : Process :=
  mkProcess (levelno WARNING) [] false [] [] [].

Inductive Outcome (A : Type) : Type :=
  | returned (a : A)
  | raised (e : Exn).
Arguments returned {A} a.
Arguments raised {A} e.

Definition M (A : Type) : Type := Process -> Process * Outcome A.

Definition ret {A} (a : A) : M A := fun p => (p, returned a).

Definition raise {A} (e : Exn) : M A := fun p => (p, raised e).

Definition bindM {A B} (m : M A) (k : A -> M B) : M B :=
  fun p =>
    match m p with
    | (p', returned a) => k a p'
    | (p', raised e) => (p', raised e)
    end.

Notation "x <- r ;; k" := (bindM r (fun x => k)) : process_scope.
Local Open Scope process_scope.

(** An event is recorded with the state it happens in. *)
Definition happened (e : Event) (p : Process) : list Moment :=
  moments p ++ [mkMoment e (root_level p) (root_handlers p)].

Definition record_event (e : Event) : M unit :=
  fun p => (mkProcess (root_level p) (root_handlers p) (warnings_captured p)
                      (stderr p) (stdout p) (happened e p), returned tt).

Definition write_stderr (w : list Written) : M unit :=
  fun p => (mkProcess (root_level p) (root_handlers p) (warnings_captured p)
                      (stderr p ++ w) (stdout p) (moments p), returned tt).

Definition write_stdout (w : list Written) : M unit :=
  fun p => (mkProcess (root_level p) (root_handlers p) (warnings_captured p)
                      (stderr p) (stdout p ++ w) (moments p), returned tt).

Definition get_process : M Process := fun p => (p, returned p).

(** A reference to a handler object: its position among the root
    logger's handlers. *)
Definition HandlerRef := nat.

(** [logger.addHandler(h)] on the root logger. *)
Definition addHandler (h : Handler) : M HandlerRef :=
  fun p =>
    let hs := root_handlers p ++ [h] in
    (mkProcess (root_level p) hs (warnings_captured p) (stderr p) (stdout p)
               (moments p ++ [mkMoment (ev_add_handler h) (root_level p) hs]),
     returned (length (root_handlers p))).

(** [logger.setLevel(level)] on the root logger. *)
Definition setLevel (l : Level) : M unit :=
  fun p =>
    (mkProcess (levelno l) (root_handlers p) (warnings_captured p)
               (stderr p) (stdout p)
               (moments p ++ [mkMoment (ev_set_level l) (levelno l) (root_handlers p)]),
     returned tt).

(** [logging.captureWarnings(True)] *)
Definition captureWarnings : M unit :=
  fun p => (mkProcess (root_level p) (root_handlers p) true
                      (stderr p) (stdout p) (happened ev_warnings_captured p),
            returned tt).

(** [Logger.callHandlers]: the record goes to every handler of the root
    logger whose level it reaches. *)
Definition callHandlers (r : LogRecord) : M unit :=
  fun p =>
    let hw := map (handle r) (root_handlers p) in
    (mkProcess (root_level p) (map fst hw) (warnings_captured p)
               (stderr p ++ concat (map snd hw)) (stdout p) (moments p),
     returned tt).

(** [Logger.log] on a logger that propagates to the root logger.
    [logger_level] is the level set on the logger or on its nearest
    ancestor below the root, [NOTSET] when none is set, in which case
    the root logger's level decides ([getEffectiveLevel]). *)
Definition log (logger_level : Z) (l : Level) (msg : string) : M unit :=
  fun p =>
    let effective := if logger_level =? NOTSET then root_level p else logger_level in
    if effective <=? levelno l
    then callHandlers (mkRecord l msg) p
    else (p, returned tt).

(** [logging.critical(msg)]: the root logger's own [critical]. *)
Definition logging_critical (msg : string) : M unit := log NOTSET CRITICAL msg.

(** [errorhandler.ErrorHandler()]: a handler of level [ERROR], not yet
    fired, installed on the root logger. *)
Module errorhandler.

Definition ErrorHandler_ : M HandlerRef :=
  addHandler (ErrorHandler (levelno ERROR) false).

(** The attribute [fired]. *)
Definition fired (h : HandlerRef) : M bool :=
  p <- get_process ;;
  match nth_error (root_handlers p) h with
  | Some (ErrorHandler _ b) => _ <- record_event (ev_read_fired b) ;; ret b
  | _ => raise (Exception "AttributeError")
  end.

End errorhandler.

(** ** What lies outside the dispatcher *)

(** A call of a logging method inside a handler or during its import. *)
Inductive Effect : Type :=
  | do_log (logger_level : Z) (l : Level) (msg : string).

(** What a handler does when called: it logs, then returns or raises. *)
Record Behaviour : Type := mkBehaviour {
  effects : list Effect;
  raises : option string
}.

(** What importing a handler does: it may log, and it yields the
    function or fails. *)
Record Imported : Type := mkImported {
  import_effects : list Effect;
  imported : option (Namespace -> Behaviour)
}.

Fixpoint run_effects (es : list Effect) : M unit :=
  match es with
  | [] => ret tt
  | do_log ll l msg :: r => _ <- log ll l msg ;; run_effects r
  end.

(** * The command line of manubot *)

Import argparse.

Section Command.

(** [manubot.__version__], defined in the package's [__init__]. *)
Variable manubot_version : string.

Definition add_subparser_process (subparsers : SubParsers) : SubParsers :=
  let parser := ArgumentParser_ in
  let parser := add_argument parser "--content-directory"
                  [kw_type T_Path; kw_required true] in
  let parser := add_argument parser "--output-directory"
                  [kw_type T_Path; kw_required true] in
  let parser := add_argument parser "--template-variables-path"
                  [kw_action "append"; kw_default (VList [])] in
  let parser := add_argument parser "--skip-citations"
                  [kw_action "store_true"; kw_required true] in
  let parser := add_argument parser "--cache-directory" [kw_type T_Path] in
  let parser := add_argument parser "--clear-requests-cache"
                  [kw_action "store_true"] in
  let parser := add_argument parser "--skip-remote" [kw_action "store_true"] in
  let parser := set_defaults parser "function"
                  (VStr "manubot.process.process_command.cli_process") in
  add_parser subparsers "process" parser.

Definition add_subparser_cite (subparsers : SubParsers) : SubParsers :=
  let parser := ArgumentParser_ in
  let parser := add_argument parser "--output" [kw_type T_Path] in
  let '(parser, format_group) := add_mutually_exclusive_group parser in
  let parser := group_add_argument parser format_group "--format"
                  [kw_choices ["csljson"; "cslyaml"; "plain"; "markdown";
                               "docx"; "html"; "jats"]] in
  let parser := group_add_argument parser format_group "--yml"
                  [kw_dest "format"; kw_action "store_const";
                   kw_const (VStr "cslyaml")] in
  let parser := group_add_argument parser format_group "--txt"
                  [kw_dest "format"; kw_action "store_const";
                   kw_const (VStr "plain")] in
  let parser := group_add_argument parser format_group "--md"
                  [kw_dest "format"; kw_action "store_const";
                   kw_const (VStr "markdown")] in
  let parser := add_argument parser "--csl"
                  [kw_default (VStr "https://citation-style.manubot.org/")] in
  let parser := add_argument parser "--bibliography"
                  [kw_default (VList []); kw_action "append"] in
  let parser := add_argument parser "--no-infer-prefix"
                  [kw_dest "infer_prefix"; kw_action "store_false"] in
  let parser := add_argument parser "--allow-invalid-csl-data"
                  [kw_dest "prune_csl"; kw_action "store_false"] in
  let parser := add_argument parser "citekeys" [kw_nargs N_one_or_more] in
  let parser := set_defaults parser "function"
                  (VStr "manubot.cite.cite_command.cli_cite") in
  add_parser subparsers "cite" parser.

Definition add_subparser_webpage (subparsers : SubParsers) : SubParsers :=
  let parser := ArgumentParser_ in
  let parser := add_argument parser "--checkout"
                  [kw_nargs N_optional; kw_const (VStr "gh-pages");
                   kw_default VNone] in
  let parser := add_argument parser "--version" [] in
  let parser := add_argument parser "--timestamp" [kw_action "store_true"] in
  let '(parser, cache_group) := add_mutually_exclusive_group parser in
  let parser := group_add_argument parser cache_group "--no-ots-cache"
                  [kw_action "store_true"] in
  let parser := group_add_argument parser cache_group "--ots-cache"
                  [kw_default (VPath "ci/cache/ots"); kw_type T_Path] in
  let parser := set_defaults parser "function"
                  (VStr "manubot.webpage.webpage_command.cli_webpage") in
  add_parser subparsers "webpage" parser.

Definition add_subparser_airevision (subparsers : SubParsers) : SubParsers :=
  let parser := ArgumentParser_ in
  let parser := add_argument parser "--content-directory"
                  [kw_type T_Path; kw_required true] in
  let parser := add_argument parser "--model-type"
                  [kw_type T_str; kw_required false;
                   kw_default (VStr "GPT3CompletionModel")] in
  let parser := add_argument parser "--model-kwargs"
                  [kw_required false; kw_metavar "key=value";
                   kw_nargs N_one_or_more] in
  let parser := set_defaults parser "function"
                  (VStr "manubot.ai_revision.ai_revision_command.cli_process") in
  add_parser subparsers "ai-revision" parser.

Definition add_subparser_aicite (subparsers : SubParsers) : SubParsers :=
  let parser := ArgumentParser_ in
  let parser := add_argument parser "--content-directory"
                  [kw_type T_Path; kw_required true] in
  let parser := add_argument parser "--model-type"
                  [kw_type T_str; kw_required false;
                   kw_default (VStr "GPT3CompletionModel")] in
  let parser := add_argument parser "--model-kwargs"
                  [kw_required false; kw_metavar "key=value";
                   kw_nargs N_one_or_more] in
  let parser := set_defaults parser "function"
                  (VStr "manubot.ai_cite.ai_cite_command.cli_process") in
  add_parser subparsers "ai-cite" parser.

Definition log_levels : list string :=
  ["DEBUG"; "INFO"; "WARNING"; "ERROR"; "CRITICAL"].

(** The parser and the sub-parsers that [parse_arguments] builds before
    it reads the command line. *)
Definition top_parser : ArgumentParser :=
  add_argument ArgumentParser_ "--version"
    [kw_action "version"; kw_version ("v" +:+ manubot_version)].

Definition registered_subparsers : SubParsers :=
  let subparsers := add_subparsers in
  let subparsers := mkSubParsers (sub_choices subparsers) true (Some "subcommand") in
  let subparsers := add_subparser_process subparsers in
  let subparsers := add_subparser_cite subparsers in
  let subparsers := add_subparser_webpage subparsers in
  let subparsers := add_subparser_airevision subparsers in
  let subparsers := add_subparser_aicite subparsers in
  mkSubParsers
    (map (fun np =>
            (fst np, add_argument (snd np) "--log-level"
                       [kw_default (VStr "WARNING"); kw_choices log_levels]))
         (sub_choices subparsers))
    (sub_required subparsers) (sub_dest subparsers).

(** What the command line parses to. *)
Definition parsed_arguments (argv : list Word) : Result Namespace :=
  parse_args top_parser registered_subparsers argv.

(** [parser.parse_args()] inside the process: help and version are
    printed to the standard output and [parser.error] writes to the
    standard error, each leaving through [SystemExit]. *)
Definition parse_arguments (argv : list Word) : M Namespace :=
  _ <- record_event ev_parse_args ;;
  match parsed_arguments argv with
  | ok args => ret args
  | exit_help => _ <- write_stdout [argparse_help] ;; raise (SystemExit 0)
  | exit_version v => _ <- write_stdout [argparse_version v] ;; raise (SystemExit 0)
  | error e => _ <- write_stderr [argparse_error e] ;; raise (SystemExit 2)
  end.

Record Diagnostics : Type := mkDiagnostics {
  error_handler : HandlerRef
}.

Definition setup_logging_and_errors : M Diagnostics :=
  error_handler <- errorhandler.ErrorHandler_ ;;
  _ <- captureWarnings ;;
  let stream_handler :=
    StreamHandler NOTSET
      [literal "## "; field_levelname; literal newline; field_message] in
  _ <- addHandler stream_handler ;;
  ret (mkDiagnostics error_handler).

Definition summary : string :=
  "Failure: exiting with code 1 due to logged errors".

Definition exit_if_error_handler_fired (error_handler : HandlerRef) : M unit :=
  fired <- errorhandler.fired error_handler ;;
  if fired : bool then
    _ <- logging_critical summary ;;
    raise (SystemExit 1)
  else ret tt.

(** [manubot.util.import_function], and through it the modules that hold
    the handlers: what importing an identifier does. *)
Variable importer : string -> Imported.

Definition getattr (args : Namespace) (name : string) : M Value :=
  match args !! name with
  | Some v => ret v
  | None => raise (Exception "AttributeError")
  end.

Definition getattr_logging (name : Value) : M Level :=
  match name with
  | VStr s =>
      match getattr_level s with
      | Some l => ret l
      | None => raise (Exception "AttributeError")
      end
  | _ => raise (Exception "TypeError")
  end.

Definition import_function (name : Value)
  : M (string * (Namespace -> Behaviour)) :=
  match name with
  | VStr identifier =>
      _ <- record_event (ev_import identifier) ;;
      _ <- run_effects (import_effects (importer identifier)) ;;
      match imported (importer identifier) with
      | Some f => ret (identifier, f)
      | None => raise (Exception "ImportError")
      end
  | _ => raise (Exception "AttributeError")
  end.

Definition call (function : string * (Namespace -> Behaviour))
    (args : Namespace) : M unit :=
  _ <- record_event (ev_call (fst function)) ;;
  let behaviour := snd function args in
  _ <- run_effects (effects behaviour) ;;
  match raises behaviour with
  | Some e => raise (Exception e)
  | None => record_event (ev_returned (fst function))
  end.

Definition main (argv : list Word) : M unit :=
  diagnostics <- setup_logging_and_errors ;;
  args <- parse_arguments argv ;;
  log_level <- getattr args "log_level" ;;
  level <- getattr_logging log_level ;;
  _ <- setLevel level ;;
  function_name <- getattr args "function" ;;
  function <- import_function function_name ;;
  _ <- call function args ;;
  exit_if_error_handler_fired (error_handler diagnostics).

(** The console script runs [sys.exit(main())]. *)
Definition exit_status (o : Outcome unit) : Z :=
  match o with
  | returned _ => 0
  | raised (SystemExit code) => code
  | raised (Exception _) => 1
  end.

Definition run (argv : list Word) : Process * Outcome unit :=
  main argv initial_process.

End Command.



(** * Facts about the parser model *)

Module argparse_facts.
Import argparse.
Local Open Scope result_scope.

Lemma bind_ok {A B} (r : Result A) (k : A -> Result B) (b : B) :
  (x <- r ;; k x) = ok b -> exists a, r = ok a /\ k a = ok b.
Proof. destruct r; simpl; intros H; try discriminate. eauto. Qed.

(** *** The words handed to an action *)

Lemma is_dashes_true s : is_dashes s = true <-> s = "--".
Proof. unfold is_dashes. apply String.eqb_eq. Qed.

Lemma is_dashes_false s : is_dashes s = false <-> s <> "--".
Proof. unfold is_dashes. apply String.eqb_neq. Qed.

Lemma remove_dashes_plain l : ~ In "--" l -> remove_dashes l = l.
Proof.
  induction l as [|s r IH]; simpl; intros H; [reflexivity|].
  destruct (String.eqb s "--") eqn:He.
  - apply String.eqb_eq in He. subst s. exfalso. apply H. left. reflexivity.
  - rewrite IH; [reflexivity|]. intros Hin. apply H. right. exact Hin.
Qed.

(** The plain words at the head of a run are a prefix of it, and hold
    no [--]. *)
Lemma plain_words_spec run l lo :
  plain_words run = (l, lo) -> run = l ++ lo /\ ~ In "--" l.
Proof.
  revert l lo. induction run as [|s r IH]; simpl; intros l lo H.
  - injection H as <- <-. auto.
  - destruct (is_dashes s) eqn:Hs.
    + injection H as <- <-. auto.
    + destruct (plain_words r) as [l' lo'] eqn:Hr. injection H as <- <-.
      destruct (IH l' lo' eq_refl) as [-> Hno]. split; [reflexivity|].
      apply is_dashes_false in Hs. intros [H|H]; [congruence|auto].
Qed.

(** How the words that follow an option relate to its [nargs]: as many
    as the action takes, none of them [--]. *)
Definition fits (a : Action) (args : list string) : Prop :=
  ~ In "--" args /\
  match nargs a with
  | N_one => exists s, args = [s]
  | N_optional => args = [] \/ exists s, args = [s]
  | N_one_or_more => args <> []
  | N_zero => args = []
  end.

Lemma match_argument_ok a run args left :
  match_argument a run = ok (args, left) ->
  fits a args /\ run = args ++ left.
Proof.
  unfold match_argument, fits. intros H.
  destruct (plain_words run) as [l lo] eqn:Hp.
  apply plain_words_spec in Hp as [-> Hno].
  assert (Hhd : forall s r, ~ In "--" (s :: r) -> ~ In "--" [s]).
  { intros s r Hn [Hs|[]]. apply Hn. left. exact Hs. }
  destruct (nargs a).
  - destruct l as [|s r]; [discriminate|]. injection H as <- <-.
    split; [split; eauto|reflexivity].
  - destruct l as [|s r]; injection H as <- <-.
    + split; [split; auto|reflexivity].
    + split; [split; eauto|reflexivity].
  - destruct l as [|s r]; [discriminate|]. injection H as <- <-.
    split; [split; [exact Hno|discriminate]|reflexivity].
  - injection H as <- <-. split; [split; auto|reflexivity].
Qed.

(** The words [run] follow the option word [o], given without explicit
    argument, on the command line [ws]. *)
Definition follows (ws : list Word) (o : string) (run : list string) : Prop :=
  exists pre post, ws = pre ++ Opt o None :: map Arg run ++ post.

(** How an action of the parser [p] comes to be taken while the words
    [ws] are parsed: a positional with the words of a run that its
    pattern matches; an option with words that follow it; an option
    with the explicit argument of one of the words. *)
Inductive taken (p : ArgumentParser) (ws : list Word) (a : Action)
    (args : list string) : Prop :=
  | taken_positional (run : list string) (n : nat) :
      option_strings a = [] -> match_positional a run = Some n ->
      args = take n run -> taken p ws a args
  | taken_following (o : string) :
      follows ws o args -> lookup_option p o = Some a -> fits a args ->
      taken p ws a args
  | taken_explicit (o e : string) :
      In (Opt o (Some e)) ws -> lookup_option p o = Some a ->
      nargs a <> N_zero -> args = [e] -> taken p ws a args.

(** What a successful [take_action] did. *)
Lemma take_action_ok p a args st st' :
  take_action p a args st = ok st' ->
  exists v d n',
    get_values a args = ok (v, d) /\
    call_action a (ns st) v = ok n' /\
    ns st' = n' /\
    seen_actions st' = seen_actions st ++ [action_name a] /\
    positionals st' = positionals st /\
    extras st' = extras st /\
    (if d then seen_non_default_actions st' = seen_non_default_actions st
     else seen_non_default_actions st'
          = seen_non_default_actions st ++ [action_name a] /\
          forall c, In c (conflicts p a) ->
                    ~ In c (seen_non_default_actions st)).
Proof.
  unfold take_action. intros H.
  apply bind_ok in H as [[v d] [Hv H]].
  exists v, d. destruct d.
  - apply bind_ok in H as [n' [Hc H]]. injection H as <-.
    exists n'. simpl. auto 10.
  - destruct (List.find _ (conflicts p a)) eqn:Hf; [discriminate|].
    apply bind_ok in H as [n' [Hc H]]. injection H as <-.
    exists n'. simpl. repeat split; auto.
    intros c Hc' Hin.
    pose proof (find_none _ _ Hf c Hc') as Hn. simpl in Hn.
    apply not_true_iff_false in Hn. apply Hn.
    apply existsb_exists. exists c. split; [exact Hin|].
    apply String.eqb_refl.
Qed.

(** The help action never lets parsing go on. *)
Lemma take_action_help p a args st st' :
  kind a = help -> take_action p a args st <> ok st'.
Proof.
  intros Hk H. apply take_action_ok in H as (v & d & n' & _ & Hc & _).
  unfold call_action in Hc. rewrite Hk in Hc. discriminate.
Qed.

Lemma lookup_option_declared p o a :
  lookup_option p o = Some a -> In a (actions p).
Proof. unfold lookup_option. intros H. apply find_some in H. tauto. Qed.

Lemma lookup_option_strings p o a :
  lookup_option p o = Some a -> In o (option_strings a).
Proof.
  unfold lookup_option. intros H. apply find_some in H as [_ H].
  apply existsb_exists in H as (x & Hx & He).
  apply String.eqb_eq in He. subst x. exact Hx.
Qed.

(** The single-dash options that take no argument are help options:
    so it is in every parser of this program, whose only single-dash
    option is the [-h] that argparse adds. *)
Definition single_dash_helpb (p : ArgumentParser) : bool :=
  forallb (fun a =>
             forallb (fun o => negb (single_dash o)
                               || negb (bool_decide (nargs a = N_zero))
                               || bool_decide (kind a = help))
                     (option_strings a))
          (actions p).

Definition single_dash_help (p : ArgumentParser) : Prop :=
  forall o a, lookup_option p o = Some a -> single_dash o = true ->
              nargs a = N_zero -> kind a = help.

Lemma single_dash_helpb_spec p :
  single_dash_helpb p = true -> single_dash_help p.
Proof.
  unfold single_dash_helpb. rewrite forallb_forall.
  intros H o a Hl Hs Hn.
  specialize (H a (lookup_option_declared _ _ _ Hl)).
  rewrite forallb_forall in H.
  specialize (H o (lookup_option_strings _ _ _ Hl)).
  rewrite Hs in H. simpl in H.
  apply orb_prop in H as [H|H].
  - apply negb_true_iff, bool_decide_eq_false in H. contradiction.
  - apply bool_decide_eq_true in H. exact H.
Qed.

(** What [explicit_tuples] gives: the action with the explicit
    argument, when it takes one; and otherwise a list that starts with
    the action itself, a single-dash option that takes none. *)
Lemma explicit_tuples_ok p a o e run tuples left :
  explicit_tuples p a o e run = ok (tuples, left) ->
  (nargs a <> N_zero /\ tuples = [(a, [e])] /\ left = run) \/
  (nargs a = N_zero /\ single_dash o = true /\
   exists r, tuples = (a, []) :: r).
Proof.
  destruct e as [|c rest]; simpl.
  - destruct (nargs a); try discriminate;
      intros H; injection H as <- <-; left; repeat split; discriminate.
  - destruct (nargs a) eqn:Hn;
      try (intros H; injection H as <- <-; left; repeat split; discriminate).
    destruct (single_dash o) eqn:Hs; [|discriminate].
    destruct (lookup_option p _) as [a'|]; [|discriminate].
    intros H. right. split; [reflexivity|]. split; [reflexivity|].
    destruct rest as [|c' rest'].
    + apply bind_ok in H as [taken' [_ H]]. injection H as <- <-. eauto.
    + apply bind_ok in H as [more [_ H]]. injection H as <- <-. eauto.
Qed.

(** Option words and segments correspond. *)
Lemma segments_options ws o e :
  In (Opt o e) ws <->
  exists run, In (mkSegment o e run) (snd (segments ws)).
Proof.
  induction ws as [|[o' e'|s] r IH]; simpl.
  - split; [tauto|]. intros [? []].
  - destruct (segments r) as [run segs] eqn:Hr. simpl in *. split.
    + intros [H|H]; [injection H as -> ->; eauto|].
      apply IH in H as [run' H]. eauto.
    + intros [run' [H|H]]; [injection H as -> -> _; auto|].
      right. apply IH. eauto.
  - destruct (segments r) as [run segs] eqn:Hr. simpl in *.
    rewrite <- IH. split; [intros [H|H]; [discriminate|auto]|auto].
Qed.

(** The leading run of a command line is made of its first words. *)
Lemma segments_run ws :
  exists post, ws = map Arg (fst (segments ws)) ++ post.
Proof.
  induction ws as [|[o e|s] r IH]; simpl.
  - exists []. reflexivity.
  - destruct (segments r). simpl. eauto.
  - destruct IH as [post IH]. destruct (segments r) as [run segs].
    simpl in *. exists post. rewrite <- IH. reflexivity.
Qed.

(** The arguments of a segment are the words that follow its option
    word. *)
Lemma segments_words ws sg :
  In sg (snd (segments ws)) ->
  exists pre post,
    ws = pre ++ Opt (seg_option sg) (seg_explicit sg)
               :: map Arg (seg_args sg) ++ post.
Proof.
  induction ws as [|[o e|s] r IH]; simpl.
  - intros [].
  - destruct (segments_run r) as [post Hpost].
    destruct (segments r) as [run segs] eqn:Hr. simpl in *.
    intros [<-|Hin].
    + exists [], post. simpl. rewrite <- Hpost. reflexivity.
    + destruct (IH Hin) as (pre & post' & ->).
      exists (Opt o e :: pre), post'. reflexivity.
  - destruct (segments r) as [run segs] eqn:Hr. simpl in *.
    intros Hin. destruct (IH Hin) as (pre & post' & ->).
    exists (Arg s :: pre), post'. reflexivity.
Qed.

Lemma follows_prefix ws o args left :
  follows ws o (args ++ left) -> follows ws o args.
Proof.
  intros (pre & post & ->). exists pre, (map Arg left ++ post).
  rewrite map_app, <- app_assoc. reflexivity.
Qed.

Section Invariant.

Variable p : ArgumentParser.
Variable ws : list Word.
Variable I : Namespace -> list string -> list string -> Prop.

Hypothesis dash_help : single_dash_help p.

Definition holds (st : PState) : Prop :=
  I (ns st) (seen_actions st) (seen_non_default_actions st).

Definition positionals_declared (st : PState) : Prop :=
  forall a, In a (positionals st) -> In a (actions p) /\ option_strings a = [].

(** The segments of [ws]. *)
Definition of_words (sg : Segment) : Prop := In sg (snd (segments ws)).

Hypothesis step : forall a args st st',
  In a (actions p) -> taken p ws a args ->
  take_action p a args st = ok st' -> holds st -> holds st'.

Lemma take_action_positionals a args st st' :
  take_action p a args st = ok st' -> positionals st' = positionals st.
Proof.
  intros H. apply take_action_ok in H as (v & d & n' & _ & _ & _ & _ & H & _).
  exact H.
Qed.

Lemma consume_positionals_inv final run st st' :
  consume_positionals p final run st = ok st' ->
  holds st -> positionals_declared st ->
  holds st' /\ positionals_declared st'.
Proof.
  unfold consume_positionals. intros H Hh Hd.
  destruct (negb final && bool_decide (run = [])); [injection H as <-; auto|].
  destruct (positionals st) as [|a rest] eqn:Hp.
  { injection H as <-. split; [exact Hh|].
    intros b Hb. apply Hd. exact Hb. }
  destruct (match_positional a run) as [n|] eqn:Hm.
  2:{ injection H as <-. split; [exact Hh|].
      intros b Hb. apply Hd. exact Hb. }
  apply bind_ok in H as [st1 [H1 H]]. injection H as <-.
  destruct (Hd a) as [Ha Ho]; [rewrite Hp; left; reflexivity|].
  split.
  - eapply (step a (take n run)) in H1; [exact H1|exact Ha| |exact Hh].
    eapply taken_positional; eauto.
  - intros b Hb. apply Hd. rewrite Hp. right.
    apply take_action_positionals in H1. cbn in Hb, H1.
    rewrite H1 in Hb. exact Hb.
Qed.

(** The arguments [consume_optional] hands to the action. *)
Lemma consume_optional_ok final sg st st' :
  consume_optional p final sg st = ok st' ->
  match lookup_option p (seg_option sg) with
  | None =>
      consume_positionals p final (seg_args sg)
        (add_extras st [render (Opt (seg_option sg) (seg_explicit sg))]) = ok st'
  | Some a =>
      exists args left st1,
        match seg_explicit sg with
        | Some e => nargs a <> N_zero /\ args = [e] /\ left = seg_args sg
        | None => fits a args /\ seg_args sg = args ++ left
        end /\
        take_action p a args st = ok st1 /\
        consume_positionals p final left st1 = ok st'
  end.
Proof.
  unfold consume_optional.
  destruct (lookup_option p (seg_option sg)) as [a|] eqn:Hl; [|auto].
  intros H. apply bind_ok in H as [[tuples left] [Ht H]].
  apply bind_ok in H as [st1 [H1 H]]. cbn [fst snd] in *.
  destruct (seg_explicit sg) as [e|].
  - apply explicit_tuples_ok in Ht as [(Hn & -> & ->)|(Hn & Hs & r & ->)].
    + simpl in H1. apply bind_ok in H1 as [st2 [H1 H2]]. injection H2 as <-.
      exists [e], (seg_args sg), st2. auto.
    + exfalso. simpl in H1. apply bind_ok in H1 as [st2 [H1 _]].
      eapply take_action_help; [|exact H1]. eapply dash_help; eauto.
  - apply bind_ok in Ht as [[args left'] [Hm Ht]]. injection Ht as <- <-.
    apply match_argument_ok in Hm as [Hf Hrun].
    simpl in H1. apply bind_ok in H1 as [st2 [H1 H2]]. injection H2 as <-.
    exists args, left', st2. auto.
Qed.

Lemma consume_optional_taken final sg st st' a :
  consume_optional p final sg st = ok st' ->
  lookup_option p (seg_option sg) = Some a -> of_words sg ->
  exists args left st1,
    taken p ws a args /\
    take_action p a args st = ok st1 /\
    consume_positionals p final left st1 = ok st'.
Proof.
  intros H Hl Hw. apply consume_optional_ok in H. rewrite Hl in H.
  destruct H as (args & left & st1 & Hs & H1 & H2).
  exists args, left, st1. split; [|auto].
  destruct (segments_words ws sg Hw) as (pre & post & Hws).
  destruct (seg_explicit sg) as [e|] eqn:He.
  - destruct Hs as (Hn & -> & _). eapply taken_explicit; eauto.
    rewrite Hws. apply in_or_app. right. left. reflexivity.
  - destruct Hs as [Hf Hrun]. eapply taken_following; [|exact Hl|exact Hf].
    apply (follows_prefix ws _ args left). rewrite <- Hrun.
    exists pre, post. exact Hws.
Qed.

Lemma consume_optional_inv final sg st st' :
  consume_optional p final sg st = ok st' -> of_words sg ->
  holds st -> positionals_declared st ->
  holds st' /\ positionals_declared st'.
Proof.
  intros H Hw Hh Hd.
  destruct (lookup_option p (seg_option sg)) as [a|] eqn:Hl.
  - destruct (consume_optional_taken _ _ _ _ _ H Hl Hw)
      as (args & left & st1 & Hf & H1 & H2).
    eapply consume_positionals_inv; [exact H2| |].
    + eapply step; eauto using lookup_option_declared.
    + intros b Hb. apply Hd.
      rewrite <- (take_action_positionals _ _ _ _ H1). exact Hb.
  - apply consume_optional_ok in H. rewrite Hl in H.
    eapply consume_positionals_inv; [exact H|exact Hh|exact Hd].
Qed.

Lemma consume_all_inv segs : forall st st',
  consume_all p segs st = ok st' ->
  (forall sg, In sg segs -> of_words sg) ->
  holds st -> positionals_declared st ->
  holds st' /\ positionals_declared st'.
Proof.
  induction segs as [|sg r IH]; simpl; intros st st' H Hw Hh Hd.
  - injection H as <-. auto.
  - apply bind_ok in H as [st1 [H1 H]].
    destruct (consume_optional_inv _ _ _ _ H1 (Hw sg (or_introl eq_refl)) Hh Hd)
      as [Hh1 Hd1].
    eauto.
Qed.

Lemma initial_state_declared : positionals_declared (initial_state p).
Proof.
  intros a Ha. simpl in Ha. apply filter_In in Ha as [Ha Ho].
  apply bool_decide_eq_true in Ho. auto.
Qed.

End Invariant.

Lemma parse_words_inv p ws (I : Namespace -> list string -> list string -> Prop) st :
  single_dash_help p ->
  (forall a args st st',
     In a (actions p) -> taken p ws a args ->
     take_action p a args st = ok st' -> holds I st -> holds I st') ->
  parse_words p ws = ok st -> holds I (initial_state p) -> holds I st.
Proof.
  intros Hdash step. unfold parse_words.
  destruct (segments ws) as [run segs] eqn:Hseg.
  intros H Hh. apply bind_ok in H as [st1 [H1 H]].
  destruct (consume_positionals_inv p ws I step _ _ _ _ H1 Hh
              (initial_state_declared p)) as [Hh1 Hd1].
  eapply (consume_all_inv p ws I Hdash step); eauto.
  intros sg Hin. unfold of_words. rewrite Hseg. exact Hin.
Qed.

(** An action writes to its own [dest] only. *)
Lemma call_action_other a n v n' k :
  call_action a n v = ok n' -> dest a <> Some k -> n' !! k = n !! k.
Proof.
  unfold call_action. intros H Hk.
  destruct (kind a), (dest a) as [d|]; try discriminate;
    injection H as <-; try reflexivity;
    apply lookup_insert_ne; congruence.
Qed.

Lemma take_action_other p a args st st' k :
  take_action p a args st = ok st' -> dest a <> Some k ->
  ns st' !! k = ns st !! k.
Proof.
  intros H Hk.
  apply take_action_ok in H as (v & d & n' & _ & Hc & <- & _).
  eapply call_action_other; eauto.
Qed.

(** [finish] keeps what was seen, and leaves alone every attribute that
    no [Path]-typed action writes to. *)
Lemma finish_seen p st st' :
  finish p st = ok st' ->
  seen_actions st' = seen_actions st /\
  seen_non_default_actions st' = seen_non_default_actions st /\
  extras st' = extras st.
Proof.
  unfold finish. destruct (map action_name _); [|discriminate].
  intros H. injection H as <-. auto.
Qed.

Lemma finish_lookup p st st' k :
  finish p st = ok st' ->
  (forall a, In a (actions p) -> dest a = Some k -> type_ a <> T_Path) ->
  ns st' !! k = ns st !! k.
Proof.
  unfold finish. destruct (map action_name _); [|discriminate].
  intros H Hk. injection H as <-. simpl.
  set (unseen := List.filter _ (actions p)).
  assert (Hu : forall a, In a unseen -> In a (actions p)).
  { intros a Ha. apply filter_In in Ha. tauto. }
  clearbody unseen. revert Hu. generalize (ns st) as n.
  induction unseen as [|a r IH]; simpl; intros n Hu; [reflexivity|].
  rewrite IH by auto. clear IH.
  destruct (dest a) as [d|] eqn:Hd; [|reflexivity].
  destruct (default a) as [[| |s| |]|]; try reflexivity.
  destruct (required a); [reflexivity|].
  case_bool_decide as Hn; [|reflexivity].
  destruct (decide (d = k)) as [->|Hne].
  - rewrite lookup_insert_eq, Hn. unfold get_value.
    destruct (type_ a) eqn:Ht; try reflexivity.
    exfalso. eapply Hk; eauto.
  - apply lookup_insert_ne. exact Hne.
Qed.

Lemma parse_known_args_ok p ws n ex :
  parse_known_args p ws = ok (n, ex) ->
  exists st st', classify p ws = ok tt /\
                 parse_words p ws = ok st /\ finish p st = ok st' /\
                 n = ns st' /\ ex = extras st'.
Proof.
  unfold parse_known_args. intros H.
  apply bind_ok in H as [[] [H0 H]].
  apply bind_ok in H as [st [H1 H]]. apply bind_ok in H as [st' [H2 H]].
  injection H as <- <-. exists st, st'. auto.
Qed.

(** *** Which actions end up in [seen_actions] *)

(** [from_positional st x]: [x] names a positional still pending in
    [st]. *)
Definition from_positional (st : PState) (x : string) : Prop :=
  exists a, In a (positionals st) /\ x = action_name a.

Lemma consume_positionals_seen p final run st st' :
  consume_positionals p final run st = ok st' ->
  exists l, seen_actions st' = seen_actions st ++ l /\
            (forall x, In x l -> from_positional st x) /\
            (forall a, In a (positionals st') -> In a (positionals st)).
Proof.
  unfold consume_positionals. intros H.
  assert (Hnone : forall l0, exists l,
             seen_actions (add_extras st l0) = seen_actions st ++ l /\
             (forall x, In x l -> from_positional st x) /\
             (forall a, In a (positionals (add_extras st l0)) ->
                        In a (positionals st))).
  { intros l0. exists []. simpl. rewrite app_nil_r. firstorder. }
  destruct (negb final && bool_decide (run = [])).
  { injection H as <-. exists []. rewrite app_nil_r. firstorder. }
  destruct (positionals st) as [|a rest] eqn:Hp.
  { injection H as <-. apply Hnone. }
  destruct (match_positional a run) as [n|].
  2:{ injection H as <-. apply Hnone. }
  apply bind_ok in H as [st1 [H1 H]]. injection H as <-.
  apply take_action_ok in H1 as (v & d & n' & _ & _ & _ & Hs & Hq & _).
  simpl in *. exists [action_name a]. rewrite Hs, Hq. repeat split.
  - intros x [<-|[]]. exists a. rewrite Hp. simpl. auto.
  - intros b Hb. right. exact Hb.
Qed.

Section Seen.

Variable p : ArgumentParser.
Hypothesis dash_help : single_dash_help p.

Lemma consume_optional_seen final sg st st' :
  consume_optional p final sg st = ok st' ->
  exists l, seen_actions st' = seen_actions st ++ l /\
            (forall a, lookup_option p (seg_option sg) = Some a ->
                       In (action_name a) l) /\
            (forall x, In x l ->
                       (exists a, lookup_option p (seg_option sg) = Some a /\
                                  x = action_name a)
                       \/ from_positional st x) /\
            (forall a, In a (positionals st') -> In a (positionals st)).
Proof.
  intros H. apply (consume_optional_ok p dash_help) in H.
  destruct (lookup_option p (seg_option sg)) as [a|] eqn:Hl.
  - destruct H as (args & left & st1 & _ & H1 & H2).
    apply take_action_ok in H1 as (v & d & n' & _ & _ & _ & Hs & Hq & _).
    apply consume_positionals_seen in H2 as (l & Hs2 & Hl2 & Hq2).
    exists (action_name a :: l). rewrite Hs2, Hs, <- app_assoc. simpl.
    repeat split.
    + intros b Hb. injection Hb as <-. left. reflexivity.
    + intros x [<-|Hx]; [left; eauto|].
      right. destruct (Hl2 x Hx) as (b & Hb & ->). exists b.
      rewrite <- Hq. auto.
    + intros b Hb. rewrite <- Hq. auto.
  - apply consume_positionals_seen in H as (l & Hs & Hl2 & Hq).
    exists l. simpl in *. repeat split; auto; [discriminate|].
    intros x Hx. right. exact (Hl2 x Hx).
Qed.

Lemma consume_all_seen segs : forall st st',
  consume_all p segs st = ok st' ->
  exists l, seen_actions st' = seen_actions st ++ l /\
            (forall sg a, In sg segs ->
                          lookup_option p (seg_option sg) = Some a ->
                          In (action_name a) l) /\
            (forall x, In x l ->
                       (exists sg a, In sg segs /\
                                     lookup_option p (seg_option sg) = Some a /\
                                     x = action_name a)
                       \/ from_positional st x).
Proof.
  induction segs as [|sg r IH]; simpl; intros st st' H.
  - injection H as <-. exists []. rewrite app_nil_r. firstorder.
  - apply bind_ok in H as [st1 [H1 H]].
    apply consume_optional_seen in H1 as (l1 & Hs1 & Ha1 & Hx1 & Hq1).
    apply IH in H as (l2 & Hs2 & Ha2 & Hx2).
    exists (l1 ++ l2). rewrite Hs2, Hs1, <- app_assoc.
    repeat split.
    + intros sg' a [<-|Hin] Hl; apply in_or_app; eauto.
    + intros x Hx. apply in_app_or in Hx as [Hx|Hx].
      * destruct (Hx1 x Hx) as [(a & Hl & ->)|Hp]; eauto 8.
      * destruct (Hx2 x Hx) as [(sg' & a & Hin & Hl & ->)|(b & Hb & ->)];
          [eauto 8|].
        right. exists b. auto.
Qed.

Lemma parse_words_seen ws st :
  parse_words p ws = ok st ->
  (forall o e a, In (Opt o e) ws -> lookup_option p o = Some a ->
                 In (action_name a) (seen_actions st)) /\
  (forall x, In x (seen_actions st) ->
             (exists o e a, In (Opt o e) ws /\ lookup_option p o = Some a /\
                            x = action_name a)
             \/ from_positional (initial_state p) x).
Proof.
  unfold parse_words. destruct (segments ws) as [run segs] eqn:Hseg.
  intros H. apply bind_ok in H as [st1 [H1 H]].
  apply consume_positionals_seen in H1 as (l1 & Hs1 & Hx1 & Hq1).
  apply consume_all_seen in H as (l2 & Hs2 & Ha2 & Hx2).
  rewrite Hs2, Hs1. simpl. split.
  - intros o e a Hin Hl. apply segments_options in Hin as [run' Hin].
    rewrite Hseg in Hin. simpl in Hin.
    apply in_or_app. right. eapply (Ha2 _ a Hin). exact Hl.
  - intros x Hx. apply in_app_or in Hx as [Hx|Hx]; [auto|].
    destruct (Hx2 x Hx) as [(sg & a & Hin & Hl & ->)|(b & Hb & ->)].
    + left. exists (seg_option sg), (seg_explicit sg), a.
      repeat split; auto. apply segments_options. exists (seg_args sg).
      rewrite Hseg. simpl. destruct sg; exact Hin.
    + right. exists b. auto.
Qed.

(** An attribute that no action writes to keeps the value it had
    before the first word. *)
Lemma parse_words_untouched k ws st :
  (forall a, In a (actions p) -> dest a <> Some k) ->
  parse_words p ws = ok st ->
  ns st !! k = initial_namespace p !! k.
Proof.
  intros Hk H.
  apply (parse_words_inv p ws (fun n _ _ => n !! k = initial_namespace p !! k))
    in H; [exact H|exact dash_help| |reflexivity].
  unfold holds. intros a args st0 st1 Ha _ Ht Hh.
  rewrite <- Hh. eapply take_action_other; eauto.
Qed.

End Seen.

Lemma check_value_choices a s c :
  choices a = Some c -> check_value a s = ok tt -> In s c.
Proof.
  unfold check_value. intros ->.
  destruct (existsb (String.eqb s) c) eqn:He; [|discriminate].
  intros _. apply existsb_exists in He as (x & Hx & He).
  apply String.eqb_eq in He. subst x. exact Hx.
Qed.

(** *** Every segment of a parsed command line was consumed *)

Lemma consume_all_each p segs : forall st st',
  consume_all p segs st = ok st' ->
  forall sg, In sg segs ->
  exists final st1 st2, consume_optional p final sg st1 = ok st2.
Proof.
  induction segs as [|sg0 r IH]; simpl; intros st st' H sg Hin; [destruct Hin|].
  apply bind_ok in H as [st1 [H1 H]].
  destruct Hin as [<-|Hin]; eauto.
Qed.

Lemma parse_words_each p ws st :
  parse_words p ws = ok st ->
  forall sg, In sg (snd (segments ws)) ->
  exists final st1 st2, consume_optional p final sg st1 = ok st2.
Proof.
  unfold parse_words. destruct (segments ws) as [run segs].
  intros H. apply bind_ok in H as [st1 [_ H]].
  simpl. eapply consume_all_each; eauto.
Qed.




(** *** Parsing a command line up to one of its option words *)

Lemma segments_app_option pre o e post :
  segments (pre ++ Opt o e :: post)
  = (fst (segments pre),
     snd (segments pre)
     ++ mkSegment o e (fst (segments post)) :: snd (segments post)).
Proof.
  induction pre as [|[o' e'|s'] r IH]; simpl.
  - destruct (segments post). reflexivity.
  - rewrite IH. destruct (segments r). reflexivity.
  - rewrite IH. destruct (segments r). reflexivity.
Qed.


(** In a parser whose positionals all need a word, nothing happens
    when no word is left: what is done after the last option is what
    is done between two options. *)
Section Final.

Variable p : ArgumentParser.

Hypothesis positionals_need_words : forall a,
  In a (actions p) -> option_strings a = [] ->
  nargs a = N_one \/ nargs a = N_one_or_more.





End Final.

(** *** Where a version exit can come from *)

Lemma bind_exit_version {A B} (r : Result A) (k : A -> Result B) v :
  (x <- r ;; k x) = exit_version v ->
  r = exit_version v \/ exists a, r = ok a /\ k a = exit_version v.
Proof.
  destruct r; simpl; intros H; try discriminate.
  - right. exists a. auto.
  - left. injection H as ->. reflexivity.
Qed.








Section No_version.

Variable p : ArgumentParser.
Hypothesis no_version : forall a v, In a (actions p) -> kind a <> version v.








Lemma parse_optional_not_version w v : parse_optional p w <> exit_version v.
Proof.
  unfold parse_optional. destruct w as [o e|s]; [|discriminate].
  destruct (lookup_option p o); [discriminate|].
  destruct (option_tuples p _) as [|x [|y l]]; discriminate.
Qed.

Lemma classify_not_version ws v : classify p ws <> exit_version v.
Proof.
  induction ws as [|w r IH]; simpl; [discriminate|].
  destruct (is_separator w); [discriminate|].
  intros H. apply bind_exit_version in H as [H|(x & _ & H)]; [|auto].
  eapply parse_optional_not_version; eauto.
Qed.


End No_version.


(** Reading a parse result without naming the namespace: whether it is
    a namespace, and what it holds under a key. *)
Definition is_ok {A} (r : Result A) : bool :=
  match r with
  | ok _ => true
  | _ => false
  end.

Definition field (r : Result Namespace) (k : string) : option Value :=
  match r with
  | ok a => a !! k
  | _ => None
  end.

Lemma is_ok_ex {A} (r : Result A) : is_ok r = true -> exists a, r = ok a.
Proof. destruct r; try discriminate. eauto. Qed.

Lemma is_ok_fields (r : Result Namespace) :
  is_ok r = true -> exists a, r = ok a /\ forall k, a !! k = field r k.
Proof. destruct r; try discriminate. intros _. eexists. split; reflexivity. Qed.

End argparse_facts.

(** * What single options store *)

Module option_facts.
Import argparse argparse_facts.
Local Open Scope result_scope.

(** [finish] succeeds only when every required action has been seen. *)
Lemma finish_required p st st' a :
  finish p st = ok st' -> In a (actions p) -> required a = true ->
  In (action_name a) (seen_actions st).
Proof.
  unfold finish.
  destruct (map action_name _) as [|m ms] eqn:Hm; [|discriminate].
  intros _ Ha Hr.
  destruct (existsb (String.eqb (action_name a)) (seen_actions st)) eqn:He.
  - apply existsb_exists in He as (x & Hx & He).
    apply String.eqb_eq in He. rewrite He. exact Hx.
  - exfalso.
    assert (Hin : In (action_name a) []).
    { rewrite <- Hm. apply in_map. apply filter_In. split; [|exact Hr].
      apply filter_In. split; [exact Ha|]. rewrite He. reflexivity. }
    destruct Hin.
Qed.

(** [finish] rewrites an attribute only through an unseen action that is
    not required, has a string default and the type [Path]. *)
Lemma finish_keeps p st st' k :
  finish p st = ok st' ->
  (forall a, In a (actions p) -> dest a = Some k ->
     type_ a <> T_Path \/ required a = true \/
     forall s, default a <> Some (VStr s)) ->
  ns st' !! k = ns st !! k.
Proof.
  unfold finish. destruct (map action_name _); [|discriminate].
  intros H Hk. injection H as <-. simpl.
  set (unseen := List.filter _ (actions p)).
  assert (Hu : forall a, In a unseen -> In a (actions p)).
  { intros a Ha. apply filter_In in Ha. tauto. }
  clearbody unseen. revert Hu. generalize (ns st) as n.
  induction unseen as [|a r IH]; simpl; intros n Hu; [reflexivity|].
  rewrite IH by auto. clear IH.
  destruct (dest a) as [d|] eqn:Hd; [|reflexivity].
  destruct (default a) as [[| |s| |]|] eqn:Hdf; try reflexivity.
  destruct (required a) eqn:Hreq; [reflexivity|].
  case_bool_decide as Hn; [|reflexivity].
  destruct (decide (d = k)) as [->|Hne].
  - rewrite lookup_insert_eq, Hn. unfold get_value.
    destruct (type_ a) eqn:Ht; try reflexivity.
    exfalso. destruct (Hk a) as [H|[H|H]]; auto; try congruence.
  - apply lookup_insert_ne. exact Hne.
Qed.

(** *** The value handed to an action *)

Lemma check_values_nil a : check_values a [] = ok tt.
Proof. reflexivity. Qed.

(** One plain word, to an action that takes one. *)
Lemma get_values_word a s v d :
  nargs a = N_one \/ nargs a = N_optional -> s <> "--" ->
  get_values a [s] = ok (v, d) ->
  v = get_value a s /\ d = false /\ forall c, choices a = Some c -> In s c.
Proof.
  intros Hn Hs. unfold get_values. cbn [remove_dashes].
  apply String.eqb_neq in Hs. rewrite Hs.
  intros H.
  assert (H' : (_ <- check_value a s ;; ok (get_value a s, false)) = ok (v, d))
    by (destruct Hn as [Hn|Hn]; rewrite Hn in H; exact H).
  apply bind_ok in H' as [[] [Hc H']]. injection H' as <- <-.
  repeat split. intros c Hch. eapply check_value_choices; eauto.
Qed.

(** The word [--] alone, to an action that takes one or more: the empty
    list. *)
Lemma get_values_dashes a v d :
  nargs a = N_one \/ nargs a = N_one_or_more ->
  get_values a ["--"] = ok (v, d) -> v = VList [] /\ d = false.
Proof.
  intros Hn. unfold get_values. cbn [remove_dashes String.eqb Ascii.eqb].
  change (String.eqb "--" "--") with true. cbv iota.
  destruct Hn as [Hn|Hn]; rewrite Hn; cbn; intros H; injection H as <- <-; auto.
Qed.

(** Words to an action that takes one or more: the list of what is left
    once the first [--] is dropped. *)
Lemma get_values_list a args v d :
  nargs a = N_one_or_more ->
  get_values a args = ok (v, d) ->
  v = VList (map (get_value a) (remove_dashes args)) /\ d = false.
Proof.
  intros Hn. unfold get_values. rewrite Hn.
  destruct (remove_dashes args) as [|s [|s' r]]; intros H;
    apply bind_ok in H as [[] [_ H]]; injection H as <- <-; auto.
Qed.

(** Only an absent ['?'] argument yields the action's default object. *)
Lemma get_values_default a args v :
  get_values a args = ok (v, true) -> nargs a = N_optional.
Proof.
  unfold get_values. intros H.
  destruct (remove_dashes args) as [|s [|s' r]], (nargs a);
    try (apply bind_ok in H as [[] [_ H]]; discriminate);
    try discriminate; auto.
Qed.

Definition single_writerb (p : ArgumentParser) (a0 : Action) (k o0 : string)
  : bool :=
  forallb (fun a => bool_decide (a = a0)
                    || (bool_decide (dest a <> Some k)
                        && bool_decide (action_name a <> o0)))
          (actions p).

Lemma single_writerb_spec p a0 k o0 :
  single_writerb p a0 k o0 = true ->
  forall a, In a (actions p) ->
            a = a0 \/ (dest a <> Some k /\ action_name a <> o0).
Proof.
  unfold single_writerb. rewrite forallb_forall. intros H a Ha.
  apply H in Ha. apply orb_prop in Ha as [Ha|Ha].
  - left. apply bool_decide_eq_true in Ha. exact Ha.
  - right. apply andb_prop in Ha as [Ha1 Ha2].
    apply bool_decide_eq_true in Ha1, Ha2. auto.
Qed.

(** The option [o] is given the word [s] on the command line [ws]:
    attached to it, or as the word after it. *)
Definition supplies (ws : list Word) (o s : string) : Prop :=
  In (Opt o (Some s)) ws \/
  exists pre post, ws = pre ++ Opt o None :: Arg s :: post.

Lemma follows_supplies ws o s : follows ws o [s] -> supplies ws o s.
Proof. intros (pre & post & ->). right. exists pre, post. reflexivity. Qed.

(** The option string that led to an action with one option string. *)
Lemma lookup_option_single p o a o0 :
  lookup_option p o = Some a -> option_strings a = [o0] -> o = o0.
Proof.
  intros Hl Ho. apply lookup_option_strings in Hl. rewrite Ho in Hl.
  destruct Hl as [<-|[]]. reflexivity.
Qed.

(** What the action [a0] stores when it is taken while the words [ws]
    are parsed. *)
Definition written (p : ArgumentParser) (a0 : Action) (ws : list Word)
    (x : Value) : Prop :=
  exists args v d,
    taken p ws a0 args /\ get_values a0 args = ok (v, d) /\
    x = match kind a0 with
        | store_const => const a0
        | _ => v
        end.

(** In a parser [p] where a single action [a0], the option [o0] of kind
    [store] or [store_const], writes the attribute [k]: the attribute
    holds the parser's initial value [d0] when [o0] is not on the
    command line, and otherwise a value the action produced. *)
Section Single_option.

Variable p : ArgumentParser.
Variable a0 : Action.
Variable k o0 : string.
Variable d0 : Value.

Hypothesis dash_help : single_dash_help p.
Hypothesis a0_lookup : lookup_option p o0 = Some a0.
Hypothesis a0_dest : dest a0 = Some k.
Hypothesis a0_option : option_strings a0 = [o0].
Hypothesis a0_kind : kind a0 = store \/ kind a0 = store_const.
Hypothesis a0_finish :
  type_ a0 <> T_Path \/ required a0 = true \/
  forall s, default a0 <> Some (VStr s).
Hypothesis single_writer : forall a, In a (actions p) ->
  a = a0 \/ (dest a <> Some k /\ action_name a <> o0).
Hypothesis initially : initial_namespace p !! k = Some d0.

Variable ws : list Word.

Definition single_option_inv (n : Namespace) (seen : list string)
    (_ : list string) : Prop :=
  (In o0 seen -> exists x, n !! k = Some x /\ written p a0 ws x) /\
  (~ In o0 seen -> n !! k = Some d0).

Lemma single_option_name : action_name a0 = o0.
Proof. unfold action_name. rewrite a0_option. reflexivity. Qed.

Lemma single_option_step a args st st' :
  In a (actions p) -> taken p ws a args ->
  take_action p a args st = ok st' ->
  holds single_option_inv st -> holds single_option_inv st'.
Proof.
  unfold holds, single_option_inv. intros Ha Hf Ht [Hin Hout].
  destruct (single_writer a Ha) as [->|[Hd Hn]].
  - apply take_action_ok in Ht as (v & d & n' & Hv & Hc & <- & Hs & _).
    rewrite Hs, single_option_name. split.
    + intros _. unfold call_action in Hc. rewrite a0_dest in Hc.
      destruct a0_kind as [Hk|Hk]; rewrite Hk in Hc; injection Hc as <-;
        rewrite lookup_insert_eq; eexists; (split; [reflexivity|]);
        exists args, v, d; rewrite Hk; auto.
    + intros Hnot. exfalso. apply Hnot. apply in_or_app. right. left.
      reflexivity.
  - rewrite (take_action_other _ _ _ _ _ k Ht Hd).
    apply take_action_ok in Ht as (v & d & n' & _ & _ & _ & Hs & _).
    rewrite Hs. split.
    + intros Hseen. apply Hin. apply in_app_or in Hseen as [H|[H|[]]];
        [exact H|contradiction].
    + intros Hnot. apply Hout. intros H. apply Hnot. apply in_or_app.
      left. exact H.
Qed.

Lemma single_option_seen st :
  parse_words p ws = ok st ->
  (In o0 (seen_actions st) <-> exists e, In (Opt o0 e) ws).
Proof.
  intros Hw. pose proof (parse_words_seen _ dash_help _ _ Hw) as [Hto Hfrom].
  split.
  - intros Hseen.
    destruct (Hfrom _ Hseen) as [(o & e & a & Hin & Hl & Hname)|(a & Ha & Hname)].
    + assert (Ha : In a (actions p)) by (eapply lookup_option_declared; eauto).
      destruct (single_writer a Ha) as [->|[_ Hn]]; [|congruence].
      apply lookup_option_strings in Hl. rewrite a0_option in Hl.
      destruct Hl as [<-|[]]. eauto.
    + unfold initial_state in Ha. cbn [positionals] in Ha.
      apply filter_In in Ha as [Ha Hpos].
      destruct (single_writer a Ha) as [->|[_ Hn]]; [|congruence].
      rewrite a0_option in Hpos. discriminate.
  - intros [e Hin]. rewrite <- single_option_name.
    eapply Hto; eauto.
Qed.

Lemma single_option_parsed st st' :
  parse_words p ws = ok st -> finish p st = ok st' ->
  ((exists e, In (Opt o0 e) ws) ->
   exists x, ns st' !! k = Some x /\ written p a0 ws x) /\
  ((forall e, ~ In (Opt o0 e) ws) -> ns st' !! k = Some d0) /\
  (required a0 = true -> exists e, In (Opt o0 e) ws).
Proof.
  intros Hw Hf.
  assert (Hfin : ns st' !! k = ns st !! k).
  { eapply finish_keeps; [exact Hf|]. intros a Ha Hd.
    destruct (single_writer a Ha) as [->|[Hd' _]]; [exact a0_finish|].
    contradiction. }
  pose proof (parse_words_inv p ws single_option_inv st dash_help
                single_option_step Hw) as Hi.
  destruct Hi as [Hin Hout].
  { split; [intros []|intros _; exact initially]. }
  pose proof (single_option_seen st Hw) as Hseen.
  rewrite Hfin. split; [|split].
  - intros He. apply Hin. apply Hseen. exact He.
  - intros Hno. apply Hout. intros H. apply Hseen in H as [e H].
    exact (Hno e H).
  - intros Hreq. apply Hseen. rewrite <- single_option_name.
    eapply finish_required; eauto using lookup_option_declared.
Qed.

End Single_option.

(** A mutually exclusive group [g] of a parser [p] whose actions have
    distinct names and whose members never take the ['?'] form: at most
    one member of the group is given on a command line that parses. *)
Section Mutex.

Variable p : ArgumentParser.
Variable g : nat.

Definition member (a : Action) : Prop :=
  In a (actions p) /\ mutex_group a = Some g.

Hypothesis dash_help : single_dash_help p.
Hypothesis member_nargs : forall a, member a -> nargs a <> N_optional.
Hypothesis names_distinct : forall a b,
  In a (actions p) -> In b (actions p) ->
  action_name a = action_name b -> a = b.

Definition mutex_inv (_ : Namespace) (seen given : list string) : Prop :=
  (forall a, member a -> In (action_name a) seen -> In (action_name a) given) /\
  (forall a b, member a -> member b ->
     In (action_name a) given -> In (action_name b) given -> a = b).

Lemma conflicts_member a b :
  member a -> member b -> a <> b -> In (action_name b) (conflicts p a).
Proof.
  intros [Ha Hga] [Hb Hgb] Hne. unfold conflicts. rewrite Hga.
  apply in_map. apply filter_In. split; [exact Hb|].
  apply andb_true_intro. split.
  - apply bool_decide_eq_true. exact Hgb.
  - apply negb_true_iff. apply String.eqb_neq. intros Hn.
    apply Hne. symmetry. apply names_distinct; auto.
Qed.

Lemma mutex_step ws a args st st' :
  In a (actions p) -> taken p ws a args ->
  take_action p a args st = ok st' ->
  holds mutex_inv st -> holds mutex_inv st'.
Proof.
  unfold holds, mutex_inv. intros Ha Hf Ht [Hseen Hone].
  apply take_action_ok in Ht as (v & d & n' & Hv & _ & _ & Hs & _ & _ & Hg).
  rewrite Hs. destruct d.
  - apply get_values_default in Hv.
    rewrite Hg. split; [|exact Hone].
    intros b Hb Hin. apply in_app_or in Hin as [Hin|[Hin|[]]]; [auto|].
    exfalso. assert (a = b) by (apply names_distinct; auto; apply Hb).
    subst b. exact (member_nargs a Hb Hv).
  - destruct Hg as [Hg Hfree]. rewrite Hg. split.
    + intros b Hb Hin. apply in_or_app.
      apply in_app_or in Hin as [Hin|Hin]; [left; auto|right; exact Hin].
    + assert (Hnew : forall b c, member b -> member c ->
                 action_name a = action_name b ->
                 In (action_name c) (seen_non_default_actions st) -> b = c).
      { intros b c Hb Hc Hab Hin.
        assert (a = b) by (apply names_distinct; auto; apply Hb). subst b.
        destruct (decide (a = c)) as [Heq|Hne]; [exact Heq|]. exfalso.
        exact (Hfree _ (conflicts_member a c Hb Hc Hne) Hin). }
      intros b c Hb Hc Hinb Hinc.
      apply in_app_or in Hinb as [Hinb|[Hinb|[]]];
        apply in_app_or in Hinc as [Hinc|[Hinc|[]]].
      * auto.
      * symmetry. eapply Hnew; eauto.
      * eapply Hnew; eauto.
      * transitivity a; [symmetry|]; apply names_distinct; auto;
          try apply Hb; try apply Hc.
Qed.

Lemma mutex_parsed ws st o1 e1 o2 e2 a1 a2 :
  parse_words p ws = ok st ->
  In (Opt o1 e1) ws -> In (Opt o2 e2) ws ->
  lookup_option p o1 = Some a1 -> lookup_option p o2 = Some a2 ->
  mutex_group a1 = Some g -> mutex_group a2 = Some g ->
  a1 = a2.
Proof.
  intros Hw H1 H2 Hl1 Hl2 Hg1 Hg2.
  pose proof (parse_words_inv p ws mutex_inv st dash_help (mutex_step ws) Hw)
    as Hi.
  destruct Hi as [Hseen Hone].
  { split; [intros a _ []|intros a b _ _ []]. }
  pose proof (parse_words_seen _ dash_help _ _ Hw) as [Hto _].
  assert (Hm1 : member a1)
    by (split; [eapply lookup_option_declared; eauto|exact Hg1]).
  assert (Hm2 : member a2)
    by (split; [eapply lookup_option_declared; eauto|exact Hg2]).
  apply Hone; auto; apply Hseen; eauto.
Qed.

End Mutex.

Definition names_distinctb (p : ArgumentParser) : bool :=
  forallb (fun a =>
             forallb (fun b => negb (String.eqb (action_name a) (action_name b))
                               || bool_decide (a = b))
                     (actions p))
          (actions p).

Lemma names_distinctb_spec p :
  names_distinctb p = true ->
  forall a b, In a (actions p) -> In b (actions p) ->
              action_name a = action_name b -> a = b.
Proof.
  unfold names_distinctb. rewrite forallb_forall. intros H a b Ha Hb Hn.
  specialize (H a Ha). rewrite forallb_forall in H. specialize (H b Hb).
  apply orb_prop in H as [H|H].
  - apply negb_true_iff, String.eqb_neq in H. contradiction.
  - apply bool_decide_eq_true in H. exact H.
Qed.

(** What is left of the words a ['+'] positional matches, once the
    first [--] is dropped, is not empty. *)
Lemma remove_dashes_length l :
  (length l <= S (length (remove_dashes l)))%nat.
Proof.
  induction l as [|s r IH]; simpl; [lia|].
  destruct (String.eqb s "--"); simpl; lia.
Qed.

Lemma match_positional_list a run n :
  nargs a = N_one_or_more -> match_positional a run = Some n ->
  remove_dashes (take n run) <> [].
Proof.
  unfold match_positional. intros ->.
  destruct run as [|s [|s' r]]; [discriminate| |].
  - destruct (is_dashes s) eqn:Hs; [discriminate|].
    intros H. injection H as <-. simpl.
    unfold is_dashes in Hs. rewrite Hs. discriminate.
  - intros H. injection H as <-. rewrite take_ge by (simpl; lia).
    pose proof (remove_dashes_length (s :: s' :: r)) as Hl.
    intros E. rewrite E in Hl. simpl in Hl. lia.
Qed.

(** In a parser [p] whose positional [a0], declared with [nargs='+'],
    alone writes the attribute [k]: once [a0] has been seen, [k] holds a
    list that is not empty. *)
Section Positional_list.

Variable p : ArgumentParser.
Variable a0 : Action.
Variable k : string.

Hypothesis dash_help : single_dash_help p.
Hypothesis a0_dest : dest a0 = Some k.
Hypothesis a0_positional : option_strings a0 = [].
Hypothesis a0_kind : kind a0 = store.
Hypothesis a0_nargs : nargs a0 = N_one_or_more.
Hypothesis a0_required : required a0 = true.
Hypothesis a0_declared : In a0 (actions p).
Hypothesis single_writer : forall a, In a (actions p) ->
  a = a0 \/ (dest a <> Some k /\ action_name a <> k).

Definition positional_list_inv (n : Namespace) (seen : list string)
    (_ : list string) : Prop :=
  In k seen -> exists l, l <> [] /\ n !! k = Some (VList l).

Lemma positional_list_name : action_name a0 = k.
Proof. unfold action_name. rewrite a0_positional, a0_dest. reflexivity. Qed.

Lemma positional_list_step ws a args st st' :
  In a (actions p) -> taken p ws a args ->
  take_action p a args st = ok st' ->
  holds positional_list_inv st -> holds positional_list_inv st'.
Proof.
  unfold holds, positional_list_inv. intros Ha Hf Ht Hinv.
  destruct (single_writer a Ha) as [->|[Hd Hn]].
  - apply take_action_ok in Ht as (v & d & n' & Hv & Hc & <- & _).
    apply (get_values_list _ _ _ _ a0_nargs) in Hv as [-> _].
    unfold call_action in Hc. rewrite a0_kind, a0_dest in Hc.
    injection Hc as <-. intros _.
    exists (map (get_value a0) (remove_dashes args)).
    split; [|apply lookup_insert_eq].
    destruct Hf as [run n _ Hm ->|o _ Hl _|o e _ Hl _ _].
    + intros E. apply map_eq_nil in E.
      exact (match_positional_list a0 run n a0_nargs Hm E).
    + apply lookup_option_strings in Hl. rewrite a0_positional in Hl.
      destruct Hl.
    + apply lookup_option_strings in Hl. rewrite a0_positional in Hl.
      destruct Hl.
  - rewrite (take_action_other _ _ _ _ _ k Ht Hd).
    apply take_action_ok in Ht as (v & d & n' & _ & _ & _ & Hs & _).
    rewrite Hs. intros Hseen. apply Hinv.
    apply in_app_or in Hseen as [H|[H|[]]]; [exact H|contradiction].
Qed.

Lemma positional_list_parsed ws st st' :
  parse_words p ws = ok st -> finish p st = ok st' ->
  exists l, l <> [] /\ ns st' !! k = Some (VList l).
Proof.
  intros Hw Hf.
  assert (Hfin : ns st' !! k = ns st !! k).
  { eapply finish_keeps; [exact Hf|]. intros a Ha Hd.
    destruct (single_writer a Ha) as [->|[Hd' _]]; [auto|contradiction]. }
  rewrite Hfin.
  apply (parse_words_inv p ws positional_list_inv st dash_help
           (positional_list_step ws) Hw).
  - intros [].
  - rewrite <- positional_list_name.
    eapply finish_required; eauto.
Qed.

End Positional_list.

(** In a parser [p] where a single action [a0], the option [o0] of kind
    [append] taking one word and starting from the empty list, writes
    the attribute [k]: the attribute is a list, empty exactly when [o0]
    is not on the command line; each of its elements is a word, or the
    empty list that an occurrence [o0=--] appends. *)
Section Single_append.

Variable p : ArgumentParser.
Variable a0 : Action.
Variable k o0 : string.

Hypothesis dash_help : single_dash_help p.
Hypothesis a0_lookup : lookup_option p o0 = Some a0.
Hypothesis a0_dest : dest a0 = Some k.
Hypothesis a0_option : option_strings a0 = [o0].
Hypothesis a0_kind : kind a0 = append.
Hypothesis a0_nargs : nargs a0 = N_one.
Hypothesis a0_default : default a0 = Some (VList []).
Hypothesis single_writer : forall a, In a (actions p) ->
  a = a0 \/ (dest a <> Some k /\ action_name a <> o0).
Hypothesis initially : initial_namespace p !! k = Some (VList []).

Variable ws : list Word.






End Single_append.

(** The side conditions of [Single_option], as a check to be run on a
    declared parser. *)
Definition single_optionb (p : ArgumentParser) (a0 : Action) (k o0 : string)
    (d0 : Value) : bool :=
  single_dash_helpb p
  && bool_decide (lookup_option p o0 = Some a0)
  && bool_decide (dest a0 = Some k)
  && bool_decide (option_strings a0 = [o0])
  && (bool_decide (kind a0 = store) || bool_decide (kind a0 = store_const))
  && (negb (bool_decide (type_ a0 = T_Path)) || required a0
      || match default a0 with
         | Some (VStr _) => false
         | _ => true
         end)
  && single_writerb p a0 k o0
  && bool_decide (initial_namespace p !! k = Some d0).

Lemma single_option_checked p a0 k o0 d0 ws st st' :
  single_optionb p a0 k o0 d0 = true ->
  parse_words p ws = ok st -> finish p st = ok st' ->
  ((exists e, In (Opt o0 e) ws) ->
   exists x, ns st' !! k = Some x /\ written p a0 ws x) /\
  ((forall e, ~ In (Opt o0 e) ws) -> ns st' !! k = Some d0) /\
  (required a0 = true -> exists e, In (Opt o0 e) ws).
Proof.
  unfold single_optionb. intros H.
  apply andb_prop in H as [H Hinit]. apply andb_prop in H as [H Hsw].
  apply andb_prop in H as [H Hfin]. apply andb_prop in H as [H Hkind].
  apply andb_prop in H as [H Hopt]. apply andb_prop in H as [H Hd].
  apply andb_prop in H as [Hdash Hl].
  apply bool_decide_eq_true in Hinit, Hopt, Hl, Hd.
  assert (Hk : kind a0 = store \/ kind a0 = store_const).
  { apply orb_prop in Hkind as [Hk|Hk]; apply bool_decide_eq_true in Hk; auto. }
  assert (Hf : type_ a0 <> T_Path \/ required a0 = true \/
               forall s, default a0 <> Some (VStr s)).
  { apply orb_prop in Hfin as [Hfin|Hfin];
      [apply orb_prop in Hfin as [Hfin|Hfin]|].
    - left. apply negb_true_iff in Hfin. apply bool_decide_eq_false in Hfin.
      exact Hfin.
    - right. left. exact Hfin.
    - right. right. intros s Hs. rewrite Hs in Hfin. discriminate. }
  exact (single_option_parsed p a0 k o0 d0 (single_dash_helpb_spec p Hdash)
           Hl Hd Hopt Hk Hf (single_writerb_spec p a0 k o0 Hsw) Hinit
           ws st st').
Qed.

(** What [written] amounts to for each form of option. *)
Lemma written_const p a0 ws x :
  kind a0 = store_const -> written p a0 ws x -> x = const a0.
Proof. intros Hk (args & v & d & _ & _ & ->). rewrite Hk. reflexivity. Qed.

(** An option that stores one word: a word given to it, converted,
    after it passed the choices; or the empty list, for the explicit
    argument [--]. *)
Lemma written_one p a0 o0 ws x :
  kind a0 = store -> nargs a0 = N_one -> option_strings a0 = [o0] ->
  written p a0 ws x ->
  (exists s, s <> "--" /\ supplies ws o0 s /\ x = get_value a0 s /\
             forall c, choices a0 = Some c -> In s c) \/
  (x = VList [] /\ In (Opt o0 (Some "--")) ws).
Proof.
  intros Hk Hn Ho (args & v & d & Hf & Hv & ->). rewrite Hk.
  destruct Hf as [run n Hpos _ _|o Hfol Hl [Hno Hf]|o e Hin Hl _ ->].
  - rewrite Ho in Hpos. discriminate.
  - apply (lookup_option_single _ _ _ o0) in Hl; [subst o|exact Ho].
    rewrite Hn in Hf. destruct Hf as [s ->].
    assert (Hs : s <> "--") by (intros ->; apply Hno; left; reflexivity).
    apply get_values_word in Hv as (-> & _ & Hc); auto.
    left. exists s. auto using follows_supplies.
  - apply (lookup_option_single _ _ _ o0) in Hl; [subst o|exact Ho].
    destruct (string_dec e "--") as [->|Hne].
    + apply get_values_dashes in Hv as [-> _]; auto.
    + apply get_values_word in Hv as (-> & _ & Hc); auto.
      left. exists e. unfold supplies. auto.
Qed.


(** An option with [nargs='+']: the list of the words that follow it,
    or of its explicit argument; empty only for the explicit argument
    [--]. *)
Lemma written_list p a0 o0 ws x :
  kind a0 = store -> nargs a0 = N_one_or_more -> option_strings a0 = [o0] ->
  written p a0 ws x ->
  exists args,
    x = VList (map (get_value a0) args) /\
    ((args <> [] /\ follows ws o0 args) \/
     (exists e, In (Opt o0 (Some e)) ws /\ args = remove_dashes [e])).
Proof.
  intros Hk Hn Ho (args & v & d & Hf & Hv & ->). rewrite Hk.
  apply (get_values_list _ _ _ _ Hn) in Hv as [-> _].
  destruct Hf as [run n Hpos _ _|o Hfol Hl [Hno Hf]|o e Hin Hl _ ->].
  - rewrite Ho in Hpos. discriminate.
  - apply (lookup_option_single _ _ _ o0) in Hl; [subst o|exact Ho].
    rewrite Hn in Hf. rewrite remove_dashes_plain by exact Hno.
    exists args. auto.
  - apply (lookup_option_single _ _ _ o0) in Hl; [subst o|exact Ho].
    exists (remove_dashes [e]). split; [reflexivity|]. right. eauto.
Qed.

(** Whether the option [o] is on the command line. *)
Definition given (o : string) (ws : list Word) : bool :=
  existsb (fun w => match w with
                    | Opt o' _ => String.eqb o o'
                    | Arg _ => false
                    end) ws.

Lemma given_true o ws : given o ws = true <-> exists e, In (Opt o e) ws.
Proof.
  unfold given. rewrite existsb_exists. split.
  - intros ([o' e|s] & Hin & H); [|discriminate].
    apply String.eqb_eq in H. subst o'. eauto.
  - intros [e Hin]. exists (Opt o e). split; [exact Hin|apply String.eqb_refl].
Qed.

Lemma given_false o ws : given o ws = false <-> forall e, ~ In (Opt o e) ws.
Proof.
  rewrite <- not_true_iff_false, given_true. split.
  - intros H e Hin. apply H. eauto.
  - intros H [e Hin]. exact (H e Hin).
Qed.

End option_facts.

(** * Facts about manubot's parsers *)

Section Parser_facts.
Import argparse argparse_facts option_facts.
Local Open Scope result_scope.

Variable manubot_version : string.

Abbreviation top := (top_parser manubot_version).
Abbreviation parsed := (parsed_arguments manubot_version).

Lemma top_dash_help : single_dash_help top.
Proof. apply single_dash_helpb_spec. reflexivity. Qed.

(** The top-level parser knows [-h], [--help] and [--version]; each of
    them ends the process, so an option word before the sub-command
    never lets parsing continue without leaving an extra behind. *)
Lemma top_option_extras o e st st' :
  consume_optional top false (mkSegment o e []) st = ok st' ->
  extras st' = extras st ++ [render (Opt o e)].
Proof.
  intros H. apply (consume_optional_ok top top_dash_help) in H.
  cbn [seg_option seg_explicit seg_args] in H.
  destruct (lookup_option top o) as [a|] eqn:Hl.
  - exfalso. destruct H as (args & left & st1 & _ & H1 & _).
    apply take_action_ok in H1 as (v & d & n' & _ & Hc & _).
    apply lookup_option_declared in Hl. simpl in Hl.
    destruct Hl as [<-|[<-|[]]]; discriminate.
  - cbn in H. injection H as <-. reflexivity.
Qed.

Lemma parse_top_extras sp ws : forall st n ex,
  parse_top top sp ws st = ok (n, ex) ->
  (length (extras st) <= length ex)%nat.
Proof.
  induction ws as [|[o e|name] r IH]; simpl; intros st n ex H.
  - destruct (sub_required sp); [discriminate|]. injection H as <- <-. lia.
  - apply bind_ok in H as [st' [H1 H]].
    apply top_option_extras in H1. apply IH in H.
    rewrite H1, length_app in H. lia.
  - destruct (is_dashes name && negb (plain_follows r)).
    + apply IH in H. cbn in H. rewrite length_app in H. lia.
    + destruct (lookup_parser sp name); [|discriminate].
      apply bind_ok in H as [res [H1 H]]. injection H as <- <-.
      rewrite length_app. lia.
Qed.

Lemma lookup_parser_registered name sub :
  lookup_parser registered_subparsers name = Some sub ->
  In (name, sub) (sub_choices registered_subparsers).
Proof.
  unfold lookup_parser. intros H.
  destruct (List.find _ _) as [[n q]|] eqn:Hf; [|discriminate].
  injection H as <-. apply find_some in Hf as [Hin He].
  simpl in He. apply String.eqb_eq in He. subst n. exact Hin.
Qed.

Lemma registered_not_dashes name sub :
  lookup_parser registered_subparsers name = Some sub -> is_dashes name = false.
Proof.
  intros H. apply is_dashes_false. intros ->. discriminate H.
Qed.

(** The namespace that the top-level parser returns: the attributes of
    the sub-parser's namespace, and the name of the sub-command. *)
Definition with_subcommand (name : string) (n : Namespace) : Namespace :=
  n ∪ <["subcommand" := VStr name]> (∅ : Namespace).

(** Parsing a command line that starts with the name of a registered
    sub-command: the top-level parser classifies every word, and the
    sub-parser parses the words after the name. *)
Lemma parsed_registered name sub r :
  lookup_parser registered_subparsers name = Some sub ->
  parsed (Arg name :: r)
  = (_ <- classify top (Arg name :: r) ;;
     res <- parse_known_args sub r ;;
     match snd res with
     | [] => ok (with_subcommand name (fst res))
     | l => error (unrecognized_arguments l)
     end).
Proof.
  intros Hsub. unfold parsed_arguments, parse_args.
  destruct (classify top (Arg name :: r)) as [[]| | |]; try reflexivity.
  cbn [bind parse_top]. rewrite (registered_not_dashes name sub Hsub).
  cbn [andb]. rewrite Hsub.
  destruct (parse_known_args sub r) as [[n [|x ex]]| | |]; reflexivity.
Qed.

(** A command line that parses starts with the name of a registered
    sub-command, and the words after it parse against that
    sub-command's parser, leaving nothing unrecognised. *)
Lemma parsed_ok argv args :
  parsed argv = ok args ->
  exists name sub r st st',
    argv = Arg name :: r /\
    lookup_parser registered_subparsers name = Some sub /\
    classify top argv = ok tt /\
    classify sub r = ok tt /\
    parse_words sub r = ok st /\
    finish sub st = ok st' /\
    extras st' = [] /\
    args = with_subcommand name (ns st').
Proof.
  intros H.
  assert (Hshape : exists name r sub,
             argv = Arg name :: r /\
             lookup_parser registered_subparsers name = Some sub).
  { unfold parsed_arguments, parse_args in H.
    apply bind_ok in H as [[] [_ H]].
    apply bind_ok in H as [[n ex] [H1 H]]. simpl in H.
    destruct ex; [|discriminate].
    destruct argv as [|[o e|name] r]; simpl in H1.
    - discriminate.
    - apply bind_ok in H1 as [st' [H2 H1]].
      apply top_option_extras in H2. apply parse_top_extras in H1.
      rewrite H2, length_app in H1. simpl in H1. lia.
    - destruct (is_dashes name && negb (plain_follows r)).
      + apply parse_top_extras in H1. simpl in H1. lia.
      + destruct (lookup_parser registered_subparsers name) as [sub|] eqn:Hs;
          [|discriminate].
        eauto. }
  destruct Hshape as (name & r & sub & -> & Hsub).
  rewrite (parsed_registered name sub r Hsub) in H.
  apply bind_ok in H as [[] [Hc H]].
  apply bind_ok in H as [[n ex] [H1 H]]. cbn [fst snd] in H.
  destruct ex; [|discriminate]. injection H as <-.
  apply parse_known_args_ok in H1 as (st & st' & Hc' & Hw & Hf & -> & Hex).
  exists name, sub, r, st, st'. repeat split; auto.
Qed.

(** The action that [parse_arguments] adds to every sub-parser. *)
Definition log_level_action : Action :=
  make_action "--log-level" [kw_default (VStr "WARNING"); kw_choices log_levels].

Definition no_dest (k : string) (p : ArgumentParser) : bool :=
  forallb (fun a => bool_decide (dest a <> Some k)) (actions p).

Definition handler_identifiers : list (string * string) :=
  [("process", "manubot.process.process_command.cli_process");
   ("cite", "manubot.cite.cite_command.cli_cite");
   ("webpage", "manubot.webpage.webpage_command.cli_webpage");
   ("ai-revision", "manubot.ai_revision.ai_revision_command.cli_process");
   ("ai-cite", "manubot.ai_cite.ai_cite_command.cli_process")].

(** What holds of each of the five registered sub-parsers. *)
Definition registered_ok (np : string * ArgumentParser) : bool :=
  single_optionb (snd np) log_level_action "log_level" "--log-level"
                 (VStr "WARNING")
  && bool_decide (lookup_option (snd np) "-h" = Some help_action)
  && bool_decide (lookup_option (snd np) "--help" = Some help_action)
  && no_dest "function" (snd np)
  && no_dest "subcommand" (snd np)
  && bool_decide (initial_namespace (snd np) !! "subcommand" = None)
  && existsb (fun ni =>
        bool_decide (fst ni = fst np /\
          defaults (snd np) = [("function", VStr (snd ni))] /\
          initial_namespace (snd np) !! "function" = Some (VStr (snd ni))))
       handler_identifiers.

Lemma all_registered_ok :
  forallb registered_ok (sub_choices registered_subparsers) = true.
Proof. vm_compute. reflexivity. Qed.

Lemma registered_facts name sub :
  lookup_parser registered_subparsers name = Some sub ->
  single_optionb sub log_level_action "log_level" "--log-level"
                 (VStr "WARNING") = true /\
  single_dash_help sub /\
  lookup_option sub "-h" = Some help_action /\
  lookup_option sub "--help" = Some help_action /\
  lookup_option sub "--log-level" = Some log_level_action /\
  (forall a, In a (actions sub) -> dest a <> Some "function") /\
  (forall a, In a (actions sub) -> dest a <> Some "subcommand") /\
  initial_namespace sub !! "subcommand" = None /\
  exists id, In (name, id) handler_identifiers /\
             defaults sub = [("function", VStr id)] /\
             initial_namespace sub !! "function" = Some (VStr id).
Proof.
  intros H. apply lookup_parser_registered in H.
  pose proof all_registered_ok as Hall.
  rewrite forallb_forall in Hall. apply Hall in H. clear Hall.
  unfold registered_ok in H. cbn [fst snd] in H.
  apply andb_prop in H as [H Hex]. apply andb_prop in H as [H Hsub].
  apply andb_prop in H as [H Hnosub]. apply andb_prop in H as [H Hnofun].
  apply andb_prop in H as [H Hhelp]. apply andb_prop in H as [Hlvl Hh].
  apply bool_decide_eq_true in Hsub, Hhelp, Hh.
  apply existsb_exists in Hex as ([n id] & Hin & Hid).
  apply bool_decide_eq_true in Hid. cbn [fst snd] in Hid.
  destruct Hid as (-> & Hdef & Hfun).
  unfold no_dest in *.
  rewrite forallb_forall in Hnofun, Hnosub.
  split; [exact Hlvl|].
  assert (Hparts : single_dash_helpb sub = true /\
                   lookup_option sub "--log-level" = Some log_level_action).
  { unfold single_optionb in Hlvl.
    do 6 (apply andb_prop in Hlvl as [Hlvl _]).
    apply andb_prop in Hlvl as [Hd Hl].
    apply bool_decide_eq_true in Hl. auto. }
  destruct Hparts as [Hd Hl].
  split; [exact (single_dash_helpb_spec sub Hd)|].
  repeat split; eauto.
  - intros a Ha. apply Hnofun in Ha.
    apply bool_decide_eq_true in Ha. exact Ha.
  - intros a Ha. apply Hnosub in Ha.
    apply bool_decide_eq_true in Ha. exact Ha.
Qed.

(** What the sub-parser stored is in the namespace returned. *)
Lemma with_subcommand_lookup name n k x :
  n !! k = Some x -> with_subcommand name n !! k = Some x.
Proof. intros H. apply lookup_union_Some_l. exact H. Qed.

(** The words after the name of a registered sub-command parse against
    its parser, and the namespace returned holds what that parser
    stored. *)
Lemma parsed_sub name sub r args :
  lookup_parser registered_subparsers name = Some sub ->
  parsed (Arg name :: r) = ok args ->
  exists st st',
    parse_words sub r = ok st /\ finish sub st = ok st' /\
    extras st' = [] /\
    classify top (Arg name :: r) = ok tt /\ classify sub r = ok tt /\
    forall k x, ns st' !! k = Some x -> args !! k = Some x.
Proof.
  intros Hsub Hp.
  apply parsed_ok in Hp
    as (name' & sub' & r' & st & st' & Heq & Hsub' & Hc & Hc' & Hw & Hf & Hex & ->).
  injection Heq as <- <-. rewrite Hsub in Hsub'. injection Hsub' as <-.
  exists st, st'. repeat split; auto.
  intros k x Hx. apply with_subcommand_lookup. exact Hx.
Qed.

(** What the log level of a parsed command line can be: one of the five
    names, [WARNING] when the option is not given; or the empty list,
    which the explicit argument [--] leaves. *)
Definition log_level_parsed (r : list Word) (args : Namespace) : Prop :=
  (exists s, args !! "log_level" = Some (VStr s) /\ In s log_levels /\
             ((forall e, ~ In (Opt "--log-level" e) r) -> s = "WARNING")) \/
  (args !! "log_level" = Some (VList []) /\
   In (Opt "--log-level" (Some "--")) r).

(** What every parsed command line gives: the sub-command, its
    registered handler identifier, and a log level. *)
Lemma parsed_facts argv args :
  parsed argv = ok args ->
  exists name sub r id,
    argv = Arg name :: r /\
    lookup_parser registered_subparsers name = Some sub /\
    In (name, id) handler_identifiers /\
    defaults sub = [("function", VStr id)] /\
    args !! "subcommand" = Some (VStr name) /\
    args !! "function" = Some (VStr id) /\
    log_level_parsed r args.
Proof.
  intros H.
  apply parsed_ok in H
    as (name & sub & r & st & st' & -> & Hsub & _ & _ & Hw & Hf & _ & ->).
  destruct (registered_facts name sub Hsub)
    as (Hlvl & Hdash & _ & _ & _ & Hnofun & Hnosub & Hsubc & id & Hid & Hdef & Hfun).
  exists name, sub, r, id. repeat split; auto.
  - unfold with_subcommand. rewrite lookup_union_r; [apply lookup_insert_eq|].
    rewrite (finish_lookup sub st st' "subcommand" Hf).
    + rewrite (parse_words_untouched sub Hdash "subcommand" r st Hnosub Hw).
      exact Hsubc.
    + intros a Ha Hd. exfalso. exact (Hnosub a Ha Hd).
  - apply with_subcommand_lookup.
    rewrite (finish_lookup sub st st' "function" Hf).
    + rewrite (parse_words_untouched sub Hdash "function" r st Hnofun Hw).
      exact Hfun.
    + intros a Ha Hd. exfalso. exact (Hnofun a Ha Hd).
  - destruct (single_option_checked sub log_level_action "log_level"
                "--log-level" (VStr "WARNING") r st st' Hlvl Hw Hf)
      as (Hin & Hout & _).
    destruct (given "--log-level" r) eqn:Hg;
      [apply given_true in Hg|rewrite given_false in Hg].
    + destruct (Hin Hg) as (x & Hx & Hwr).
      apply (written_one _ _ "--log-level") in Hwr
        as [(s & Hs & _ & -> & Hc)|[-> Hd]]; try reflexivity.
      * left. exists s. split; [apply with_subcommand_lookup; exact Hx|].
        split; [apply Hc; reflexivity|].
        intros Hno. exfalso. destruct Hg as [e He]. exact (Hno e He).
      * right. split; [apply with_subcommand_lookup; exact Hx|exact Hd].
    + left. exists "WARNING". split; [apply with_subcommand_lookup; auto|].
      split; [unfold log_levels; simpl; auto|auto].
Qed.

End Parser_facts.

(** * Facts about the process *)

Section Process_facts.
Import argparse argparse_facts.

Variable manubot_version : string.
Variable importer : string -> Imported.

Abbreviation parsed := (parsed_arguments manubot_version).
Abbreviation run_main := (run manubot_version importer).

(** The formatter installed by [setup_logging_and_errors]. *)
Definition formatter : Formatter :=
  [literal "## "; field_levelname; literal newline; field_message].

(** The handlers of the root logger once diagnostics are configured:
    the [ErrorHandler] with its [fired] attribute, then the stream
    handler. *)
Definition installed (fired : bool) : list Handler :=
  [ErrorHandler (levelno ERROR) fired; StreamHandler NOTSET formatter].

(** The process once diagnostics are configured, with the root logger
    at level [root]. *)
Definition configured (root : Z) (fired : bool) (err out : list Written)
    (ms : list Moment) : Process :=
  mkProcess root (installed fired) true err out ms.

(** An event in a configured process. *)
Definition at_level (root : Z) (fired : bool) (e : Event) : Moment :=
  mkMoment e root (installed fired).

Definition setup_moments : list Moment :=
  [mkMoment (ev_add_handler (ErrorHandler (levelno ERROR) false))
     (levelno WARNING) [ErrorHandler (levelno ERROR) false];
   mkMoment ev_warnings_captured
     (levelno WARNING) [ErrorHandler (levelno ERROR) false];
   mkMoment (ev_add_handler (StreamHandler NOTSET formatter))
     (levelno WARNING) (installed false)].

Definition setup_trace : list Event :=
  [ev_add_handler (ErrorHandler (levelno ERROR) false);
   ev_warnings_captured;
   ev_add_handler (StreamHandler NOTSET formatter)].

Lemma setup_logging_and_errors_run :
  setup_logging_and_errors initial_process
  = (configured (levelno WARNING) false [] [] setup_moments,
     returned (mkDiagnostics 0%nat)).
Proof. reflexivity. Qed.

(** Whether the logger lets a call through ([isEnabledFor]). *)
Definition enabled (root : Z) (e : Effect) : bool :=
  match e with
  | do_log ll l _ => (if ll =? NOTSET then root else ll) <=? levelno l
  end.

Definition effect_level (e : Effect) : Level :=
  match e with do_log _ l _ => l end.

(** Whether a call reaches the [ErrorHandler] and sets [fired]. *)
Definition fires (root : Z) (e : Effect) : bool :=
  enabled root e && (levelno ERROR <=? levelno (effect_level e)).

(** What the stream handler writes for a call that is let through. *)
Definition rendering (e : Effect) : Written :=
  match e with
  | do_log _ l msg =>
      log_output ("## " +:+ levelname l +:+ newline +:+ msg +:+ newline)
  end.

Lemma log_configured ll l msg root b err out ms :
  log ll l msg (configured root b err out ms)
  = (configured root (b || fires root (do_log ll l msg))
       (err ++ map rendering (List.filter (enabled root) [do_log ll l msg]))
       out ms,
     returned tt).
Proof.
  unfold log, fires, enabled, configured, callHandlers, handle.
  destruct l; simpl;
    match goal with
    | |- context [?x <=? ?n] => destruct (x <=? n)
    end; simpl; rewrite ?orb_true_r, ?orb_false_r, ?app_nil_r; reflexivity.
Qed.

Lemma run_effects_configured es : forall root b err out ms,
  run_effects es (configured root b err out ms)
  = (configured root (b || existsb (fires root) es)
       (err ++ map rendering (List.filter (enabled root) es)) out ms,
     returned tt).
Proof.
  induction es as [|[ll l msg] r IH]; intros root b err out ms.
  - simpl. rewrite orb_false_r, app_nil_r. reflexivity.
  - cbn [run_effects]. unfold bindM. rewrite log_configured, IH.
    rewrite <- app_assoc, <- map_app, <- orb_assoc.
    cbn [existsb List.filter].
    destruct (enabled root (do_log ll l msg)); reflexivity.
Qed.

Definition parse_moments : list Moment :=
  setup_moments ++ [at_level (levelno WARNING) false ev_parse_args].

Definition parse_trace : list Event := setup_trace ++ [ev_parse_args].

(** A command line that does not parse ends the process right there. *)
Lemma run_not_parsed argv :
  match parsed argv with
  | ok _ => True
  | exit_help =>
      run_main argv
      = (configured (levelno WARNING) false [] [argparse_help] parse_moments,
         raised (SystemExit 0))
  | exit_version v =>
      run_main argv
      = (configured (levelno WARNING) false [] [argparse_version v] parse_moments,
         raised (SystemExit 0))
  | error e =>
      run_main argv
      = (configured (levelno WARNING) false [argparse_error e] [] parse_moments,
         raised (SystemExit 2))
  end.
Proof.
  unfold run, main, bindM. rewrite setup_logging_and_errors_run.
  unfold parse_arguments, bindM. simpl record_event.
  destruct (parsed_arguments manubot_version argv); auto.
Qed.

(** The rest of [main] once the command line is parsed and its log
    level names the level [l]. *)
Definition dispatched (args : Namespace) (l : Level) (id : string)
  : Process * Outcome unit :=
  let root := levelno l in
  let es_i := import_effects (importer id) in
  let fired_i := existsb (fires root) es_i in
  let ms := parse_moments
            ++ [at_level root false (ev_set_level l);
                at_level root false (ev_import id)] in
  match imported (importer id) with
  | None =>
      (configured root fired_i
         (map rendering (List.filter (enabled root) es_i)) [] ms,
       raised (Exception "ImportError"))
  | Some f =>
      let es := es_i ++ effects (f args) in
      let fired := existsb (fires root) es in
      let err := map rendering (List.filter (enabled root) es) in
      match raises (f args) with
      | Some e =>
          (configured root fired err []
             (ms ++ [at_level root fired_i (ev_call id)]),
           raised (Exception e))
      | None =>
          if fired then
            (configured root true
               (err ++ [rendering (do_log NOTSET CRITICAL summary)]) []
               (ms ++ [at_level root fired_i (ev_call id);
                       at_level root true (ev_returned id);
                       at_level root true (ev_read_fired true)]),
             raised (SystemExit 1))
          else
            (configured root false err []
               (ms ++ [at_level root fired_i (ev_call id);
                       at_level root false (ev_returned id);
                       at_level root false (ev_read_fired false)]),
             returned tt)
      end
  end.

(** The run of a command line that parses to a log level that is no
    string: [getattr(logging, level)] raises before the level is set
    or anything is imported. *)
Definition level_rejected : Process * Outcome unit :=
  (configured (levelno WARNING) false [] [] parse_moments,
   raised (Exception "TypeError")).

Lemma bindM_returned {A B} (m : M A) (k : A -> M B) p p' a :
  m p = (p', returned a) -> bindM m k p = k a p'.
Proof. unfold bindM. intros ->. reflexivity. Qed.

Lemma bindM_raised {A B} (m : M A) (k : A -> M B) p p' e :
  m p = (p', raised e) -> bindM m k p = (p', raised e).
Proof. unfold bindM. intros ->. reflexivity. Qed.

Lemma parse_arguments_ok argv args root b err out ms :
  parsed argv = ok args ->
  parse_arguments manubot_version argv (configured root b err out ms)
  = (configured root b err out (ms ++ [at_level root b ev_parse_args]),
     returned args).
Proof.
  intros H. unfold parse_arguments.
  erewrite bindM_returned by reflexivity. rewrite H. reflexivity.
Qed.

Lemma import_function_configured id root b err out ms :
  import_function importer (VStr id) (configured root b err out ms)
  = (configured root (b || existsb (fires root) (import_effects (importer id)))
       (err ++ map rendering
                 (List.filter (enabled root) (import_effects (importer id))))
       out (ms ++ [at_level root b (ev_import id)]),
     match imported (importer id) with
     | Some f => returned (id, f)
     | None => raised (Exception "ImportError")
     end).
Proof.
  unfold import_function.
  erewrite bindM_returned by reflexivity.
  erewrite bindM_returned by apply run_effects_configured.
  destruct (imported (importer id)); reflexivity.
Qed.

Lemma call_configured id f args root b err out ms :
  call (id, f) args (configured root b err out ms)
  = (configured root (b || existsb (fires root) (effects (f args)))
       (err ++ map rendering (List.filter (enabled root) (effects (f args))))
       out
       (ms ++ [at_level root b (ev_call id)]
           ++ match raises (f args) with
              | Some _ => []
              | None => [at_level root
                           (b || existsb (fires root) (effects (f args)))
                           (ev_returned id)]
              end),
     match raises (f args) with
     | Some e => raised (Exception e)
     | None => returned tt
     end).
Proof.
  unfold call. cbn [fst snd].
  erewrite bindM_returned by reflexivity.
  erewrite bindM_returned by apply run_effects_configured.
  destruct (raises (f args)).
  - unfold raise, configured. rewrite app_nil_r. reflexivity.
  - unfold record_event, configured, happened. simpl.
    rewrite <- app_assoc. reflexivity.
Qed.

Lemma exit_if_error_handler_fired_configured l b err out ms :
  exit_if_error_handler_fired 0%nat (configured (levelno l) b err out ms)
  = if b then
      (configured (levelno l) true
         (err ++ [rendering (do_log NOTSET CRITICAL summary)]) out
         (ms ++ [at_level (levelno l) true (ev_read_fired true)]),
       raised (SystemExit 1))
    else
      (configured (levelno l) false err out
         (ms ++ [at_level (levelno l) false (ev_read_fired false)]),
       returned tt).
Proof.
  unfold exit_if_error_handler_fired, errorhandler.fired.
  erewrite bindM_returned by reflexivity.
  destruct b.
  - erewrite bindM_returned by apply log_configured.
    destruct l; reflexivity.
  - reflexivity.
Qed.

Lemma run_parsed argv args s l id :
  parsed argv = ok args ->
  args !! "log_level" = Some (VStr s) ->
  getattr_level s = Some l ->
  args !! "function" = Some (VStr id) ->
  run_main argv = dispatched args l id.
Proof.
  intros Hp Hs Hl Hf.
  unfold run, main.
  erewrite bindM_returned by apply setup_logging_and_errors_run.
  erewrite bindM_returned by (apply parse_arguments_ok; exact Hp).
  erewrite bindM_returned by (unfold getattr; rewrite Hs; reflexivity).
  erewrite bindM_returned by (unfold getattr_logging; rewrite Hl; reflexivity).
  erewrite bindM_returned by reflexivity.
  erewrite bindM_returned by (unfold getattr; rewrite Hf; reflexivity).
  change (mkProcess (levelno l) ?h ?w ?e ?o ?t)
    with (configured (levelno l) false [] []
            (parse_moments ++ [at_level (levelno l) false (ev_set_level l)])).
  unfold dispatched.
  destruct (imported (importer id)) as [f|] eqn:Hi.
  - erewrite bindM_returned
      by (rewrite import_function_configured, Hi; reflexivity).
    rewrite List.filter_app, List.map_app, List.existsb_app.
    destruct (raises (f args)) as [e|] eqn:Hr.
    + erewrite bindM_raised
        by (rewrite call_configured, Hr; reflexivity).
      cbn [orb app]. rewrite <- ?app_assoc. reflexivity.
    + erewrite bindM_returned
        by (rewrite call_configured, Hr; reflexivity).
      cbn [error_handler orb app].
      rewrite exit_if_error_handler_fired_configured.
      destruct (existsb _ _ || existsb _ _);
        rewrite <- ?app_assoc; reflexivity.
  - erewrite bindM_raised
      by (rewrite import_function_configured, Hi; reflexivity).
    cbn [orb app]. rewrite <- ?app_assoc. reflexivity.
Qed.

Lemma run_level_rejected argv args :
  parsed argv = ok args ->
  args !! "log_level" = Some (VList []) ->
  run_main argv = level_rejected.
Proof.
  intros Hp Hs.
  unfold run, main.
  erewrite bindM_returned by apply setup_logging_and_errors_run.
  erewrite bindM_returned by (apply parse_arguments_ok; exact Hp).
  erewrite bindM_returned by (unfold getattr; rewrite Hs; reflexivity).
  reflexivity.
Qed.

(** Every level name the parser lets through names a level. *)
Lemma getattr_level_log_levels s :
  In s log_levels -> exists l, getattr_level s = Some l /\ levelname l = s.
Proof.
  unfold log_levels. simpl.
  intros [<-|[<-|[<-|[<-|[<-|[]]]]]];
    [exists DEBUG|exists INFO|exists WARNING|exists ERROR|exists CRITICAL];
    split; reflexivity.
Qed.


(** How a run goes on after the command line has parsed: with the
    level its log level names, or not at all when the log level is the
    empty list that [--log-level=--] leaves. *)
Definition run_after_parsing (argv r : list Word) (args : Namespace)
    (id : string) : Prop :=
  (exists l,
     args !! "log_level" = Some (VStr (levelname l)) /\
     ((forall e, ~ In (Opt "--log-level" e) r) -> l = WARNING) /\
     run_main argv = dispatched args l id) \/
  (args !! "log_level" = Some (VList []) /\
   In (Opt "--log-level" (Some "--")) r /\
   run_main argv = level_rejected).

(** Every run, by how far it gets. *)
Lemma run_cases argv :
  match parsed argv with
  | ok args =>
      exists name sub r id,
        argv = Arg name :: r /\
        lookup_parser registered_subparsers name = Some sub /\
        In (name, id) handler_identifiers /\
        defaults sub = [("function", VStr id)] /\
        args !! "subcommand" = Some (VStr name) /\
        args !! "function" = Some (VStr id) /\
        run_after_parsing argv r args id
  | exit_help =>
      run_main argv
      = (configured (levelno WARNING) false [] [argparse_help] parse_moments,
         raised (SystemExit 0))
  | exit_version v =>
      run_main argv
      = (configured (levelno WARNING) false [] [argparse_version v] parse_moments,
         raised (SystemExit 0))
  | error e =>
      run_main argv
      = (configured (levelno WARNING) false [argparse_error e] [] parse_moments,
         raised (SystemExit 2))
  end.
Proof.
  pose proof (run_not_parsed argv) as Hn.
  destruct (parsed argv) as [args| | |] eqn:Hp; auto.
  destruct (parsed_facts _ _ _ Hp)
    as (name & sub & r & id & -> & Hsub & Hid & Hdef & Hsc & Hf & Hlvl).
  exists name, sub, r, id. repeat split; auto.
  destruct Hlvl as [(s & Hs & Hin & Hw)|[Hs Hin]].
  - left. destruct (getattr_level_log_levels s Hin) as (l & Hl & <-).
    exists l. repeat split; auto.
    + intros Hno. specialize (Hw Hno). destruct l; try discriminate. reflexivity.
    + eapply run_parsed; eauto.
  - right. repeat split; auto. eapply run_level_rejected; eauto.
Qed.

(** What a run is once the command line has parsed to a level name. *)
Lemma run_dispatched argv args l id :
  parsed argv = ok args ->
  args !! "log_level" = Some (VStr (levelname l)) ->
  args !! "function" = Some (VStr id) ->
  run_main argv = dispatched args l id.
Proof.
  intros Hp Hl Hf. eapply run_parsed; eauto. destruct l; reflexivity.
Qed.

(** The exit rule, as the code has it: after a handler that returned,
    the status is 1 exactly when a call of level [ERROR] or above was
    let through by its logger, and then the summary is the last thing
    written. *)
Lemma run_handler_returned argv args l id f :
  parsed argv = ok args ->
  args !! "log_level" = Some (VStr (levelname l)) ->
  args !! "function" = Some (VStr id) ->
  imported (importer id) = Some f ->
  raises (f args) = None ->
  let es := import_effects (importer id) ++ effects (f args) in
  let err := map rendering (List.filter (enabled (levelno l)) es) in
  if existsb (fires (levelno l)) es then
    snd (run_main argv) = raised (SystemExit 1) /\
    stderr (fst (run_main argv))
    = err ++ [rendering (do_log NOTSET CRITICAL summary)]
  else
    snd (run_main argv) = returned tt /\
    stderr (fst (run_main argv)) = err.
Proof.
  intros Hp Hl Hf Hi Hr.
  rewrite (run_dispatched argv args l id Hp Hl Hf).
  unfold dispatched. rewrite Hi, Hr.
  cbv zeta. destruct (existsb _ _); split; reflexivity.
Qed.

(** In a run whose command line parsed and whose handler was imported,
    the handler returns exactly when it raises nothing and the parsed
    log level names a level. *)
Lemma handler_returned argv args id f :
  parsed argv = ok args ->
  args !! "function" = Some (VStr id) ->
  imported (importer id) = Some f ->
  (In (ev_returned id) (trace (fst (run_main argv)))
   <-> raises (f args) = None /\
       exists l, args !! "log_level" = Some (VStr (levelname l))).
Proof.
  intros Hp Hf Hi. pose proof (run_cases argv) as H. rewrite Hp in H.
  destruct H as (name & sub & r & id' & _ & _ & _ & _ & _ & Hf' & Hrun).
  rewrite Hf in Hf'. injection Hf' as <-.
  destruct Hrun as [(l & Hl & _ & ->)|(Hl & _ & ->)].
  - unfold dispatched. rewrite Hi.
    destruct (raises (f args)) as [e|]; [|destruct (existsb _ _)];
      cbn [fst trace moments configured]; split.
    + intros Hin. exfalso. cbn in Hin.
      repeat destruct Hin as [Hin|Hin]; try discriminate Hin. exact Hin.
    + intros [Hr _]. discriminate Hr.
    + intros _. eauto.
    + intros _. cbn. auto 10.
    + intros _. eauto.
    + intros _. cbn. auto 10.
  - cbn [fst trace moments configured level_rejected]. split.
    + intros Hin. exfalso. cbn in Hin.
      repeat destruct Hin as [Hin|Hin]; try discriminate Hin. exact Hin.
    + intros [_ [l Hl']]. rewrite Hl in Hl'. discriminate Hl'.
Qed.

(** ** C2 *)

(** C2: in a run where the handler returns normally, and no call of
    level ERROR or above is made during the import or by the handler,
    main returns and the exit status is 0, however many DEBUG, INFO or
    WARNING messages were logged.  The handler returns normally exactly
    when it raises nothing and the parsed log level names a level. *)
Theorem C2_no_error_exit_zero argv args id f :
  parsed argv = ok args ->
  args !! "function" = Some (VStr id) ->
  imported (importer id) = Some f ->
  Forall (fun e => In (effect_level e) [DEBUG; INFO; WARNING])
         (import_effects (importer id) ++ effects (f args)) ->
  (In (ev_returned id) (trace (fst (run_main argv))) ->
   snd (run_main argv) = returned tt /\
   exit_status (snd (run_main argv)) = 0) /\
  (In (ev_returned id) (trace (fst (run_main argv)))
   <-> raises (f args) = None /\
       exists l, args !! "log_level" = Some (VStr (levelname l))).
Proof.
  intros Hp Hf Hi Hlow.
  pose proof (handler_returned argv args id f Hp Hf Hi) as Hret.
  split; [|exact Hret].
  intros Hin. apply Hret in Hin as [Hr [l Hl]].
  pose proof (run_handler_returned argv args l id f Hp Hl Hf Hi Hr) as H.
  cbv zeta in H.
  assert (Hno : existsb (fires (levelno l))
                  (import_effects (importer id) ++ effects (f args)) = false).
  { apply not_true_iff_false. intros He.
    apply existsb_exists in He as (e & Hin & He).
    rewrite List.Forall_forall in Hlow. apply Hlow in Hin.
    unfold fires in He. apply andb_prop in He as [_ He].
    destruct e as [ll lv msg]. simpl in Hin, He.
    destruct Hin as [<-|[<-|[<-|[]]]]; discriminate. }
  rewrite Hno in H. destruct H as [H _]. rewrite H. split; reflexivity.
Qed.

(** ** C4 *)

(** [happens_before P Q tr]: every event of [tr] that satisfies [Q] has
    an event that satisfies [P] strictly before it. *)
Definition happens_before (P Q : Event -> Prop) (tr : list Event) : Prop :=
  forall i e, nth_error tr i = Some e -> Q e ->
  exists j e', (j < i)%nat /\ nth_error tr j = Some e' /\ P e'.

Ltac absurd_event He :=
  solve [ discriminate He
        | match type of He with
          | ex _ => let x := fresh in destruct He as [x He]; discriminate He
          end ].

Ltac earlier_at j :=
  exists j; eexists; split; [lia|]; split; [reflexivity|];
  solve [reflexivity | eauto 10].

Ltac earlier :=
  first [ earlier_at 0%nat | earlier_at 2%nat | earlier_at 3%nat
        | earlier_at 4%nat | earlier_at 7%nat ].

Ltac before_by_index :=
  let i := fresh "i" in
  let e := fresh "e" in
  let Hi := fresh "Hi" in
  let He := fresh "He" in
  intros i e Hi He;
  repeat (destruct i as [|i];
          [simpl in Hi; injection Hi as <-; first [absurd_event He | earlier]
          |simpl in Hi]);
  destruct i; discriminate Hi.




(** ** C7 *)

Definition is_import (e : Event) : bool :=
  match e with
  | ev_import _ => true
  | _ => false
  end.

(** C7: registration stores, for each sub-command, the handler's
    identifier as a string among the parser defaults; an import happens
    only in a run whose command line parsed, after the parsing, and it
    is the one import of the identifier registered for the selected
    sub-command. *)
Theorem C7_lazy_handler_resolution argv :
  (forall name sub,
     lookup_parser registered_subparsers name = Some sub ->
     exists id, defaults sub = [("function", VStr id)]) /\
  let tr := trace (fst (run_main argv)) in
  (forall id, In (ev_import id) tr ->
     exists args name sub,
       parsed argv = ok args /\
       args !! "subcommand" = Some (VStr name) /\
       lookup_parser registered_subparsers name = Some sub /\
       defaults sub = [("function", VStr id)] /\
       List.filter is_import tr = [ev_import id]) /\
  happens_before (eq ev_parse_args) (fun e => exists id, e = ev_import id) tr.
Proof.
  split.
  { intros name sub Hsub.
    destruct (registered_facts name sub Hsub)
      as (_ & _ & _ & _ & _ & _ & _ & _ & id & _ & Hdef & _).
    eauto. }
  pose proof (run_cases argv) as H.
  assert (Hstop : forall p o,
             run_main argv = (p, o) -> moments p = parse_moments ->
             let tr := trace (fst (run_main argv)) in
             (forall id, In (ev_import id) tr ->
                exists args name sub,
                  parsed argv = ok args /\
                  args !! "subcommand" = Some (VStr name) /\
                  lookup_parser registered_subparsers name = Some sub /\
                  defaults sub = [("function", VStr id)] /\
                  List.filter is_import tr = [ev_import id]) /\
             happens_before (eq ev_parse_args)
                            (fun e => exists id, e = ev_import id) tr).
  { intros p o Hrun Hms. rewrite Hrun. cbn [fst]. unfold trace.
    rewrite Hms. cbn. split; [|before_by_index].
    intros id Hin. repeat destruct Hin as [Hin|Hin]; try discriminate.
    destruct Hin. }
  destruct (parsed argv) as [args| | |] eqn:Hp;
    try (apply (Hstop _ _ H eq_refl)).
  destruct H as (name & sub & r & id & _ & Hsub & _ & Hdef & Hsc & _ & Hrun).
  destruct Hrun as [(l & _ & _ & Hrun)|(_ & _ & Hrun)];
    [|apply (Hstop _ _ Hrun eq_refl)].
  rewrite Hrun.
  assert (Hall : forall tr' id',
             In (ev_import id')
                ((parse_trace ++ [ev_set_level l; ev_import id]) ++ tr') ->
             List.filter is_import tr' = [] ->
             exists args0 name0 sub0,
               ok args = ok args0 /\
               args0 !! "subcommand" = Some (VStr name0) /\
               lookup_parser registered_subparsers name0 = Some sub0 /\
               defaults sub0 = [("function", VStr id')] /\
               List.filter is_import
                 ((parse_trace ++ [ev_set_level l; ev_import id]) ++ tr')
               = [ev_import id']).
  { intros tr' id' Hin Hnone.
    assert (Hf : List.filter is_import
                   ((parse_trace ++ [ev_set_level l; ev_import id]) ++ tr')
                 = [ev_import id]).
    { rewrite List.filter_app, Hnone. reflexivity. }
    assert (Hin' : In (ev_import id') [ev_import id]).
    { rewrite <- Hf. apply filter_In. split; [exact Hin|reflexivity]. }
    destruct Hin' as [Heq|[]]. injection Heq as <-.
    exists args, name, sub. auto. }
  unfold dispatched.
  destruct (imported (importer id)) as [f|];
    [destruct (raises (f args)); [|destruct (existsb _ _)]|];
    cbn [fst trace moments configured]; unfold parse_moments, setup_moments;
    cbn [map app moment_event at_level]; split;
    try before_by_index.
  - intros id' Hin.
    apply (Hall [ev_call id] id' Hin). reflexivity.
  - intros id' Hin.
    apply (Hall [ev_call id; ev_returned id; ev_read_fired true] id' Hin).
    reflexivity.
  - intros id' Hin.
    apply (Hall [ev_call id; ev_returned id; ev_read_fired false] id' Hin).
    reflexivity.
  - intros id' Hin.
    apply (Hall [] id' Hin). reflexivity.
Qed.

(** ** C8 *)

(** The block the stream handler writes for the final summary. *)
Definition summary_block : Written :=
  log_output ("## CRITICAL" +:+ newline +:+ summary +:+ newline).

(** C8: the stream handler's formatter yields the header ["## "]
    followed by the level name, a newline, and the message; a logging
    call that its logger lets through adds exactly this block, closed
    by the handler's terminator, at the end of the standard error
    stream, and nothing to the standard output; a call that is not let
    through writes nothing; so that the standard error stream of a run
    whose handler was imported holds, in the order of the calls, the
    blocks of the calls let through, and after them nothing but the
    block of the final summary; every block the logging layer writes
    during a run has this form, and none goes to the standard
    output. *)
Theorem C8_two_line_block argv :
  (forall r, format formatter r
             = "## " +:+ levelname (record_level r) +:+ newline +:+ message r) /\
  (forall ll l msg root b err out ms,
     let p := fst (log ll l msg (configured root b err out ms)) in
     stderr p
     = (if enabled root (do_log ll l msg)
        then err ++ [log_output ("## " +:+ levelname l +:+ newline
                                 +:+ msg +:+ newline)]
        else err) /\
     stdout p = out) /\
  (forall args l id f,
     parsed argv = ok args ->
     args !! "log_level" = Some (VStr (levelname l)) ->
     args !! "function" = Some (VStr id) ->
     imported (importer id) = Some f ->
     let blocks :=
       map rendering
         (List.filter (enabled (levelno l))
            (import_effects (importer id) ++ effects (f args))) in
     stderr (fst (run_main argv)) = blocks \/
     stderr (fst (run_main argv)) = blocks ++ [summary_block]) /\
  (forall s, In (log_output s) (stderr (fst (run_main argv))) ->
     exists l msg,
       s = format formatter (mkRecord l msg) +:+ newline /\
       s = "## " +:+ levelname l +:+ newline +:+ msg +:+ newline) /\
  (forall s, ~ In (log_output s) (stdout (fst (run_main argv)))).
Proof.
  assert (Hfmt : forall r, format formatter r
             = "## " +:+ levelname (record_level r) +:+ newline +:+ message r).
  { intros [l msg]. destruct l; reflexivity. }
  assert (Hrender : forall es s,
             In (log_output s) (map rendering es) ->
             exists l msg,
               s = format formatter (mkRecord l msg) +:+ newline /\
               s = "## " +:+ levelname l +:+ newline +:+ msg +:+ newline).
  { intros es s Hin. apply in_map_iff in Hin as ([ll l msg] & Hs & _).
    simpl in Hs. injection Hs as <-. exists l, msg. split; [|reflexivity].
    destruct l; reflexivity. }
  split; [exact Hfmt|]. split; [|split].
  { intros ll l msg root b err out ms. rewrite log_configured.
    cbn [fst stderr stdout configured List.filter].
    destruct (enabled root (do_log ll l msg)); cbn [map rendering];
      rewrite ?app_nil_r; auto. }
  { intros args l id f Hp Hl Hf Hi.
    rewrite (run_dispatched argv args l id Hp Hl Hf).
    unfold dispatched. rewrite Hi.
    destruct (raises (f args)); [|destruct (existsb _ _)];
      cbn [fst stderr configured]; auto. }
  pose proof (run_cases argv) as H.
  destruct (parsed argv) as [args| | |] eqn:Hp.
  - destruct H as (name & sub & r & id & _ & _ & _ & _ & _ & _ & Hrun).
    destruct Hrun as [(l & _ & _ & ->)|(_ & _ & ->)].
    + unfold dispatched.
      destruct (imported (importer id)) as [f|];
        [destruct (raises (f args)); [|destruct (existsb _ _)]|];
        cbn [fst stderr stdout configured];
        (split; [|intros s0 Hin; exact Hin]);
        intros s0 Hin; try (eapply Hrender; exact Hin).
      apply in_app_or in Hin as [Hin|Hin]; [eapply Hrender; exact Hin|].
      apply (Hrender [do_log NOTSET CRITICAL summary]). exact Hin.
    + cbn [fst stderr stdout configured level_rejected].
      split; intros s [].
  - rewrite H. cbn [fst stderr stdout configured]. split.
    + intros s [].
    + intros s [Hin|[]]. discriminate.
  - rewrite H. cbn [fst stderr stdout configured]. split.
    + intros s [].
    + intros s [Hin|[]]. discriminate.
  - rewrite H. cbn [fst stderr stdout configured]. split.
    + intros s [Hin|[]]. discriminate.
    + intros s [].
Qed.

End Process_facts.

(** * Runs at concrete inputs *)

Section Concrete_runs.
Import argparse.

Variable manubot_version : string.

(** A handler that logs one message at [ERROR] through a logger that has
    no level of its own, such as [logging.error] or a module logger, and
    returns. *)
Definition error_logging_importer : string -> Imported :=
  fun _ => mkImported []
             (Some (fun _ => mkBehaviour [do_log NOTSET ERROR "boom"] None)).

(** ** C1 *)

(** C1, at [--log-level CRITICAL]: the handler logs an ERROR message and
    returns, yet [fired] is read as false, no summary is written, main
    returns and the exit status is 0, because the root logger, set to
    CRITICAL, drops the record before any handler sees it. *)
Theorem C1_error_dropped_at_critical_level :
  let r := run manubot_version error_logging_importer
             [Arg "cite"; Opt "--log-level" None; Arg "CRITICAL"; Arg "k"] in
  snd r = returned tt /\
  exit_status (snd r) = 0 /\
  stderr (fst r) = [] /\
  root_handlers (fst r)
  = [ErrorHandler (levelno ERROR) false; StreamHandler NOTSET formatter] /\
  In (ev_read_fired false) (trace (fst r)).
Proof. vm_compute. repeat split; auto 20. Qed.

(** ** C3 *)

(** C3, on two runs that differ in [--log-level] only: with the same
    handler logging the same ERROR message, the exit status is 1 at
    WARNING and 0 at CRITICAL. *)
Theorem C3_exit_status_depends_on_log_level :
  exit_status
    (snd (run manubot_version error_logging_importer
            [Arg "cite"; Opt "--log-level" None; Arg "WARNING"; Arg "k"])) = 1 /\
  exit_status
    (snd (run manubot_version error_logging_importer
            [Arg "cite"; Opt "--log-level" None; Arg "CRITICAL"; Arg "k"])) = 0.
Proof. vm_compute. split; reflexivity. Qed.

End Concrete_runs.

(** * The options of the sub-commands *)

Section Parser_claims.
Import argparse argparse_facts option_facts.
Local Open Scope result_scope.

Variable manubot_version : string.
Variable importer : string -> Imported.

Abbreviation top := (top_parser manubot_version).
Abbreviation parsed := (parsed_arguments manubot_version).
Abbreviation run_main := (run manubot_version importer).

(** ** C5 *)







(** ** C10 *)

Definition webpage_parser : ArgumentParser :=
  from_option id ArgumentParser_
    (lookup_parser registered_subparsers "webpage").







(** ** The format group of the cite sub-command (C6, C9) *)

Definition cite_parser : ArgumentParser :=
  from_option id ArgumentParser_ (lookup_parser registered_subparsers "cite").

Definition format_group : list string := ["--format"; "--yml"; "--txt"; "--md"].

Definition format_choices : list string :=
  ["csljson"; "cslyaml"; "plain"; "markdown"; "docx"; "html"; "jats"].

Definition format_action : Action :=
  in_group 0 (make_action "--format" [kw_choices format_choices]).

Definition alias_action (o c : string) : Action :=
  in_group 0 (make_action o [kw_dest "format"; kw_action "store_const";
                             kw_const (VStr c)]).

Definition aliases : list (string * string) :=
  [("--yml", "cslyaml"); ("--txt", "plain"); ("--md", "markdown")].

Lemma cite_dash_help : single_dash_help cite_parser.
Proof. apply single_dash_helpb_spec. vm_compute. reflexivity. Qed.

(** The group option that has been given, if any, is the one recorded in
    both [seen_actions] and [seen_non_default_actions]. *)
Definition owner_inv (o : option string) (seen nondefault : list string) : Prop :=
  (forall g, o = Some g -> In g format_group) /\
  (forall g, In g format_group -> (In g seen <-> o = Some g)) /\
  (forall g, In g format_group -> (In g nondefault <-> o = Some g)).

(** What [format] holds, by the group option given, on the command
    line [ws]. *)
Definition format_value (ws : list Word) (o : option string) (n : Namespace)
  : Prop :=
  match o with
  | None => n !! "format" = Some VNone
  | Some g =>
      (g = "--format" /\
       ((exists v, n !! "format" = Some (VStr v) /\ In v format_choices) \/
        (n !! "format" = Some (VList []) /\
         In (Opt "--format" (Some "--")) ws))) \/
      (exists c, In (g, c) aliases /\ n !! "format" = Some (VStr c))
  end.

Definition format_inv (ws : list Word) (n : Namespace)
    (seen nondefault : list string) : Prop :=
  exists o, owner_inv o seen nondefault /\ format_value ws o n.

Lemma cite_actions a :
  In a (actions cite_parser) ->
  a = format_action \/
  (exists o c, In (o, c) aliases /\ a = alias_action o c) \/
  (dest a <> Some "format" /\ ~ In (action_name a) format_group).
Proof.
  assert (H : forallb (fun a =>
                bool_decide (a = format_action)
                || existsb (fun oc => bool_decide (a = alias_action (fst oc) (snd oc)))
                           aliases
                || (bool_decide (dest a <> Some "format")
                    && bool_decide (~ In (action_name a) format_group)))
              (actions cite_parser) = true) by (vm_compute; reflexivity).
  rewrite forallb_forall in H. intros Ha. apply H in Ha.
  apply orb_prop in Ha as [Ha|Ha]; [apply orb_prop in Ha as [Ha|Ha]|].
  - left. apply bool_decide_eq_true in Ha. exact Ha.
  - right. left. apply existsb_exists in Ha as ([o c] & Hin & Ha).
    apply bool_decide_eq_true in Ha. eauto.
  - right. right. apply andb_prop in Ha as [Ha1 Ha2].
    apply bool_decide_eq_true in Ha1, Ha2. auto.
Qed.

(** Each option of the group conflicts with the three others. *)
Lemma cite_conflicts g a :
  In g format_group -> lookup_option cite_parser g = Some a ->
  action_name a = g /\
  forall h, In h format_group -> h <> g -> In h (conflicts cite_parser a).
Proof.
  unfold format_group. simpl.
  intros [<-|[<-|[<-|[<-|[]]]]] Hl; vm_compute in Hl; injection Hl as <-;
    (split; [reflexivity|]);
    intros h [<-|[<-|[<-|[<-|[]]]]] Hne; try congruence;
    vm_compute; auto 10.
Qed.

Lemma cite_group_lookup g :
  In g format_group ->
  exists a, lookup_option cite_parser g = Some a /\
            (a = format_action \/
             exists c, In (g, c) aliases /\ a = alias_action g c).
Proof.
  unfold format_group. simpl.
  intros [<-|[<-|[<-|[<-|[]]]]]; eexists; (split; [vm_compute; reflexivity|]).
  - left. reflexivity.
  - right. exists "cslyaml". split; [simpl; auto|reflexivity].
  - right. exists "plain". split; [simpl; auto|reflexivity].
  - right. exists "markdown". split; [simpl; auto|reflexivity].
Qed.

Lemma owner_step_other o seen nondefault x :
  owner_inv o seen nondefault -> ~ In x format_group ->
  owner_inv o (seen ++ [x]) nondefault /\
  owner_inv o (seen ++ [x]) (nondefault ++ [x]).
Proof.
  intros (Ho & Hs & Hn) Hx.
  assert (Happ : forall l g, In g format_group ->
                             (In g (l ++ [x]) <-> In g l)).
  { intros l g Hg. rewrite in_app_iff. simpl. split; [|auto].
    intros [H|[H|[]]]; [exact H|]. subst x. contradiction. }
  split; (split; [exact Ho|]); split; intros g Hg;
    rewrite ?Happ by exact Hg; auto.
Qed.

Lemma owner_step_group o seen nondefault g :
  owner_inv o seen nondefault -> In g format_group ->
  (forall h, In h format_group -> h <> g -> ~ In h nondefault) ->
  owner_inv (Some g) (seen ++ [g]) (nondefault ++ [g]) /\
  (o = None \/ o = Some g).
Proof.
  intros (Hgroup & Hs & Hn) Hg Hfree.
  assert (Ho : o = None \/ o = Some g).
  { destruct o as [h|]; [|auto]. right.
    destruct (string_dec h g) as [->|Hne]; [reflexivity|].
    exfalso. assert (Hh : In h format_group) by auto.
    apply (Hfree h Hh Hne). apply Hn; auto. }
  split; [|exact Ho].
  split; [intros h Hh; injection Hh as <-; exact Hg|].
  split; intros h Hh; rewrite in_app_iff; simpl; split.
  - intros [H|[H|[]]]; [|congruence].
    apply Hs in H; [|exact Hh]. destruct Ho; congruence.
  - intros H. injection H as ->. auto.
  - intros [H|[H|[]]]; [|congruence].
    apply Hn in H; [|exact Hh]. destruct Ho; congruence.
  - intros H. injection H as ->. auto.
Qed.

Lemma format_value_other ws o n n' :
  n' !! "format" = n !! "format" -> format_value ws o n -> format_value ws o n'.
Proof. unfold format_value. intros ->. auto. Qed.

(** A group option that is taken becomes the owner of [format]. *)
Lemma format_step_group ws g a st st' n' :
  In g format_group -> lookup_option cite_parser g = Some a ->
  holds (format_inv ws) st ->
  seen_actions st' = seen_actions st ++ [action_name a] ->
  seen_non_default_actions st'
  = seen_non_default_actions st ++ [action_name a] ->
  (forall c, In c (conflicts cite_parser a) ->
             ~ In c (seen_non_default_actions st)) ->
  ns st' = n' -> format_value ws (Some g) n' ->
  holds (format_inv ws) st'.
Proof.
  unfold holds, format_inv. intros Hg Hl (o & Ho & _) Hs Hn Hfree Hns Hv.
  destruct (cite_conflicts g a Hg Hl) as [Hname Hconf].
  rewrite Hname in *.
  destruct (owner_step_group o _ _ g Ho Hg) as [Ho' _].
  { intros h Hh Hne. apply Hfree. apply Hconf; auto. }
  exists (Some g). rewrite Hs, Hn, Hns. auto.
Qed.

(** The value [--format] is handed: one of the choices, or the empty
    list for the explicit argument [--]. *)
Lemma format_taken ws args v d :
  taken cite_parser ws format_action args ->
  get_values format_action args = ok (v, d) ->
  d = false /\
  ((exists s, v = VStr s /\ In s format_choices) \/
   (v = VList [] /\ In (Opt "--format" (Some "--")) ws)).
Proof.
  intros Hf Hv.
  destruct Hf as [run n Hpos _ _|o Hfol Hl [Hno Hf]|o e Hin Hl _ ->].
  - discriminate Hpos.
  - destruct Hf as [s ->].
    assert (Hs : s <> "--") by (intros ->; apply Hno; left; reflexivity).
    apply get_values_word in Hv as (-> & -> & Hc); [|left; reflexivity|exact Hs].
    split; [reflexivity|]. left. exists s. split; [reflexivity|].
    apply Hc. reflexivity.
  - apply (lookup_option_single _ _ _ "--format") in Hl; [subst o|reflexivity].
    destruct (string_dec e "--") as [->|Hne].
    + apply get_values_dashes in Hv as [-> ->]; [|left; reflexivity]. auto.
    + apply get_values_word in Hv as (-> & -> & Hc);
        [|left; reflexivity|exact Hne].
      split; [reflexivity|]. left. exists e. split; [reflexivity|].
      apply Hc. reflexivity.
Qed.

(** An alias flag is taken without a word. *)
Lemma alias_taken ws o c args v d :
  In (o, c) aliases ->
  taken cite_parser ws (alias_action o c) args ->
  get_values (alias_action o c) args = ok (v, d) ->
  d = false.
Proof.
  intros Hoc Hf Hv.
  assert (Hshape : option_strings (alias_action o c) = [o] /\
                   nargs (alias_action o c) = N_zero).
  { simpl in Hoc. destruct Hoc as [H|[H|[H|[]]]]; injection H as <- <-;
      split; reflexivity. }
  destruct Hshape as [Ho Hn].
  destruct Hf as [run n Hpos _ _|o' Hfol Hl [Hno Hf]|o' e Hin Hl Hnz ->].
  - rewrite Ho in Hpos. discriminate.
  - rewrite Hn in Hf. subst args. unfold get_values in Hv.
    rewrite Hn in Hv. cbn in Hv. injection Hv as _ <-. reflexivity.
  - contradiction.
Qed.

Lemma format_step ws a args st st' :
  In a (actions cite_parser) -> taken cite_parser ws a args ->
  take_action cite_parser a args st = ok st' ->
  holds (format_inv ws) st -> holds (format_inv ws) st'.
Proof.
  intros Ha Hf Ht Hinv.
  destruct (cite_actions a Ha) as [->|[(o & c & Hoc & ->)|[Hd Hn]]].
  - apply take_action_ok in Ht as (v & d & n' & Hv & Hc & Hns & Hs & _ & _ & Hd).
    destruct (format_taken ws args v d Hf Hv) as [-> Hval].
    destruct Hd as [Hnd Hfree].
    injection Hc as <-.
    eapply (format_step_group ws "--format" format_action); eauto.
    + unfold format_group. simpl. auto.
    + left. split; [reflexivity|].
      rewrite lookup_insert_eq.
      destruct Hval as [(s & -> & Hin)|[-> Hin]]; [left|right]; eauto.
  - apply take_action_ok in Ht as (v & d & n' & Hv & Hc & Hns & Hs & _ & _ & Hd).
    assert (Hg : In o format_group /\
                 lookup_option cite_parser o = Some (alias_action o c)).
    { simpl in Hoc. destruct Hoc as [H|[H|[H|[]]]]; injection H as <- <-;
        (split; [unfold format_group; simpl; auto|vm_compute; reflexivity]). }
    destruct Hg as [Hg Hl].
    rewrite (alias_taken ws o c args v d Hoc Hf Hv) in Hd.
    destruct Hd as [Hnd Hfree].
    assert (Hn' : n' = <["format" := VStr c]> (ns st)).
    { simpl in Hoc. destruct Hoc as [H|[H|[H|[]]]]; injection H as <- <-;
        injection Hc as <-; reflexivity. }
    eapply (format_step_group ws o (alias_action o c)); eauto.
    right. exists c. split; [exact Hoc|]. rewrite Hn'.
    apply lookup_insert_eq.
  - pose proof (take_action_other _ _ _ _ _ "format" Ht Hd) as Hsame.
    apply take_action_ok in Ht as (v & d & n' & _ & _ & _ & Hs & _ & _ & Hnd).
    unfold holds, format_inv in *. destruct Hinv as (o & Ho & Hv).
    exists o. rewrite Hs.
    destruct (owner_step_other o _ _ _ Ho Hn) as [Ho1 Ho2].
    split; [|eapply format_value_other; eauto].
    destruct d; [rewrite Hnd|destruct Hnd as [-> _]]; assumption.
Qed.

Lemma cite_parse_words ws st :
  parse_words cite_parser ws = ok st ->
  exists o, owner_inv o (seen_actions st) (seen_non_default_actions st) /\
            format_value ws o (ns st).
Proof.
  intros Hw.
  apply (parse_words_inv cite_parser ws (format_inv ws) st cite_dash_help
           (format_step ws) Hw).
  exists None. split; [|vm_compute; reflexivity].
  split; [discriminate|]. split; intros g _; simpl; split;
    intros H; try contradiction; discriminate.
Qed.

(** An option of the group is in [seen_actions] exactly when one of the
    words is that option. *)
Lemma cite_seen_group ws st g :
  parse_words cite_parser ws = ok st -> In g format_group ->
  (In g (seen_actions st) <-> exists e, In (Opt g e) ws).
Proof.
  intros Hw Hg. apply (parse_words_seen _ cite_dash_help) in Hw as [Hin Hfrom].
  split.
  - intros Hseen.
    destruct (Hfrom g Hseen) as [(o & e & a & Hw & Hl & Hname)|(a & Ha & Hname)].
    + assert (Ha : In a (actions cite_parser))
        by (eapply lookup_option_declared; eauto).
      apply lookup_option_strings in Hl.
      destruct (cite_actions a Ha) as [->|[(o' & c & Hoc & ->)|[_ Hn]]].
      * destruct Hl as [<-|[]]. subst g. eauto.
      * assert (Hopt : option_strings (alias_action o' c) = [o'] /\
                       action_name (alias_action o' c) = o').
        { simpl in Hoc. destruct Hoc as [H|[H|[H|[]]]]; injection H as <- <-;
            split; reflexivity. }
        destruct Hopt as [Hopt Hname']. rewrite Hopt in Hl.
        destruct Hl as [<-|[]]. rewrite Hname' in Hname. subst g. eauto.
      * subst g. contradiction.
    + unfold initial_state in Ha. cbn [positionals] in Ha.
      apply filter_In in Ha as [Ha Hpos].
      destruct (cite_actions a Ha) as [->|[(o' & c & Hoc & ->)|[_ Hn]]].
      * discriminate.
      * simpl in Hoc. destruct Hoc as [H|[H|[H|[]]]]; injection H as <- <-;
          discriminate.
      * subst g. contradiction.
  - intros [e He].
    destruct (cite_group_lookup g Hg) as (a & Hl & _).
    destruct (cite_conflicts g a Hg Hl) as [Hname _].
    rewrite <- Hname. eapply Hin; eauto.
Qed.

Lemma cite_parsed r args :
  parsed (Arg "cite" :: r) = ok args ->
  exists st,
    parse_words cite_parser r = ok st /\
    args !! "format" = ns st !! "format".
Proof.
  intros Hp.
  apply parsed_ok in Hp
    as (name & sub & r' & st & st' & Heq & Hsub & _ & _ & Hw & Hf & _ & ->).
  injection Heq as <- <-.
  change (lookup_parser registered_subparsers "cite")
    with (Some cite_parser) in Hsub. injection Hsub as <-.
  exists st. split; [exact Hw|].
  assert (Hfin : ns st' !! "format" = ns st !! "format").
  { eapply finish_lookup; [exact Hf|]. intros a Ha Hd.
    destruct (cite_actions a Ha) as [->|[(o & c & Hoc & ->)|[Hd' _]]].
    - discriminate.
    - simpl in Hoc. destruct Hoc as [H|[H|[H|[]]]]; injection H as <- <-;
        discriminate.
    - contradiction. }
  rewrite <- Hfin. unfold with_subcommand.
  destruct (ns st' !! "format") as [x|] eqn:Hx.
  - apply lookup_union_Some_l. exact Hx.
  - rewrite lookup_union_r by exact Hx.
    rewrite lookup_insert_ne by discriminate. reflexivity.
Qed.

(** ** C9 *)

(** C9: for a cite command line that parses, [format] is one field
    whose value is None, or one of the seven format names, or the
    empty list that only the word [--format=--] leaves; it is None when
    no option of the group is given, and each alias flag stores its own
    constant under the same key [format]: cslyaml for [--yml], plain
    for [--txt], markdown for [--md]. *)
Theorem C9_cite_format r args :
  parsed (Arg "cite" :: r) = ok args ->
  (forall o c, In (o, c) aliases ->
     exists a, lookup_option cite_parser o = Some a /\
               dest a = Some "format" /\ kind a = store_const /\
               const a = VStr c /\ default a = Some VNone) /\
  (exists x, args !! "format" = Some x /\
             (x = VNone \/
              (exists s, x = VStr s /\ In s format_choices) \/
              (x = VList [] /\ In (Opt "--format" (Some "--")) r))) /\
  ((forall g e, In g format_group -> ~ In (Opt g e) r) ->
   args !! "format" = Some VNone) /\
  (forall o c e, In (o, c) aliases -> In (Opt o e) r ->
                 args !! "format" = Some (VStr c)).
Proof.
  intros Hp.
  destruct (cite_parsed r args Hp) as (st & Hw & ->).
  destruct (cite_parse_words r st Hw) as (o & (Hgroup & Hseen & Hnd) & Hv).
  assert (Halias : forall g c, In (g, c) aliases ->
            In g format_group /\ g <> "--format" /\ In c format_choices /\
            forall c', In (g, c') aliases -> c' = c).
  { intros g c Hgc. simpl in Hgc.
    destruct Hgc as [H|[H|[H|[]]]]; injection H as <- <-;
      (split; [unfold format_group; simpl; auto|]);
      (split; [discriminate|]);
      (split; [unfold format_choices; simpl; auto 10|]);
      intros c' Hc'; simpl in Hc';
      destruct Hc' as [H|[H|[H|[]]]]; congruence. }
  split; [|split; [|split]].
  - intros g c Hgc. simpl in Hgc.
    destruct Hgc as [H|[H|[H|[]]]]; injection H as <- <-;
      eexists; (split; [vm_compute; reflexivity|]); repeat split.
  - destruct o as [g|]; simpl in Hv.
    + destruct Hv as [(_ & [(v & Hx & Hin)|[Hx Hin]])|(c & Hgc & Hx)].
      * exists (VStr v). eauto 10.
      * exists (VList []). auto.
      * exists (VStr c). split; [exact Hx|]. right. left. exists c.
        split; [reflexivity|]. apply (Halias g c Hgc).
    + exists VNone. auto.
  - intros Hno. destruct o as [g|]; [|exact Hv]. exfalso.
    assert (Hg : In g format_group) by auto.
    assert (Hin : In g (seen_actions st)) by (apply Hseen; auto).
    apply (cite_seen_group r st g Hw Hg) in Hin as [e He].
    exact (Hno g e Hg He).
  - intros g c e Hgc He.
    destruct (Halias g c Hgc) as (Hg & Hne & _ & Huniq).
    assert (Hin : In g (seen_actions st))
      by (apply (cite_seen_group r st g Hw Hg); eauto).
    apply Hseen in Hin; [|exact Hg]. subst o. simpl in Hv.
    destruct Hv as [(Heq & _)|(c' & Hgc' & Hx)]; [contradiction|].
    rewrite Hx, (Huniq c' Hgc'). reflexivity.
Qed.

(** ** C6 *)











End Parser_claims.

(** * Instances at concrete command lines *)

Import argparse argparse_facts option_facts.

(** An importer whose handlers log below [ERROR] only, and return. *)
Definition quiet_importer : string -> Imported :=
  fun _ => mkImported [do_log NOTSET INFO "importing"]
             (Some (fun _ => mkBehaviour
                               [do_log NOTSET DEBUG "details";
                                do_log NOTSET WARNING "take care"] None)).

Lemma C2_no_error_exit_zero_witness :
  snd (run "1.0" quiet_importer [Arg "cite"; Arg "doi:10.1/x"]) = returned tt /\
  exit_status (snd (run "1.0" quiet_importer [Arg "cite"; Arg "doi:10.1/x"])) = 0.
Proof.
  destruct (is_ok_fields
              (parsed_arguments "1.0" [Arg "cite"; Arg "doi:10.1/x"]))
    as (args & Hp & Hk); [vm_compute; reflexivity|].
  destruct (C2_no_error_exit_zero "1.0" quiet_importer
              [Arg "cite"; Arg "doi:10.1/x"] args
              "manubot.cite.cite_command.cli_cite"
              (fun _ => mkBehaviour [do_log NOTSET DEBUG "details";
                                     do_log NOTSET WARNING "take care"] None))
    as [H _].
  - exact Hp.
  - rewrite Hk. vm_compute. reflexivity.
  - reflexivity.
  - unfold quiet_importer. cbn [import_effects effects app].
    repeat (apply List.Forall_cons; [cbn [effect_level In]; auto|]).
    apply List.Forall_nil.
  - apply H. vm_compute. auto 20.
Defined.




Lemma C9_cite_format_witness :
  exists args,
    parsed_arguments "1.0" [Arg "cite"; Opt "--yml" None; Arg "k"] = ok args /\
    args !! "format" = Some (VStr "cslyaml").
Proof.
  destruct (is_ok_ex
              (parsed_arguments "1.0" [Arg "cite"; Opt "--yml" None; Arg "k"]))
    as (args & Hp); [vm_compute; reflexivity|].
  exists args. split; [exact Hp|].
  destruct (C9_cite_format "1.0" _ args Hp) as (_ & _ & _ & H).
  apply (H "--yml" "cslyaml" None); left; reflexivity.
Defined.


(** * Further properties of the dispatcher *)

Section Dispatcher_paths.

Variable manubot_version : string.
Variable importer : string -> Imported.

Abbreviation parsed := (parsed_arguments manubot_version).
Abbreviation run_main := (run manubot_version importer).

(** A call that reaches the error handler when the root logger is at
    level [l]: it is of level ERROR or above, and the level of its
    logger, or the root logger's when it has none, lets it through. *)
Definition reaches_error_handler (l : Level) (e : Effect) : Prop :=
  match e with
  | do_log ll lv _ =>
      levelno ERROR <= levelno lv /\
      (if ll =? NOTSET then levelno l else ll) <= levelno lv
  end.

Lemma fires_reaches l e :
  fires (levelno l) e = true <-> reaches_error_handler l e.
Proof.
  destruct e as [ll lv msg]. unfold fires, enabled, reaches_error_handler.
  cbn [effect_level]. rewrite andb_true_iff, !Z.leb_le. tauto.
Qed.

Lemma existsb_fires l es :
  existsb (fires (levelno l)) es = true
  <-> exists e, In e es /\ reaches_error_handler l e.
Proof.
  rewrite existsb_exists. split; intros (e & Hin & He); exists e;
    (split; [exact Hin|]); apply fires_reaches; exact He.
Qed.

(** X1: a command line that does not parse ends the run inside
    [parse_arguments], through [SystemExit] with status 2 for a parser
    error and status 0 after help or version; the root logger keeps its
    level, nothing is imported, called or logged, the error handler has
    not fired, and the parser's message is all that was written. *)
Theorem X1_no_parse_no_dispatch argv :
  (forall args, parsed argv <> ok args) ->
  exists code w,
    snd (run_main argv) = raised (SystemExit code) /\
    (code = 2 /\ (exists e, parsed argv = error e /\ w = argparse_error e) /\
       stderr (fst (run_main argv)) = [w] /\ stdout (fst (run_main argv)) = []
     \/
     code = 0 /\ (parsed argv = exit_help /\ w = argparse_help \/
                  exists v, parsed argv = exit_version v /\ w = argparse_version v) /\
       stderr (fst (run_main argv)) = [] /\ stdout (fst (run_main argv)) = [w]) /\
    trace (fst (run_main argv)) = parse_trace /\
    root_level (fst (run_main argv)) = levelno WARNING /\
    root_handlers (fst (run_main argv))
    = [ErrorHandler (levelno ERROR) false; StreamHandler NOTSET formatter].
Proof.
  intros Hno. pose proof (run_not_parsed manubot_version importer argv) as H.
  destruct (parsed argv) as [args| |v|e] eqn:Hp.
  - exfalso. exact (Hno args eq_refl).
  - exists 0, argparse_help. rewrite H. cbn. repeat split. right. auto 10.
  - exists 0, (argparse_version v). rewrite H. cbn. repeat split.
    right. repeat split; eauto.
  - exists 2, (argparse_error e). rewrite H. cbn. repeat split.
    left. repeat split; eauto.
Qed.

(** X2: when importing the selected handler fails, the exception leaves
    [main] (exit status 1): no handler is called, [fired] is never read,
    and the standard error stream holds exactly the blocks of the calls
    made during the import that the parsed level lets through. *)
Theorem X2_import_failure argv args l id :
  parsed argv = ok args ->
  args !! "log_level" = Some (VStr (levelname l)) ->
  args !! "function" = Some (VStr id) ->
  imported (importer id) = None ->
  (exists e, snd (run_main argv) = raised (Exception e)) /\
  exit_status (snd (run_main argv)) = 1 /\
  trace (fst (run_main argv)) = parse_trace ++ [ev_set_level l; ev_import id] /\
  stderr (fst (run_main argv))
  = map rendering (List.filter (enabled (levelno l))
                     (import_effects (importer id))).
Proof.
  intros Hp Hl Hf Hi.
  rewrite (run_dispatched manubot_version importer argv args l id Hp Hl Hf).
  unfold dispatched. rewrite Hi. cbn. eauto.
Qed.


(** X4: when the handler returns, the exit status is 1 exactly when some
    call made during the import or by the handler reached the error
    handler, and 0 otherwise. *)
Theorem X4_exit_status_rule argv args l id f :
  parsed argv = ok args ->
  args !! "log_level" = Some (VStr (levelname l)) ->
  args !! "function" = Some (VStr id) ->
  imported (importer id) = Some f ->
  raises (f args) = None ->
  let es := import_effects (importer id) ++ effects (f args) in
  (exit_status (snd (run_main argv)) = 1
   <-> exists e, In e es /\ reaches_error_handler l e) /\
  (exit_status (snd (run_main argv)) = 0
   <-> forall e, In e es -> ~ reaches_error_handler l e).
Proof.
  intros Hp Hl Hf Hi Hr es.
  rewrite (run_dispatched manubot_version importer argv args l id Hp Hl Hf).
  unfold dispatched. rewrite Hi, Hr. fold es.
  pose proof (existsb_fires l es) as Hex.
  destruct (existsb (fires (levelno l)) es); cbn.
  - split; split; try discriminate; try tauto.
    intros Hnone. destruct Hex as [Hex _].
    destruct (Hex eq_refl) as (e & Hin & He). exfalso. exact (Hnone e Hin He).
  - split; split; try discriminate; try tauto.
    + intros He. apply Hex in He. discriminate.
    + intros _ e Hin He.
      assert (false = true) by (apply Hex; eauto). discriminate.
Qed.

(** X5: the exit with status 1 is announced: the last thing on the
    standard error stream is the CRITICAL summary block, after the
    blocks of the calls that the parsed level let through, whatever
    that level is; a run that returns writes no such extra block. *)
Theorem X5_summary_closes_stderr argv args l id f :
  parsed argv = ok args ->
  args !! "log_level" = Some (VStr (levelname l)) ->
  args !! "function" = Some (VStr id) ->
  imported (importer id) = Some f ->
  raises (f args) = None ->
  let es := import_effects (importer id) ++ effects (f args) in
  let blocks := map rendering (List.filter (enabled (levelno l)) es) in
  (snd (run_main argv) = raised (SystemExit 1) /\
   stderr (fst (run_main argv)) = blocks ++ [summary_block]) \/
  (snd (run_main argv) = returned tt /\
   stderr (fst (run_main argv)) = blocks).
Proof.
  intros Hp Hl Hf Hi Hr es blocks.
  rewrite (run_dispatched manubot_version importer argv args l id Hp Hl Hf).
  unfold dispatched. rewrite Hi, Hr. fold es. fold blocks.
  destruct (existsb (fires (levelno l)) es); cbn; [left|right]; auto.
Qed.

(** X6: without [--log-level] on the command line, one ERROR call
    through a logger that has no level of its own, made by a handler
    that then returns, gives exit status 1. *)
Theorem X6_error_at_default_level argv args id f msg :
  parsed argv = ok args ->
  (forall e, ~ In (Opt "--log-level" e) argv) ->
  args !! "function" = Some (VStr id) ->
  imported (importer id) = Some f ->
  raises (f args) = None ->
  In (do_log NOTSET ERROR msg) (effects (f args)) ->
  snd (run_main argv) = raised (SystemExit 1) /\
  exit_status (snd (run_main argv)) = 1.
Proof.
  intros Hp Hno Hf Hi Hr Hin.
  pose proof (run_cases manubot_version importer argv) as H. rewrite Hp in H.
  destruct H as (name & sub & r & id' & -> & _ & _ & _ & _ & Hf' & Hrun).
  rewrite Hf in Hf'. injection Hf' as <-.
  destruct Hrun as [(l & _ & Hw & ->)|(_ & Hd & _)];
    [|exfalso; apply (Hno (Some "--")); right; exact Hd].
  rewrite Hw by (intros e He; apply (Hno e); right; exact He).
  unfold dispatched. rewrite Hi, Hr.
  assert (Hex : existsb (fires (levelno WARNING))
                  (import_effects (importer id) ++ effects (f args)) = true).
  { apply existsb_exists. exists (do_log NOTSET ERROR msg).
    split; [apply in_or_app; right; exact Hin|reflexivity]. }
  rewrite Hex. cbn. auto.
Qed.

(** X7: a CRITICAL call through a logger that has no level of its own
    cannot be silenced from the command line: if the handler returns
    after it, the exit status is 1 at every level that [--log-level]
    can name. *)
Theorem X7_critical_at_every_level argv args l id f msg :
  parsed argv = ok args ->
  args !! "log_level" = Some (VStr (levelname l)) ->
  args !! "function" = Some (VStr id) ->
  imported (importer id) = Some f ->
  raises (f args) = None ->
  In (do_log NOTSET CRITICAL msg)
     (import_effects (importer id) ++ effects (f args)) ->
  snd (run_main argv) = raised (SystemExit 1) /\
  In (rendering (do_log NOTSET CRITICAL msg)) (stderr (fst (run_main argv))).
Proof.
  intros Hp Hl Hf Hi Hr Hin.
  rewrite (run_dispatched manubot_version importer argv args l id Hp Hl Hf).
  unfold dispatched. rewrite Hi, Hr.
  assert (Hen : enabled (levelno l) (do_log NOTSET CRITICAL msg) = true)
    by (destruct l; reflexivity).
  assert (Hex : existsb (fires (levelno l))
                  (import_effects (importer id) ++ effects (f args)) = true).
  { apply existsb_exists. exists (do_log NOTSET CRITICAL msg).
    split; [exact Hin|]. unfold fires. rewrite Hen. reflexivity. }
  rewrite Hex. cbn [fst snd stderr configured]. split; [reflexivity|].
  apply in_or_app. left. apply in_map. apply filter_In. auto.
Qed.

End Dispatcher_paths.

(** * The two helpers of [main], on any process *)

Section Helpers_anywhere.

(** X8: whatever handlers the root logger already has,
    [setup_logging_and_errors] appends two, the error handler (level
    ERROR, not fired) and then the stream handler with the two-line
    format; the reference it returns is to that error handler; it
    redirects warnings to logging and leaves the root logger's level and
    both streams as they were. *)
Theorem X8_setup_appends_two_handlers p :
  let r := setup_logging_and_errors p in
  snd r = returned (mkDiagnostics (length (root_handlers p))) /\
  root_handlers (fst r)
  = root_handlers p
    ++ [ErrorHandler (levelno ERROR) false; StreamHandler NOTSET formatter] /\
  nth_error (root_handlers (fst r)) (length (root_handlers p))
  = Some (ErrorHandler (levelno ERROR) false) /\
  root_level (fst r) = root_level p /\
  warnings_captured (fst r) = true /\
  stderr (fst r) = stderr p /\
  stdout (fst r) = stdout p /\
  trace (fst r) = trace p ++ setup_trace.
Proof.
  destruct p as [lv hs wc err out ms]. cbn.
  rewrite <- !app_assoc. cbn. repeat split.
  - rewrite nth_error_app2 by lia. rewrite Nat.sub_diag. reflexivity.
  - unfold trace. cbn. rewrite !map_app. reflexivity.
Qed.

(** X9: [exit_if_error_handler_fired] on a reference to an error
    handler: if the handler has not fired it returns and leaves the
    handlers and both streams alone; if it has, it raises
    [SystemExit(1)], and the summary it logs before that reaches the
    handlers only when the root logger's level admits CRITICAL. *)
Theorem X9_exit_if_error_handler_fired p h lv b :
  nth_error (root_handlers p) h = Some (ErrorHandler lv b) ->
  let r := exit_if_error_handler_fired h p in
  snd r = (if b then raised (SystemExit 1) else returned tt) /\
  trace (fst r) = trace p ++ [ev_read_fired b] /\
  root_level (fst r) = root_level p /\
  stdout (fst r) = stdout p /\
  (b = false \/ levelno CRITICAL < root_level p ->
   stderr (fst r) = stderr p /\ root_handlers (fst r) = root_handlers p).
Proof.
  intros Hh. destruct p as [root hs wc err out ms]. cbn in Hh.
  unfold exit_if_error_handler_fired, errorhandler.fired, bindM, get_process.
  cbn [root_handlers]. rewrite Hh. cbn.
  assert (Htr : forall e, map moment_event (happened e (mkProcess root hs wc err out ms))
                          = map moment_event ms ++ [e]).
  { intros e. unfold happened. cbn. rewrite map_app. reflexivity. }
  destruct b; cbn.
  - unfold logging_critical, log. cbn.
    destruct (root <=? 50) eqn:Hle; cbn; unfold trace; cbn;
      (split; [reflexivity|]); (split; [apply Htr|]);
      (split; [reflexivity|]); (split; [reflexivity|]);
      intros [H|H]; try discriminate; try (split; reflexivity).
    apply Z.leb_le in Hle. lia.
  - unfold trace. cbn.
    split; [reflexivity|]. split; [apply Htr|]. split; [reflexivity|].
    split; [reflexivity|]. intros _. split; reflexivity.
Qed.

(** X10: the root logger's level at the end of a run is the parsed
    [--log-level] when the command line parsed, and is still WARNING
    when it did not. *)
Theorem X10_root_level_after_run manubot_version importer argv :
  root_level (fst (run manubot_version importer argv))
  = match parsed_arguments manubot_version argv with
    | ok args =>
        match args !! "log_level" with
        | Some (VStr s) => from_option levelno (levelno WARNING) (getattr_level s)
        | _ => levelno WARNING
        end
    | _ => levelno WARNING
    end.
Proof.
  pose proof (run_cases manubot_version importer argv) as H.
  destruct (parsed_arguments manubot_version argv) as [args| | |] eqn:Hp;
    try (rewrite H; reflexivity).
  destruct H as (name & sub & r & id & _ & _ & _ & _ & _ & _ & Hrun).
  destruct Hrun as [(l & Hl & _ & ->)|(Hl & _ & ->)]; rewrite Hl;
    [|reflexivity].
  assert (Hg : getattr_level (levelname l) = Some l) by (destruct l; reflexivity).
  rewrite Hg. unfold dispatched.
  destruct (imported (importer id)) as [f|];
    [destruct (raises (f args)); [|destruct (existsb _ _)]|]; reflexivity.
Qed.

End Helpers_anywhere.

(** * The remaining options of the sub-commands *)

Section Subcommand_options.
Import argparse argparse_facts option_facts.
Local Open Scope result_scope.

Variable manubot_version : string.
Variable importer : string -> Imported.

Abbreviation top := (top_parser manubot_version).
Abbreviation parsed := (parsed_arguments manubot_version).
Abbreviation run_main := (run manubot_version importer).

Definition process_parser : ArgumentParser :=
  from_option id ArgumentParser_ (lookup_parser registered_subparsers "process").

Definition airevision_parser : ArgumentParser :=
  from_option id ArgumentParser_
    (lookup_parser registered_subparsers "ai-revision").

Definition aicite_parser : ArgumentParser :=
  from_option id ArgumentParser_ (lookup_parser registered_subparsers "ai-cite").

Lemma option_parsed name sub a0 k o0 d0 r args :
  lookup_parser registered_subparsers name = Some sub ->
  single_optionb sub a0 k o0 d0 = true ->
  parsed (Arg name :: r) = ok args ->
  (given o0 r = true -> exists x, args !! k = Some x /\ written sub a0 r x) /\
  (given o0 r = false -> args !! k = Some d0) /\
  (required a0 = true -> given o0 r = true).
Proof.
  intros Hsub Hb Hp.
  destruct (parsed_sub manubot_version name sub r args Hsub Hp)
    as (st & st' & Hw & Hf & _ & _ & _ & Hargs).
  destruct (single_option_checked sub a0 k o0 d0 r st st' Hb Hw Hf)
    as (Hin & Hout & Hreq).
  split; [|split].
  - intros Hg. apply given_true in Hg.
    destruct (Hin Hg) as (x & Hx & Hwr). eauto.
  - intros Hg. apply Hargs, Hout. apply given_false. exact Hg.
  - intros Hr. apply given_true. auto.
Qed.

(** A flag: a [store_const] option, as [store_true] and [store_false]
    are. *)
Lemma flag_parsed name sub a0 k o0 d0 r args :
  lookup_parser registered_subparsers name = Some sub ->
  single_optionb sub a0 k o0 d0 = true ->
  kind a0 = store_const ->
  parsed (Arg name :: r) = ok args ->
  args !! k = Some (if given o0 r then const a0 else d0).
Proof.
  intros Hsub Hb Hk Hp.
  destruct (option_parsed name sub a0 k o0 d0 r args Hsub Hb Hp)
    as (Hin & Hout & _).
  destruct (given o0 r).
  - destruct (Hin eq_refl) as (x & Hx & Hwr).
    apply written_const in Hwr; [|exact Hk]. subst x. exact Hx.
  - auto.
Qed.

(** What an option that takes one word stores when it is given: one of
    the words given to it, as a string or as a path; or the empty list,
    which only the explicit argument [--] leaves. *)
Definition word_stored (o : string) (convert : string -> Value)
    (r : list Word) (x : Value) : Prop :=
  (exists s, x = convert s /\ s <> "--" /\ supplies r o s) \/
  (x = VList [] /\ In (Opt o (Some "--")) r).

(** An option that stores one word. *)
Lemma word_parsed name sub a0 k o0 d0 r args :
  lookup_parser registered_subparsers name = Some sub ->
  single_optionb sub a0 k o0 d0 = true ->
  kind a0 = store -> nargs a0 = N_one ->
  parsed (Arg name :: r) = ok args ->
  exists x, args !! k = Some x /\
            (if given o0 r then word_stored o0 (get_value a0) r x else x = d0) /\
            (required a0 = true -> given o0 r = true).
Proof.
  intros Hsub Hb Hk Hn Hp.
  assert (Ho : option_strings a0 = [o0]).
  { unfold single_optionb in Hb.
    do 4 (apply andb_prop in Hb as [Hb _]). apply andb_prop in Hb as [_ Hb].
    apply bool_decide_eq_true in Hb. exact Hb. }
  destruct (option_parsed name sub a0 k o0 d0 r args Hsub Hb Hp)
    as (Hin & Hout & Hreq).
  destruct (given o0 r).
  - destruct (Hin eq_refl) as (x & Hx & Hwr). exists x.
    split; [exact Hx|]. split; [|auto].
    apply (written_one _ _ o0) in Hwr as [(s & Hs & Hsup & -> & _)|[-> Hd]];
      auto; [left|right]; eauto.
  - exists d0. auto.
Qed.

Lemma declared_by_check (p : ArgumentParser) (a0 : Action) :
  existsb (fun a => bool_decide (a = a0)) (actions p) = true ->
  In a0 (actions p).
Proof.
  intros H. apply existsb_exists in H as (a & Ha & H).
  apply bool_decide_eq_true in H. subst a. exact Ha.
Qed.

(** ** cite *)

(** X11: for a cite command line that parses, [infer_prefix] and
    [prune_csl] are booleans, True unless [--no-infer-prefix],
    respectively [--allow-invalid-csl-data], is given, and then
    False. *)
Theorem X11_cite_flags r args :
  parsed (Arg "cite" :: r) = ok args ->
  args !! "infer_prefix" = Some (VBool (negb (given "--no-infer-prefix" r))) /\
  args !! "prune_csl"
  = Some (VBool (negb (given "--allow-invalid-csl-data" r))).
Proof.
  intros Hp. split.
  - rewrite (flag_parsed "cite" cite_parser
               (make_action "--no-infer-prefix"
                  [kw_dest "infer_prefix"; kw_action "store_false"])
               "infer_prefix" "--no-infer-prefix" (VBool true) r args);
      try reflexivity; [|exact Hp].
    destruct (given _ r); reflexivity.
  - rewrite (flag_parsed "cite" cite_parser
               (make_action "--allow-invalid-csl-data"
                  [kw_dest "prune_csl"; kw_action "store_false"])
               "prune_csl" "--allow-invalid-csl-data" (VBool true) r args);
      try reflexivity; [|exact Hp].
    destruct (given _ r); reflexivity.
Qed.

Definition manubot_csl_style : string := "https://citation-style.manubot.org/".

(** X12: for a cite command line that parses, [csl] is the address of
    Manubot's style unless [--csl] is given, and then one of the words
    given to it, as a string; [output] is None unless [--output] is
    given, and then one of the words given to it, as a path; in both
    cases the explicit argument [--] leaves the empty list instead. *)
Theorem X12_cite_csl_and_output r args :
  parsed (Arg "cite" :: r) = ok args ->
  (exists x, args !! "csl" = Some x /\
             if given "--csl" r then word_stored "--csl" VStr r x
             else x = VStr manubot_csl_style) /\
  (exists x, args !! "output" = Some x /\
             if given "--output" r then word_stored "--output" VPath r x
             else x = VNone).
Proof.
  intros Hp. split.
  - destruct (word_parsed "cite" cite_parser
                (make_action "--csl" [kw_default (VStr manubot_csl_style)])
                "csl" "--csl" (VStr manubot_csl_style) r args)
      as (x & Hx & Hv & _); try reflexivity; [exact Hp|].
    exists x. auto.
  - destruct (word_parsed "cite" cite_parser
                (make_action "--output" [kw_type T_Path])
                "output" "--output" VNone r args)
      as (x & Hx & Hv & _); try reflexivity; [exact Hp|].
    exists x. auto.
Qed.

(** X13: a cite command line that parses gives at least one citation
    key: [citekeys] is a list that is not empty. *)
Theorem X13_cite_citekeys r args :
  parsed_arguments manubot_version (Arg "cite" :: r) = ok args ->
  exists l, l <> [] /\ args !! "citekeys" = Some (VList l).
Proof.
  intros Hp.
  destruct (parsed_sub manubot_version "cite" cite_parser r args eq_refl Hp)
    as (st & st' & Hw & Hf & _ & _ & _ & Hargs).
  destruct (positional_list_parsed cite_parser
              (make_action "citekeys" [kw_nargs N_one_or_more]) "citekeys")
    with (ws := r) (st := st) (st' := st') as (l & Hl & Hx);
    try reflexivity; auto.
  - exact cite_dash_help.
  - apply declared_by_check. vm_compute. reflexivity.
  - apply single_writerb_spec. vm_compute. reflexivity.
  - exists l. auto.
Qed.

(** A required option that stores a path. *)
Lemma required_path_parsed name sub o0 k r args :
  lookup_parser registered_subparsers name = Some sub ->
  single_optionb sub (make_action o0 [kw_type T_Path; kw_required true])
                 k o0 VNone = true ->
  parsed (Arg name :: r) = ok args ->
  given o0 r = true /\
  exists x, args !! k = Some x /\ word_stored o0 VPath r x.
Proof.
  intros Hsub Hb Hp.
  set (a0 := make_action o0 [kw_type T_Path; kw_required true]) in *.
  assert (Hshape : kind a0 = store /\ nargs a0 = N_one /\ required a0 = true /\
                   get_value a0 = VPath).
  { unfold a0, make_action, base_action. cbn.
    destruct (is_option_string o0); repeat split. }
  destruct Hshape as (Hk & Hn & Hr & Hgv).
  destruct (word_parsed name sub a0 k o0 VNone r args Hsub Hb Hk Hn Hp)
    as (x & Hx & Hv & Hreq).
  specialize (Hreq Hr). rewrite Hreq, Hgv in Hv. eauto.
Qed.

(** ** process *)

(** X14: a process command line that parses gives the three required
    options [--content-directory], [--output-directory] and
    [--skip-citations]; each of the two directories is one of the words
    given to its option, stored as a path, and [skip_citations] is
    True; [cache_directory] is None unless [--cache-directory] is
    given, and then one of the words given to it, as a path; for each
    of the three paths, the explicit argument [--] leaves the empty
    list instead; and [clear_requests_cache] and [skip_remote] are True
    exactly when their flag is given. *)
Theorem X14_process_options r args :
  parsed (Arg "process" :: r) = ok args ->
  (given "--content-directory" r = true /\
   exists x, args !! "content_directory" = Some x /\
             word_stored "--content-directory" VPath r x) /\
  (given "--output-directory" r = true /\
   exists x, args !! "output_directory" = Some x /\
             word_stored "--output-directory" VPath r x) /\
  (given "--skip-citations" r = true /\
   args !! "skip_citations" = Some (VBool true)) /\
  (exists x, args !! "cache_directory" = Some x /\
             if given "--cache-directory" r
             then word_stored "--cache-directory" VPath r x
             else x = VNone) /\
  args !! "clear_requests_cache"
  = Some (VBool (given "--clear-requests-cache" r)) /\
  args !! "skip_remote" = Some (VBool (given "--skip-remote" r)).
Proof.
  intros Hp. split; [|split; [|split; [|split; [|split]]]].
  - apply (required_path_parsed "process" process_parser); auto.
  - apply (required_path_parsed "process" process_parser); auto.
  - destruct (option_parsed "process" process_parser
                (make_action "--skip-citations"
                   [kw_action "store_true"; kw_required true])
                "skip_citations" "--skip-citations" (VBool false) r args)
      as (Hin & _ & Hreq); try reflexivity; [exact Hp|].
    specialize (Hreq eq_refl). split; [exact Hreq|].
    destruct (Hin Hreq) as (x & Hx & Hwr).
    apply written_const in Hwr; [|reflexivity]. subst x. exact Hx.
  - destruct (word_parsed "process" process_parser
                (make_action "--cache-directory" [kw_type T_Path])
                "cache_directory" "--cache-directory" VNone r args)
      as (x & Hx & Hv & _); try reflexivity; [exact Hp|].
    exists x. auto.
  - rewrite (flag_parsed "process" process_parser
               (make_action "--clear-requests-cache" [kw_action "store_true"])
               "clear_requests_cache" "--clear-requests-cache" (VBool false)
               r args);
      try reflexivity; [|exact Hp].
    destruct (given _ r); reflexivity.
  - rewrite (flag_parsed "process" process_parser
               (make_action "--skip-remote" [kw_action "store_true"])
               "skip_remote" "--skip-remote" (VBool false) r args);
      try reflexivity; [|exact Hp].
    destruct (given _ r); reflexivity.
Qed.

(** ** ai-revision and ai-cite *)

Definition default_model_type : string := "GPT3CompletionModel".

(** X15: the two AI sub-commands take the same options: a command line
    of either that parses gives [--content-directory], one of the words
    given to it, stored as a path; [model_type] is GPT3CompletionModel
    unless [--model-type] is given, and then one of the words given to
    it, as a string; for both, the explicit argument [--] leaves the
    empty list instead; and [model_kwargs] is None unless
    [--model-kwargs] is given, and then the list of the words that
    follow one occurrence of it, which is not empty, or the list made
    of its explicit argument, which is empty when that argument is
    [--]. *)
Theorem X15_ai_options name r args :
  name = "ai-revision" \/ name = "ai-cite" ->
  parsed (Arg name :: r) = ok args ->
  (given "--content-directory" r = true /\
   exists x, args !! "content_directory" = Some x /\
             word_stored "--content-directory" VPath r x) /\
  (exists x, args !! "model_type" = Some x /\
             if given "--model-type" r
             then word_stored "--model-type" VStr r x
             else x = VStr default_model_type) /\
  (if given "--model-kwargs" r
   then exists words,
          args !! "model_kwargs" = Some (VList (map VStr words)) /\
          ((words <> [] /\ follows r "--model-kwargs" words) \/
           (exists e, In (Opt "--model-kwargs" (Some e)) r /\
                      words = remove_dashes [e]))
   else args !! "model_kwargs" = Some VNone).
Proof.
  intros Hname Hp.
  assert (Hsub : exists sub,
             lookup_parser registered_subparsers name = Some sub /\
             (sub = airevision_parser \/ sub = aicite_parser)).
  { destruct Hname as [->| ->]; eexists; split; try reflexivity; auto. }
  destruct Hsub as (sub & Hsub & Hcase).
  split; [|split].
  - apply (required_path_parsed name sub); auto.
    destruct Hcase as [->| ->]; reflexivity.
  - destruct (word_parsed name sub
                (make_action "--model-type"
                   [kw_type T_str; kw_required false;
                    kw_default (VStr default_model_type)])
                "model_type" "--model-type" (VStr default_model_type) r args)
      as (x & Hx & Hv & _); auto.
    { destruct Hcase as [->| ->]; reflexivity. }
    exists x. auto.
  - destruct (option_parsed name sub
                (make_action "--model-kwargs"
                   [kw_required false; kw_metavar "key=value";
                    kw_nargs N_one_or_more])
                "model_kwargs" "--model-kwargs" VNone r args)
      as (Hin & Hout & _); auto.
    { destruct Hcase as [->| ->]; reflexivity. }
    destruct (given "--model-kwargs" r).
    + destruct (Hin eq_refl) as (x & Hx & Hwr).
      apply (written_list _ _ "--model-kwargs") in Hwr as (words & -> & Hw);
        try reflexivity.
      exists words. auto.
    + auto.
Qed.

(** ** webpage *)


Definition no_ots_cache_action : Action :=
  in_group 0 (make_action "--no-ots-cache" [kw_action "store_true"]).

Definition ots_cache_action : Action :=
  in_group 0 (make_action "--ots-cache"
                [kw_default (VPath "ci/cache/ots"); kw_type T_Path]).


Lemma webpage_group_nargs a :
  member webpage_parser 0 a -> nargs a <> N_optional.
Proof.
  assert (H : forallb (fun a => negb (bool_decide (mutex_group a = Some 0%nat))
                                || negb (bool_decide (nargs a = N_optional)))
                      (actions webpage_parser) = true)
    by (vm_compute; reflexivity).
  rewrite forallb_forall in H. intros [Ha Hg]. apply H in Ha.
  apply orb_prop in Ha as [Ha|Ha]; apply negb_true_iff in Ha;
    apply bool_decide_eq_false in Ha; [contradiction|exact Ha].
Qed.

Lemma webpage_dash_help : single_dash_help webpage_parser.
Proof. apply single_dash_helpb_spec. vm_compute. reflexivity. Qed.

(** X17: [--no-ots-cache] and [--ots-cache] exclude each other: a
    webpage command line that gives both does not parse, and the run
    ends inside the parsing, before anything is imported or called. *)
Theorem X17_webpage_cache_options_exclusive r :
  given "--no-ots-cache" r = true -> given "--ots-cache" r = true ->
  (forall args, parsed (Arg "webpage" :: r) <> ok args) /\
  exists code,
    snd (run_main (Arg "webpage" :: r)) = raised (SystemExit code) /\
    trace (fst (run_main (Arg "webpage" :: r))) = parse_trace.
Proof.
  intros H1 H2. apply given_true in H1 as [e1 H1], H2 as [e2 H2].
  assert (Hno : forall args, parsed (Arg "webpage" :: r) <> ok args).
  { intros args Hp.
    destruct (parsed_sub manubot_version "webpage" webpage_parser r args
                eq_refl Hp) as (st & _ & Hw & _).
    assert (Heq : no_ots_cache_action = ots_cache_action).
    { eapply (mutex_parsed webpage_parser 0 webpage_dash_help
                webpage_group_nargs
                (names_distinctb_spec webpage_parser eq_refl)
                r st "--no-ots-cache" e1 "--ots-cache" e2);
        eauto; reflexivity. }
    discriminate Heq. }
  split; [exact Hno|].
  pose proof (run_not_parsed manubot_version importer (Arg "webpage" :: r)) as H.
  destruct (parsed (Arg "webpage" :: r)) as [args| | |] eqn:Hp.
  - exfalso. exact (Hno args eq_refl).
  - rewrite H. eauto.
  - rewrite H. eauto.
  - rewrite H. eauto.
Qed.

(** ** Options that may be repeated *)




(** ** The sub-command word *)

Definition subcommand_names : list string :=
  ["process"; "cite"; "webpage"; "ai-revision"; "ai-cite"].

Lemma lookup_parser_unknown name :
  ~ In name subcommand_names ->
  lookup_parser registered_subparsers name = None.
Proof.
  intros Hno. unfold lookup_parser.
  destruct (List.find _ _) as [[n q]|] eqn:Hf; [|reflexivity].
  exfalso. apply find_some in Hf as [Hin He].
  cbn [fst] in He. apply String.eqb_eq in He. subst n.
  apply Hno.
  change subcommand_names with (map fst (sub_choices registered_subparsers)).
  apply (in_map fst) in Hin. exact Hin.
Qed.

(** The result of parsing when the first word is a plain word that
    names no sub-command. *)
Lemma parsed_unknown name r :
  ~ In name subcommand_names -> name <> "--" ->
  parsed (Arg name :: r)
  = (_ <- classify top (Arg name :: r) ;;
     error (invalid_choice "subcommand" name)).
Proof.
  intros Hno Hne. unfold parsed_arguments, parse_args.
  destruct (classify top (Arg name :: r)) as [[]| | |]; try reflexivity.
  cbn [bind parse_top]. apply is_dashes_false in Hne. rewrite Hne.
  cbn [andb]. rewrite (lookup_parser_unknown name Hno). reflexivity.
Qed.

(** X18: a sub-command is required and must be one of the five
    registered names: the empty command line is the parser error that
    says so; a command line whose first word is a plain word that is no
    such name never parses, and ends in the parser error that names the
    word, unless one of its words is an ambiguous abbreviation, which
    is the parser error then; in each case the process exits with
    status 2.  The word [--] before the first plain word is taken for
    the name. *)
Theorem X18_subcommand_required_and_known :
  parsed [] = error (required_arguments ["subcommand"]) /\
  exit_status (snd (run_main [])) = 2 /\
  (forall name r,
     ~ In name ["process"; "cite"; "webpage"; "ai-revision"; "ai-cite"] ->
     name <> "--" ->
     (exists e, parsed (Arg name :: r) = error e /\
                stderr (fst (run_main (Arg name :: r))) = [argparse_error e]) /\
     snd (run_main (Arg name :: r)) = raised (SystemExit 2) /\
     (classify top (Arg name :: r) = ok tt ->
      parsed (Arg name :: r) = error (invalid_choice "subcommand" name))) /\
  (forall s r,
     parsed (Arg "--" :: Arg s :: r) = error (invalid_choice "subcommand" "--")).
Proof.
  split; [reflexivity|]. split; [|split].
  - pose proof (run_not_parsed manubot_version importer []) as H.
    change (parsed []) with
      (@error Namespace (required_arguments ["subcommand"])) in H.
    cbv beta iota in H. rewrite H. reflexivity.
  - intros name r Hno Hne.
    pose proof (parsed_unknown name r Hno Hne) as Hp.
    pose proof (run_not_parsed manubot_version importer (Arg name :: r)) as H.
    pose proof (classify_not_version top (Arg name :: r)) as Hv.
    assert (Hh : classify top (Arg name :: r) <> exit_help).
    { clear. generalize (Arg name :: r). intros ws.
      induction ws as [|w ws IH]; simpl; [discriminate|].
      destruct (is_separator w); [discriminate|].
      destruct w as [o e|s]; simpl; [|exact IH].
      destruct (lookup_option top o); [exact IH|].
      destruct (option_tuples top _) as [|x [|y l]];
        simpl; try exact IH; discriminate. }
    destruct (classify top (Arg name :: r)) as [[]| |v|e];
      cbn [bind] in Hp; try congruence;
      rewrite Hp in H; rewrite H; repeat split; eauto; discriminate.
  - intros s r. reflexivity.
Qed.

Lemma help_first p final o run st :
  lookup_option p o = Some help_action ->
  consume_optional p final (mkSegment o None run) st = exit_help.
Proof.
  intros Hl. unfold consume_optional. cbn [seg_option seg_explicit seg_args].
  rewrite Hl. reflexivity.
Qed.

Lemma help_first_word p o rest :
  lookup_option p o = Some help_action ->
  parse_words p (Opt o None :: rest) = exit_help.
Proof.
  intros Hl. unfold parse_words. cbn [segments].
  destruct (segments rest) as [run segs].
  unfold consume_positionals at 1.
  rewrite bool_decide_eq_false_2 by discriminate.
  rewrite bool_decide_eq_true_2 by reflexivity.
  cbn [negb andb bind consume_all].
  rewrite (help_first p _ o run _ Hl). reflexivity.
Qed.

(** X19: [-h] and [--help] end the run with the help on the standard
    output and status 0, as the first word, and as the first word after
    the name of any sub-command, where the options the sub-command
    requires need not be given; whatever follows them, unless one of
    the words that follow is an ambiguous abbreviation, which is a
    parser error, status 2. *)
Theorem X19_help_exits_zero o rest :
  o = "-h" \/ o = "--help" ->
  (forall args, parsed (Opt o None :: rest) <> ok args) /\
  (classify top (Opt o None :: rest) = ok tt ->
   parsed (Opt o None :: rest) = exit_help) /\
  (forall name sub,
     lookup_parser registered_subparsers name = Some sub ->
     let argv := Arg name :: Opt o None :: rest in
     (forall args, parsed argv <> ok args) /\
     (classify top argv = ok tt -> classify sub (Opt o None :: rest) = ok tt ->
      parsed argv = exit_help /\
      run_main argv
      = (configured (levelno WARNING) false [] [argparse_help] parse_moments,
         raised (SystemExit 0)) /\
      exit_status (snd (run_main argv)) = 0) /\
     (forall e, classify top argv = error e \/
                (classify top argv = ok tt /\
                 classify sub (Opt o None :: rest) = error e) ->
                parsed argv = error e /\
                exit_status (snd (run_main argv)) = 2)).
Proof.
  intros Ho.
  assert (Htop : lookup_option top o = Some help_action)
    by (destruct Ho as [->| ->]; reflexivity).
  assert (Hfirst : parsed (Opt o None :: rest)
                   = (_ <- classify top (Opt o None :: rest) ;; exit_help)).
  { unfold parsed_arguments, parse_args.
    destruct (classify top (Opt o None :: rest)) as [[]| | |]; try reflexivity.
    cbn [bind parse_top]. rewrite (help_first top false o [] _ Htop).
    reflexivity. }
  split; [|split].
  - intros args Hp. rewrite Hfirst in Hp.
    destruct (classify top (Opt o None :: rest)) as [[]| | |]; discriminate.
  - intros Hc. rewrite Hfirst, Hc. reflexivity.
  - intros name sub Hsub argv.
    assert (Hl : lookup_option sub o = Some help_action).
    { destruct (registered_facts name sub Hsub)
        as (_ & _ & H1 & H2 & _).
      destruct Ho as [->| ->]; assumption. }
    assert (Hp : parsed argv
                 = (_ <- classify top argv ;;
                    _ <- classify sub (Opt o None :: rest) ;; exit_help)).
    { unfold argv. rewrite (parsed_registered manubot_version name sub _ Hsub).
      destruct (classify top (Arg name :: Opt o None :: rest)) as [[]| | |];
        try reflexivity.
      cbn [bind]. unfold parse_known_args.
      destruct (classify sub (Opt o None :: rest)) as [[]| | |];
        try reflexivity.
      cbn [bind]. rewrite (help_first_word sub o rest Hl). reflexivity. }
    pose proof (run_not_parsed manubot_version importer argv) as Hr.
    split; [|split].
    + intros args Hok. rewrite Hp in Hok.
      destruct (classify top argv) as [[]| | |]; try discriminate.
      destruct (classify sub (Opt o None :: rest)) as [[]| | |]; discriminate.
    + intros Hc Hc'. rewrite Hc, Hc' in Hp. cbn [bind] in Hp.
      rewrite Hp in Hr. rewrite Hr. repeat split; auto.
    + intros e [Hc|[Hc Hc']]; rewrite Hc in Hp; cbn [bind] in Hp;
        try rewrite Hc' in Hp; cbn [bind] in Hp;
        rewrite Hp in Hr; rewrite Hr; split; auto.
Qed.

(** X20: a command line parses only if its first word is the name of
    one of the five sub-commands; the namespace then holds that name
    under [subcommand] and, under [function], the identifier that the
    sub-command's [set_defaults] registered. *)
Theorem X20_subcommand_selects_handler argv args :
  parsed_arguments manubot_version argv = ok args ->
  exists name r id,
    argv = Arg name :: r /\
    In (name, id)
       [("process", "manubot.process.process_command.cli_process");
        ("cite", "manubot.cite.cite_command.cli_cite");
        ("webpage", "manubot.webpage.webpage_command.cli_webpage");
        ("ai-revision", "manubot.ai_revision.ai_revision_command.cli_process");
        ("ai-cite", "manubot.ai_cite.ai_cite_command.cli_process")] /\
    args !! "subcommand" = Some (VStr name) /\
    args !! "function" = Some (VStr id).
Proof.
  intros Hp.
  destruct (parsed_facts _ _ _ Hp)
    as (name & sub & r & id & -> & _ & Hid & _ & Hsc & Hf & _).
  exists name, r, id. auto.
Qed.

End Subcommand_options.

(** * Instances of the further properties *)

Import argparse argparse_facts option_facts.

(** An import that logs a warning and fails. *)
Definition failing_importer : string -> Imported :=
  fun _ => mkImported [do_log NOTSET WARNING "cannot import"] None.


(** A handler that logs at CRITICAL and returns. *)
Definition critical_importer : string -> Imported :=
  fun _ => mkImported []
             (Some (fun _ => mkBehaviour [do_log NOTSET CRITICAL "fatal"] None)).

Definition cite_one_key : list Word := [Arg "cite"; Arg "doi:10.1/x"].

Definition cli_cite : string := "manubot.cite.cite_command.cli_cite".

Lemma X1_no_parse_no_dispatch_witness :
  (forall args, parsed_arguments "1.0" [] <> ok args) /\
  exists code, snd (run "1.0" quiet_importer []) = raised (SystemExit code).
Proof.
  assert (Hno : forall args, parsed_arguments "1.0" [] <> ok args)
    by (intros args H; vm_compute in H; discriminate H).
  split; [exact Hno|].
  destruct (X1_no_parse_no_dispatch "1.0" quiet_importer [] Hno)
    as (code & w & H & _).
  exists code. exact H.
Defined.

Lemma X2_import_failure_witness :
  exists args,
    parsed_arguments "1.0" cite_one_key = ok args /\
    exit_status (snd (run "1.0" failing_importer cite_one_key)) = 1.
Proof.
  destruct (is_ok_fields (parsed_arguments "1.0" cite_one_key))
    as (args & Hp & Hk); [vm_compute; reflexivity|].
  exists args. split; [exact Hp|].
  destruct (X2_import_failure "1.0" failing_importer cite_one_key args WARNING
              cli_cite Hp) as (_ & H & _).
  - rewrite Hk. vm_compute. reflexivity.
  - rewrite Hk. vm_compute. reflexivity.
  - reflexivity.
  - exact H.
Defined.


Lemma X4_exit_status_rule_witness :
  exists args,
    parsed_arguments "1.0" cite_one_key = ok args /\
    (exit_status (snd (run "1.0" error_logging_importer cite_one_key)) = 1
     <-> exists e, In e [do_log NOTSET ERROR "boom"] /\
                   reaches_error_handler WARNING e).
Proof.
  destruct (is_ok_fields (parsed_arguments "1.0" cite_one_key))
    as (args & Hp & Hk); [vm_compute; reflexivity|].
  exists args. split; [exact Hp|].
  destruct (X4_exit_status_rule "1.0" error_logging_importer cite_one_key
              args WARNING cli_cite
              (fun _ => mkBehaviour [do_log NOTSET ERROR "boom"] None) Hp)
    as (H & _).
  - rewrite Hk. vm_compute. reflexivity.
  - rewrite Hk. vm_compute. reflexivity.
  - reflexivity.
  - reflexivity.
  - exact H.
Defined.

Lemma X5_summary_closes_stderr_witness :
  exists args,
    parsed_arguments "1.0" cite_one_key = ok args /\
    stderr (fst (run "1.0" error_logging_importer cite_one_key))
    = [rendering (do_log NOTSET ERROR "boom"); summary_block].
Proof.
  destruct (is_ok_fields (parsed_arguments "1.0" cite_one_key))
    as (args & Hp & Hk); [vm_compute; reflexivity|].
  exists args. split; [exact Hp|].
  destruct (X5_summary_closes_stderr "1.0" error_logging_importer cite_one_key
              args WARNING cli_cite
              (fun _ => mkBehaviour [do_log NOTSET ERROR "boom"] None) Hp)
    as [[_ H]|[H _]].
  - rewrite Hk. vm_compute. reflexivity.
  - rewrite Hk. vm_compute. reflexivity.
  - reflexivity.
  - reflexivity.
  - exact H.
  - vm_compute in H. discriminate H.
Defined.

Lemma X6_error_at_default_level_witness :
  exists args,
    parsed_arguments "1.0" cite_one_key = ok args /\
    exit_status (snd (run "1.0" error_logging_importer cite_one_key)) = 1.
Proof.
  destruct (is_ok_fields (parsed_arguments "1.0" cite_one_key))
    as (args & Hp & Hk); [vm_compute; reflexivity|].
  exists args. split; [exact Hp|].
  destruct (X6_error_at_default_level "1.0" error_logging_importer cite_one_key
              args cli_cite
              (fun _ => mkBehaviour [do_log NOTSET ERROR "boom"] None)
              "boom" Hp) as (_ & H).
  - intros e [H|[H|[]]]; discriminate H.
  - rewrite Hk. vm_compute. reflexivity.
  - reflexivity.
  - reflexivity.
  - left. reflexivity.
  - exact H.
Defined.

Lemma X7_critical_at_every_level_witness :
  exists args,
    parsed_arguments "1.0"
      [Arg "cite"; Opt "--log-level" (Some "CRITICAL"); Arg "k"] = ok args /\
    snd (run "1.0" critical_importer
           [Arg "cite"; Opt "--log-level" (Some "CRITICAL"); Arg "k"])
    = raised (SystemExit 1).
Proof.
  destruct (is_ok_fields
              (parsed_arguments "1.0"
                 [Arg "cite"; Opt "--log-level" (Some "CRITICAL"); Arg "k"]))
    as (args & Hp & Hk); [vm_compute; reflexivity|].
  exists args. split; [exact Hp|].
  destruct (X7_critical_at_every_level "1.0" critical_importer
              [Arg "cite"; Opt "--log-level" (Some "CRITICAL"); Arg "k"]
              args CRITICAL cli_cite
              (fun _ => mkBehaviour [do_log NOTSET CRITICAL "fatal"] None)
              "fatal" Hp) as (H & _).
  - rewrite Hk. vm_compute. reflexivity.
  - rewrite Hk. vm_compute. reflexivity.
  - reflexivity.
  - reflexivity.
  - left. reflexivity.
  - exact H.
Defined.

Lemma X9_exit_if_error_handler_fired_witness :
  snd (exit_if_error_handler_fired 0%nat
         (configured (levelno DEBUG) true [] [] []))
  = raised (SystemExit 1).
Proof.
  destruct (X9_exit_if_error_handler_fired
              (configured (levelno DEBUG) true [] [] []) 0%nat
              (levelno ERROR) true) as (H & _).
  - reflexivity.
  - exact H.
Defined.

Definition cite_no_prefix : list Word :=
  [Opt "--no-infer-prefix" None; Opt "--output" (Some "refs.json"); Arg "k"].

Lemma X11_cite_flags_witness :
  exists args,
    parsed_arguments "1.0" (Arg "cite" :: cite_no_prefix) = ok args /\
    args !! "infer_prefix" = Some (VBool false) /\
    args !! "prune_csl" = Some (VBool true).
Proof.
  destruct (is_ok_ex (parsed_arguments "1.0" (Arg "cite" :: cite_no_prefix)))
    as (args & Hp); [vm_compute; reflexivity|].
  exists args. split; [exact Hp|].
  exact (X11_cite_flags "1.0" cite_no_prefix args Hp).
Defined.

Lemma X12_cite_csl_and_output_witness :
  exists args,
    parsed_arguments "1.0" (Arg "cite" :: cite_no_prefix) = ok args /\
    args !! "csl" = Some (VStr manubot_csl_style) /\
    exists x, args !! "output" = Some x /\
              word_stored "--output" VPath cite_no_prefix x.
Proof.
  destruct (is_ok_ex (parsed_arguments "1.0" (Arg "cite" :: cite_no_prefix)))
    as (args & Hp); [vm_compute; reflexivity|].
  exists args. split; [exact Hp|].
  destruct (X12_cite_csl_and_output "1.0" cite_no_prefix args Hp)
    as ((x & Hx & Hdef) & Hout).
  split; [|exact Hout].
  rewrite Hx. f_equal. exact Hdef.
Defined.

Lemma X13_cite_citekeys_witness :
  exists args l,
    parsed_arguments "1.0" (Arg "cite" :: cite_no_prefix) = ok args /\
    l <> [] /\ args !! "citekeys" = Some (VList l).
Proof.
  destruct (is_ok_ex (parsed_arguments "1.0" (Arg "cite" :: cite_no_prefix)))
    as (args & Hp); [vm_compute; reflexivity|].
  destruct (X13_cite_citekeys "1.0" cite_no_prefix args Hp) as (l & Hl & Hx).
  exists args, l. auto.
Defined.

Definition process_words : list Word :=
  [Opt "--content-directory" (Some "content");
   Opt "--output-directory" (Some "output");
   Opt "--skip-citations" None; Opt "--skip-remote" None].

Lemma X14_process_options_witness :
  exists args,
    parsed_arguments "1.0" (Arg "process" :: process_words) = ok args /\
    args !! "skip_citations" = Some (VBool true) /\
    args !! "cache_directory" = Some VNone /\
    args !! "clear_requests_cache" = Some (VBool false) /\
    args !! "skip_remote" = Some (VBool true).
Proof.
  destruct (is_ok_ex (parsed_arguments "1.0" (Arg "process" :: process_words)))
    as (args & Hp); [vm_compute; reflexivity|].
  exists args. split; [exact Hp|].
  destruct (X14_process_options "1.0" process_words args Hp)
    as (_ & _ & (_ & Hs) & (x & Hx & Hc) & Hcl & Hr).
  split; [exact Hs|]. split; [|auto].
  rewrite Hx. f_equal. exact Hc.
Defined.

Definition ai_words : list Word :=
  [Opt "--content-directory" (Some "content");
   Opt "--model-kwargs" None; Arg "temperature=0"].

Lemma X15_ai_options_witness :
  exists args,
    parsed_arguments "1.0" (Arg "ai-cite" :: ai_words) = ok args /\
    args !! "model_type" = Some (VStr default_model_type).
Proof.
  destruct (is_ok_ex (parsed_arguments "1.0" (Arg "ai-cite" :: ai_words)))
    as (args & Hp); [vm_compute; reflexivity|].
  exists args. split; [exact Hp|].
  destruct (X15_ai_options "1.0" "ai-cite" ai_words args)
    as (_ & (x & Hx & Hd) & _).
  - right. reflexivity.
  - exact Hp.
  - rewrite Hx. f_equal. exact Hd.
Defined.

Definition both_cache_options : list Word :=
  [Opt "--ots-cache" (Some "cache"); Opt "--no-ots-cache" None].

Lemma X17_webpage_cache_options_exclusive_witness :
  given "--no-ots-cache" both_cache_options = true /\
  given "--ots-cache" both_cache_options = true /\
  exists code,
    snd (run "1.0" quiet_importer (Arg "webpage" :: both_cache_options))
    = raised (SystemExit code).
Proof.
  split; [reflexivity|]. split; [reflexivity|].
  destruct (X17_webpage_cache_options_exclusive "1.0" quiet_importer
              both_cache_options) as (_ & code & H & _).
  - reflexivity.
  - reflexivity.
  - exists code. exact H.
Defined.

Lemma X19_help_exits_zero_witness :
  parsed_arguments "1.0" [Arg "process"; Opt "-h" None] = exit_help /\
  exit_status (snd (run "1.0" quiet_importer [Arg "process"; Opt "-h" None])) = 0.
Proof.
  destruct (X19_help_exits_zero "1.0" quiet_importer "-h" [])
    as (_ & _ & H).
  - left. reflexivity.
  - pose proof (H "process" process_parser eq_refl) as H'. cbv zeta in H'.
    destruct H' as (_ & Hh & _).
    destruct Hh as (Hp & _ & Hs).
    + vm_compute. reflexivity.
    + vm_compute. reflexivity.
    + split; [exact Hp|exact Hs].
Defined.

Lemma X20_subcommand_selects_handler_witness :
  exists args,
    parsed_arguments "1.0" cite_one_key = ok args /\
    args !! "subcommand" = Some (VStr "cite") /\
    args !! "function" = Some (VStr cli_cite).
Proof.
  destruct (is_ok_ex (parsed_arguments "1.0" cite_one_key))
    as (args & Hp); [vm_compute; reflexivity|].
  exists args. split; [exact Hp|].
  destruct (X20_subcommand_selects_handler "1.0" cite_one_key args Hp)
    as (name & r & id & Heq & Hin & Hs & Hf).
  injection Heq as <- <-.
  destruct Hin as [H|[H|[H|[H|[H|[]]]]]]; try discriminate H.
  injection H as <-. auto.
Defined.

(** * Words that no sub-command accepts *)

Module rejection_facts.
Import argparse argparse_facts.
Local Open Scope result_scope.

(** Parsing only ever adds to the words left unrecognised. *)
Lemma take_action_extras p a args st st' :
  take_action p a args st = ok st' -> extras st' = extras st.
Proof.
  intros H. apply take_action_ok in H as (v & d & n' & _ & _ & _ & _ & _ & H & _).
  exact H.
Qed.

Lemma take_actions_extras p l : forall st st',
  take_actions p l st = ok st' -> extras st' = extras st.
Proof.
  induction l as [|[a args] r IH]; simpl; intros st st' H.
  - injection H as <-. reflexivity.
  - apply bind_ok in H as [st1 [H1 H]]. apply take_action_extras in H1.
    apply IH in H. congruence.
Qed.

Lemma consume_positionals_extras p final run st st' :
  consume_positionals p final run st = ok st' ->
  exists l, extras st' = extras st ++ l.
Proof.
  unfold consume_positionals. intros H.
  destruct (negb final && bool_decide (run = [])).
  { injection H as <-. exists []. symmetry. apply app_nil_r. }
  destruct (positionals st) as [|a rest];
    [injection H as <-; exists run; reflexivity|].
  destruct (match_positional a run) as [n|];
    [|injection H as <-; exists run; reflexivity].
  apply bind_ok in H as [st1 [H1 H]]. injection H as <-.
  apply take_action_extras in H1. cbn in *. rewrite H1. eauto.
Qed.

Lemma consume_optional_extras p final sg st st' :
  consume_optional p final sg st = ok st' ->
  exists l, extras st' = extras st ++ l /\
            (lookup_option p (seg_option sg) = None -> l <> []).
Proof.
  unfold consume_optional. intros H.
  destruct (lookup_option p (seg_option sg)) as [a|].
  - apply bind_ok in H as [tuples [_ H]].
    apply bind_ok in H as [st1 [H1 H2]].
    apply take_actions_extras in H1.
    apply consume_positionals_extras in H2 as [l H2].
    exists l. rewrite H2, H1. split; [reflexivity|discriminate].
  - apply consume_positionals_extras in H as [l H]. cbn in H.
    exists (render (Opt (seg_option sg) (seg_explicit sg)) :: l).
    rewrite H, <- app_assoc. split; [reflexivity|discriminate].
Qed.

Lemma consume_all_extras p segs : forall st st',
  consume_all p segs st = ok st' ->
  exists l, extras st' = extras st ++ l /\
            (forall sg, In sg segs -> lookup_option p (seg_option sg) = None ->
                        l <> []).
Proof.
  induction segs as [|sg r IH]; simpl; intros st st' H.
  - injection H as <-. exists []. split; [symmetry; apply app_nil_r|].
    intros sg [].
  - apply bind_ok in H as [st1 [H1 H]].
    apply consume_optional_extras in H1 as (l1 & H1 & Hn1).
    apply IH in H as (l2 & H2 & Hn2).
    exists (l1 ++ l2). rewrite H2, H1, <- app_assoc. split; [reflexivity|].
    intros sg' [<-|Hin] Hl Hnil; apply app_eq_nil in Hnil as [E1 E2].
    + exact (Hn1 Hl E1).
    + exact (Hn2 sg' Hin Hl E2).
Qed.

(** An option word that the parser does not declare is left over. *)
Lemma parse_words_undeclared p ws st o e :
  parse_words p ws = ok st ->
  In (Opt o e) ws -> lookup_option p o = None -> extras st <> [].
Proof.
  unfold parse_words. destruct (segments ws) as [run segs] eqn:Hseg.
  intros H Hin Hl. apply bind_ok in H as [st1 [H1 H]].
  apply consume_positionals_extras in H1 as [l1 H1].
  apply consume_all_extras in H as (l2 & H2 & Hn).
  apply segments_options in Hin as [run' Hin]. rewrite Hseg in Hin.
  rewrite H2. intros E. apply app_eq_nil in E as [_ E].
  exact (Hn _ Hin Hl E).
Qed.

Lemma lookup_option_undeclared p o :
  ~ In o (declared_options p) -> lookup_option p o = None.
Proof.
  intros Hno. unfold lookup_option.
  destruct (List.find _ _) as [a|] eqn:Hf; [|reflexivity].
  exfalso. apply find_some in Hf as [Ha He].
  apply existsb_exists in He as (x & Hx & He).
  apply String.eqb_eq in He. subst x. apply Hno.
  unfold declared_options. apply in_concat. exists (option_strings a).
  split; [apply in_map; exact Ha|exact Hx].
Qed.

(** An option that stores words needs one after it. *)
Lemma consume_optional_no_value p final sg st a :
  lookup_option p (seg_option sg) = Some a ->
  nargs a = N_one \/ nargs a = N_one_or_more ->
  seg_explicit sg = None -> seg_args sg = [] ->
  exists err, consume_optional p final sg st = error err.
Proof.
  intros Hl Hn He Ha. unfold consume_optional, match_argument.
  rewrite Hl, He, Ha.
  destruct Hn as [-> | ->]; eexists; reflexivity.
Qed.

End rejection_facts.

Section Rejected_words.
Import argparse argparse_facts rejection_facts.
Local Open Scope result_scope.

Variable manubot_version : string.

(** The option strings of a parser's flags, which take no value, and of
    its options that need at least one. *)
Definition flag_options (p : ArgumentParser) : list string :=
  concat (map option_strings
            (List.filter (fun a => bool_decide (nargs a = N_zero)) (actions p))).

Definition valued_options (p : ArgumentParser) : list string :=
  concat (map option_strings
            (List.filter (fun a => bool_decide (nargs a = N_one)
                                   || bool_decide (nargs a = N_one_or_more))
                         (actions p))).

(** Each registered sub-command with what [f] lists of its parser. *)
Definition per_subcommand (f : ArgumentParser -> list string)
  : list (string * list string) :=
  map (fun np => (fst np, f (snd np))) (sub_choices registered_subparsers).

(** X22: each sub-command accepts the option strings it declares and no
    other: a command line holding an option word that the selected
    sub-command does not declare never parses. *)
Theorem X22_undeclared_option_rejected :
  per_subcommand declared_options
  = [("process",
      ["-h"; "--help"; "--content-directory"; "--output-directory";
       "--template-variables-path"; "--skip-citations"; "--cache-directory";
       "--clear-requests-cache"; "--skip-remote"; "--log-level"]);
     ("cite",
      ["-h"; "--help"; "--output"; "--format"; "--yml"; "--txt"; "--md";
       "--csl"; "--bibliography"; "--no-infer-prefix";
       "--allow-invalid-csl-data"; "--log-level"]);
     ("webpage",
      ["-h"; "--help"; "--checkout"; "--version"; "--timestamp";
       "--no-ots-cache"; "--ots-cache"; "--log-level"]);
     ("ai-revision",
      ["-h"; "--help"; "--content-directory"; "--model-type";
       "--model-kwargs"; "--log-level"]);
     ("ai-cite",
      ["-h"; "--help"; "--content-directory"; "--model-type";
       "--model-kwargs"; "--log-level"])] /\
  (forall name sub o e r,
     lookup_parser registered_subparsers name = Some sub ->
     ~ In o (declared_options sub) -> In (Opt o e) r ->
     forall args, parsed_arguments manubot_version (Arg name :: r) <> ok args).
Proof.
  split; [reflexivity|].
  intros name sub o e r Hsub Hno Hin args Hp.
  destruct (parsed_sub manubot_version name sub r args Hsub Hp)
    as (st & st' & Hw & Hf & Hex & _).
  apply finish_seen in Hf as (_ & _ & Hf). rewrite Hf in Hex.
  exact (parse_words_undeclared sub r st o e Hw Hin
           (lookup_option_undeclared sub o Hno) Hex).
Qed.

(** X23: the flags of each sub-command take no value: a command line
    that attaches one to a flag ([--flag=value]) never parses. *)
Theorem X23_flag_takes_no_value :
  per_subcommand flag_options
  = [("process",
      ["-h"; "--help"; "--skip-citations"; "--clear-requests-cache";
       "--skip-remote"]);
     ("cite",
      ["-h"; "--help"; "--yml"; "--txt"; "--md"; "--no-infer-prefix";
       "--allow-invalid-csl-data"]);
     ("webpage", ["-h"; "--help"; "--timestamp"; "--no-ots-cache"]);
     ("ai-revision", ["-h"; "--help"]);
     ("ai-cite", ["-h"; "--help"])] /\
  (forall name sub o a e r,
     lookup_parser registered_subparsers name = Some sub ->
     lookup_option sub o = Some a -> nargs a = N_zero ->
     In (Opt o (Some e)) r ->
     forall args, parsed_arguments manubot_version (Arg name :: r) <> ok args).
Proof.
  split; [reflexivity|].
  intros name sub o a e r Hsub Hl Hn Hin args Hp.
  destruct (parsed_sub manubot_version name sub r args Hsub Hp)
    as (st & _ & Hw & _).
  destruct (registered_facts name sub Hsub) as (_ & Hdash & _).
  apply segments_options in Hin as [run Hin].
  destruct (parse_words_each _ _ _ Hw _ Hin) as (final & st1 & st2 & Hc).
  apply (consume_optional_ok sub Hdash) in Hc.
  cbn [seg_option seg_explicit] in Hc. rewrite Hl in Hc.
  destruct Hc as (args' & left & st3 & (Hne & _) & _).
  exact (Hne Hn).
Qed.

(** No plain word follows: the command line ends, or goes on with an
    option word. *)
Definition no_value_follows (post : list Word) : Prop :=
  match post with
  | Arg _ :: _ => False
  | _ => True
  end.

(** X24: the options of each sub-command that store words need one: a
    command line where such an option comes without an attached value
    and with no plain word after it never parses. *)
Theorem X24_option_needs_value :
  per_subcommand valued_options
  = [("process",
      ["--content-directory"; "--output-directory";
       "--template-variables-path"; "--cache-directory"; "--log-level"]);
     ("cite",
      ["--output"; "--format"; "--csl"; "--bibliography"; "--log-level"]);
     ("webpage", ["--version"; "--ots-cache"; "--log-level"]);
     ("ai-revision",
      ["--content-directory"; "--model-type"; "--model-kwargs"; "--log-level"]);
     ("ai-cite",
      ["--content-directory"; "--model-type"; "--model-kwargs"; "--log-level"])] /\
  (forall name sub o a pre post,
     lookup_parser registered_subparsers name = Some sub ->
     lookup_option sub o = Some a ->
     nargs a = N_one \/ nargs a = N_one_or_more ->
     no_value_follows post ->
     forall args,
       parsed_arguments manubot_version (Arg name :: pre ++ Opt o None :: post)
       <> ok args).
Proof.
  split; [reflexivity|].
  intros name sub o a pre post Hsub Hl Hn Hpost args Hp.
  destruct (parsed_sub manubot_version name sub _ args Hsub Hp)
    as (st & _ & Hw & _).
  assert (Hrun : fst (segments post) = []).
  { destruct post as [|[o' e'|s] post']; cbn in *.
    - reflexivity.
    - destruct (segments post'); reflexivity.
    - contradiction. }
  assert (Hin : In (mkSegment o None [])
                   (snd (segments (pre ++ Opt o None :: post)))).
  { rewrite segments_app_option, Hrun. cbn [snd].
    apply in_or_app. right. left. reflexivity. }
  destruct (parse_words_each _ _ _ Hw _ Hin) as (final & st1 & st2 & Hc).
  destruct (consume_optional_no_value sub final (mkSegment o None []) st1 a
              Hl Hn eq_refl eq_refl) as [err Herr].
  rewrite Herr in Hc. discriminate Hc.
Qed.

End Rejected_words.
